(** * Geometry core of the topological-maps editor

    A shallow embedding of the polygon and curve routines of
    [src/tm-editor.ts]: segment intersection, winding order, point in
    polygon, polygon union, polygon expansion, removal of self
    intersections, and the two curve fitters.  Each definition carries the
    name of the function it embeds and follows its statements in order.

    Numbers.  JavaScript numbers are IEEE-754 doubles.  The routines are
    written over an interface [NumOps] of the arithmetic the source uses;
    its instance [F64] is the kernel's binary64 floats, which compute what
    the program computes (rounding, signed zeros, infinities, NaN).

    Statements about the shape of results (lengths, the branch taken, the
    absence of errors) are proved for every instance of the interface.
    Statements that need algebra are proved for [F64] on points with integer
    coordinates: there binary64 adds, subtracts and multiplies without
    rounding as long as the results stay below 2^53, which is proved here
    from the kernel's specification of binary64.  Concrete runs are
    evaluated in [F64].

    Errors.  A routine returns an [outcome]: it returns a value, or it
    throws, which here is always the [TypeError] of reading a property of
    [undefined] or [null].

    Objects.  [polyUnion] compares points by reference as well as by value,
    so its polygons are lists of point objects ([PtObj]); the other routines
    work on point values.  The section on the heap puts the arrays in a
    store, for the statements on what a call leaves unchanged.

    The editor.  After the geometry come the routines of the editor that
    work on its data: the control points of a pointset, adding and deleting
    points, the bounds and the persisted form, the left margin, and the
    union of all polygons with its stepwise expansion.

    The file has two parts: the definitions, then the theorems. *)

From Stdlib Require Import ZArith QArith List Bool Lia Psatz Floats Uint63.
Import ListNotations.

Set Implicit Arguments.

(* ================================================================== *)
(** * Numbers *)

(** The operations of JavaScript numbers that the source uses.  [lit] is a
    decimal literal, [nan] is what arithmetic makes of [undefined]. *)
Record NumOps (N : Type) : Type := {
  lit : Q -> N;
  nan : N;
  add : N -> N -> N;
  sub : N -> N -> N;
  mul : N -> N -> N;
  div : N -> N -> N;
  neg : N -> N;
  abs : N -> N;             (* Math.abs *)
  sqrt : N -> N;            (* Math.sqrt *)
  nmax : N -> N -> N;       (* Math.max *)
  nmin : N -> N -> N;       (* Math.min *)
  PI : N;                   (* Math.PI *)
  ltb : N -> N -> bool;     (* a < b *)
  leb : N -> N -> bool;     (* a <= b *)
  eqb : N -> N -> bool      (* a === b, also a == b between numbers *)
}.

Declare Scope num_scope.
Delimit Scope num_scope with num.

(** ** Binary64 *)

Module B64.

Definition ofZ (z : Z) : float :=
  match z with
  | Z0 => PrimFloat.zero
  | Zpos _ => PrimFloat.of_uint63 (Uint63.of_Z z)
  | Zneg p => PrimFloat.opp (PrimFloat.of_uint63 (Uint63.of_Z (Zpos p)))
  end.

(** A literal [n/d] with [n] and [d] below 2^53 is the correctly rounded
    quotient, which is the double the literal denotes. *)
Definition lit (q : Q) : float :=
  PrimFloat.div (ofZ (Qnum q)) (ofZ (Zpos (Qden q))).

Definition is_neg_zero (a : float) : bool :=
  match PrimFloat.classify a with
  | NZero => true
  | _ => false
  end.

(** Math.max and Math.min: NaN if an argument is NaN, and +0 above -0. *)
Definition max (a b : float) : float :=
  if PrimFloat.ltb a b then b
  else if PrimFloat.ltb b a then a
  else if PrimFloat.eqb a b then (if is_neg_zero a then b else a)
  else PrimFloat.nan.

Definition min (a b : float) : float :=
  if PrimFloat.ltb a b then a
  else if PrimFloat.ltb b a then b
  else if PrimFloat.eqb a b then (if is_neg_zero a then a else b)
  else PrimFloat.nan.

End B64.

Definition F64 : NumOps float := {|
  lit := B64.lit;
  nan := PrimFloat.nan;
  add := PrimFloat.add;
  sub := PrimFloat.sub;
  mul := PrimFloat.mul;
  div := PrimFloat.div;
  neg := PrimFloat.opp;
  abs := PrimFloat.abs;
  sqrt := PrimFloat.sqrt;
  nmax := B64.max;
  nmin := B64.min;
  PI := B64.lit (3141592653589793 # 1000000000000000);
  ltb := PrimFloat.ltb;
  leb := PrimFloat.leb;
  eqb := PrimFloat.eqb
|}.

(* ================================================================== *)
(** * Data model *)

Record Point (N : Type) : Type := mkPoint { x : N; y : N }.

Record Segment (A : Type) : Type := mkSegment { start : A; end_ : A }.

Record Interval (N : Type) : Type := mkInterval { istart : N; iend : N }.

(** A point object: the record and its identity.  [polyUnion] compares
    points both by value ([ptEq]) and by reference ([!=]); no routine here
    assigns to a field of a point, so a reference is the pair of an address
    and the value found there. *)
Record PtObj (N : Type) : Type := mkObj { addr : nat; val : Point N }.

(** A vertex of the graphs of [polyUnion]: [{p, neighbours}]. *)
Record Node (N : Type) : Type := mkNode { p : PtObj N; neighbours : list (PtObj N) }.

(** The result of [intersectSegments]: positions along the two segments. *)
Record Intersection (N : Type) : Type := mkIntersection { u : N; v : N }.

(** A call either returns or throws (a [TypeError] on reading a property of
    [undefined] or [null]); [OutOfFuel] is the model's bound on a loop. *)
Inductive outcome (A : Type) : Type :=
| Returns (a : A)
| Throws
| OutOfFuel.

Arguments Throws {A}.
Arguments OutOfFuel {A}.

Definition bind {A B : Type} (c : outcome A) (k : A -> outcome B) : outcome B :=
  match c with
  | Returns a => k a
  | Throws => Throws
  | OutOfFuel => OutOfFuel
  end.

(** Reading [a[i]] and then a property of it. *)
Definition prop_of {A : Type} (o : option A) : outcome A :=
  match o with
  | Some a => Returns a
  | None => Throws
  end.

Notation "x <- c ;; k" := (bind c (fun x => k))
  (at level 61, c at next level, right associativity).


(* ================================================================== *)
(** * Vectors, segments and their intersection *)

Section Geometry.

Context {N : Type} (ops : NumOps N).

(** [Math.atan2], which is not in the interface: a parameter of the
    routines that measure angles. *)
Variable atan2 : N -> N -> N.

Local Notation "a + b" := (add ops a b) : num_scope.
Local Notation "a - b" := (sub ops a b) : num_scope.
Local Notation "a * b" := (mul ops a b) : num_scope.
Local Notation "a / b" := (div ops a b) : num_scope.
Local Notation "- a" := (neg ops a) : num_scope.
Local Notation "a <? b" := (ltb ops a b) : num_scope.
Local Notation "a <=? b" := (leb ops a b) : num_scope.
Local Notation "a >? b" := (ltb ops b a) : num_scope.
Local Notation "a >=? b" := (leb ops b a) : num_scope.
Local Notation "a =? b" := (eqb ops a b) : num_scope.
Local Notation "# q" := (lit ops q%Q) (at level 1, format "# q") : num_scope.
Local Open Scope num_scope.

Local Notation "'Pt'" := (Point N).
Local Notation "'Seg'" := (Segment (Point N)).

(** [pts.length < 2] gives no segment; otherwise the chain of consecutive
    points and the closing segment from the last point to the first. *)
Fixpoint chain {A : Type} (p0 : A) (rest : list A) : list (Segment A) :=
  match rest with
  | [] => []
  | p :: rest' => mkSegment p0 p :: chain p rest'
  end.

Definition segments {A : Type} (pts : list A) : list (Segment A) :=
  match pts with
  | p0 :: (_ :: _) as rest => chain p0 rest ++ [mkSegment (last rest p0) p0]
  | _ => []
  end.

Definition cross (v1 v2 : Pt) : N := x v1 * y v2 - x v2 * y v1.

(** [vec] on two points is their difference; on two numbers it builds the
    point ([vecN]). *)
Definition vec (p1 p2 : Pt) : Pt := mkPoint (x p2 - x p1) (y p2 - y p1).

Definition vecN (a b : N) : Pt := mkPoint a b.

Definition pt (a b : N) : Pt := mkPoint a b.

Definition closeTo (n t : N) : bool := abs ops (n - t) <? #1e-9.

(** [vec_plus(...args)] reduces its arguments from [{x: 0, y: 0}]. *)
Definition vec_plus (args : list Pt) : Pt :=
  fold_left (fun p1 p2 => mkPoint (x p1 + x p2) (y p1 + y p2)) args
            (mkPoint #0 #0).

Definition vec_minus (v1 v2 : Pt) : Pt := mkPoint (x v1 - x v2) (y v1 - y v2).

Definition vec_mult (v1 : Pt) (t : N) : Pt := mkPoint (x v1 * t) (y v1 * t).

Definition vec_divide (v1 : Pt) (t : N) : Pt := mkPoint (x v1 / t) (y v1 / t).

Definition ptPlus (pt1 pt2 : Pt) : Pt := mkPoint (x pt1 + x pt2) (y pt1 + y pt2).

(** [a ** 2] is taken as the product [a * a]. *)
Definition sqr (a : N) : N := a * a.

Definition distanceSq (p1 p2 : Pt) : N := sqr (x p2 - x p1) + sqr (y p2 - y p1).

Definition ptEq (p1 p2 : Pt) : bool := (x p1 =? x p2) && (y p1 =? y p2).

Definition ptClose (p1 p2 : Pt) : bool := closeTo (x p1) (x p2) && closeTo (y p1) (y p2).

Definition dot (v1 v2 : Pt) : N := x v1 * x v2 + y v1 * y v2.

Definition magnitude (v0 : Pt) : N := sqrt ops (dot v0 v0).

Definition normalized (v0 : Pt) : Pt := vec_mult v0 (#1 / magnitude v0).

Definition angleBetween (v1 v2 : Pt) : N :=
  let angleV2 := atan2 (y v2) (x v2) in
  let angleV1 := atan2 (y v1) (x v1) in
  let angle := angleV2 - angleV1 in
  if angle >? PI ops then angle - #2 * PI ops
  else if angle <=? - (PI ops) then angle + #2 * PI ops
  else angle.

Definition validInterval (i : Interval N) : bool := istart i <=? iend i.

Definition intersectIntervals (i1 i2 : Interval N) : option (Interval N) :=
  let result := mkInterval (nmax ops (istart i1) (istart i2))
                           (nmin ops (iend i1) (iend i2)) in
  if validInterval result then Some result else None.

(** [null] is [None]. *)
Definition intersectSegments (segment1 segment2 : Seg) : option (Intersection N) :=
  let s1 := start segment1 in
  let e1 := end_ segment1 in
  let r := vec s1 e1 in
  let s2 := start segment2 in
  let e2 := end_ segment2 in
  let s := vec s2 e2 in
  let numerator1 := cross (vec s1 s2) r in
  let denom := cross r s in
  if closeTo numerator1 #0 && closeTo denom #0 then
    let dot_r_r := dot r r in
    let u0 := dot (vec s1 s2) r / dot_r_r in
    let u1 := dot (vec s1 (vec_plus [s2; s])) r / dot_r_r in
    let '(u0, u1) := if dot s r <? #0 then (u1, u0) else (u0, u1) in
    match intersectIntervals (mkInterval u0 u1) (mkInterval #0 #1) with
    | Some intervalIntersection =>
        let u := istart intervalIntersection in
        let v := (dot (vec_minus s1 s2) s + dot (vec_mult r u) s) / dot s s in
        Some (mkIntersection u v)
    | None =>
        (* collinear, check for equal starts/ends, otherwise no intersection *)
        if ptClose (start segment1) (start segment2) then Some (mkIntersection #0 #0)
        else if ptClose (start segment2) (end_ segment1) then Some (mkIntersection #1 #0)
        else if ptClose (start segment1) (end_ segment2) then Some (mkIntersection #0 #1)
        else if ptClose (end_ segment1) (end_ segment2) then Some (mkIntersection #1 #1)
        else None
    end
  else if closeTo numerator1 #0 || closeTo denom #0 then None
  else
    let v := numerator1 / denom in
    let u := cross (vec s1 s2) s / denom in
    Some (mkIntersection u v).

(* ================================================================== *)
(** * Polygon utilities *)

(** The variable [sum] of [areWindingClockwise] after its loop. *)
Definition windingSum (pts : list Pt) : N :=
  fold_left
    (fun sum s => sum + (x (end_ s) - x (start s)) * (y (end_ s) + y (start s)))
    (segments pts) #0.

Definition areWindingClockwise (pts : list Pt) : bool := windingSum pts <? #0.

Definition inside (poly : list Pt) (p : Pt) : bool :=
  let ray := mkSegment p (ptPlus p (mkPoint #1 #0)) in
  let intersections :=
    fold_left
      (fun n s =>
         match intersectSegments s ray with
         | Some inters =>
             if (u inters >=? #0) && (u inters <=? #1) && (v inters >=? #0)
             then S n else n
         | None => n
         end)
      (segments poly) 0%nat in
  Nat.eqb (Nat.modulo intersections 2) 1.

Definition pickClockwiseOrder (pts : list Pt) : list Pt :=
  if Nat.leb (length pts) 2 then pts
  else if areWindingClockwise pts then pts else rev pts.

(** Assumes clockwise winding order. *)
Definition normal (segment : Seg) : Pt :=
  let v0 := vec (start segment) (end_ segment) in
  let n1 := normalized (vecN (- (y v0)) (x v0)) in
  let n2 := normalized (vecN (y v0) (- (x v0))) in
  if cross v0 n1 <? #0 then n1 else n2.

Definition collinear (p1 p2 p3 : Pt) : bool :=
  abs ops ((y p2 - y p1) / (x p2 - x p1) - (y p3 - y p1) / (x p3 - x p1)) <=? #1e-6.

Definition validIntersection (intersection : option (Intersection N)) : bool :=
  let eps := #1e-9 in
  match intersection with
  | None => false
  | Some i =>
      (u i >=? - eps) && (u i <=? #1 + eps) && (v i >=? - eps) && (v i <=? #1 + eps)
      && (((u i >? #0) && (u i <? #1)) || ((v i >? #0) && (v i <? #1)))
  end.

Definition getIntersectionPoint (intersection : Intersection N) (segment1 : Seg) : Pt :=
  vec_plus [start segment1;
            vec_mult (vec (start segment1) (end_ segment1)) (u intersection)].


(* ================================================================== *)
(** * Polygon offset *)

(** [for (...) body] over a list of indices, with the loop's state. *)
Definition forM {S : Type} (idx : list nat) (body : nat -> S -> outcome S) (s : S)
  : outcome S :=
  fold_left (fun acc i => s' <- acc ;; body i s') idx (Returns s).

(** [pts[(i + pts.length) % pts.length]]. *)
Definition ptAt (pts : list Pt) (i : Z) : option Pt :=
  let len := Z.of_nat (length pts) in
  nth_error pts (Z.to_nat (Z.rem (i + len) len)).

(** [pt], [prevPt] and [nextPt] at index [i], as [(prevPt, pt, nextPt)]. *)
Definition corner (pts : list Pt) (i : nat) : outcome (Pt * Pt * Pt) :=
  p <- prop_of (nth_error pts i) ;;
  prevPt <- prop_of (ptAt pts (Z.of_nat i - 1)) ;;
  nextPt <- prop_of (ptAt pts (Z.of_nat i + 1)) ;;
  Returns (prevPt, p, nextPt).

(** The test under which [expand] skips a vertex. *)
Definition degenerate (c : Pt * Pt * Pt) : bool :=
  let '(prevPt, p, nextPt) := c in
  ptEq p nextPt || ptEq prevPt p || collinear prevPt p nextPt.

(** One turn of the loop of [expand]: the points it pushes for vertex [i]. *)
Definition expandVertex (pts : list Pt) (amount : N) (i : nat) : outcome (list Pt) :=
  c <- corner pts i ;;
  let '(prevPt, p, nextPt) := c in
  if degenerate c then Returns []
  else
    let n1 := normal (mkSegment prevPt p) in
    let n2 := normal (mkSegment p nextPt) in
    let prevPtExp := vec_plus [prevPt; vec_mult n1 amount] in
    let ptExp := vec_plus [p; vec_mult n1 amount] in
    let nextPtExp := vec_plus [nextPt; vec_mult n2 amount] in
    let ptExp2 := vec_plus [p; vec_mult n2 amount] in
    let prevSegmentExp := mkSegment prevPtExp ptExp in
    let nextSegmentExp := mkSegment nextPtExp ptExp2 in
    match intersectSegments prevSegmentExp nextSegmentExp with
    | None => Returns []
    | Some intersection =>
        let newPt :=
          vec_plus [start prevSegmentExp;
                    vec_mult (vec (start prevSegmentExp) (end_ prevSegmentExp))
                             (u intersection)] in
        Returns [newPt]
    end.

(** The loop of [expand], over the array in clockwise order. *)
Definition expandLoop (pts : list Pt) (amount : N) : outcome (list Pt) :=
  forM (seq 0 (length pts))
       (fun i result => new <- expandVertex pts amount i ;; Returns (result ++ new))
       [].

Definition expand (pts0 : list Pt) (amount : N) : outcome (list Pt) :=
  let pts := pickClockwiseOrder pts0 in
  expandLoop pts amount.

(* ================================================================== *)
(** * Removal of self intersections *)

(** [range(start, end)], both ends included. *)
Definition range (first last_ : nat) : list nat := seq first (S last_ - first).

(** The [map] and [filter] of [removeSelfIntersectingParts] at segment [i]:
    the later segments that validly intersect it. *)
Definition candidates (segs : list Seg) (i : nat)
  : outcome (list (nat * Intersection N)) :=
  forM (range (S i) (length segs - 1))
       (fun j acc =>
          si <- prop_of (nth_error segs i) ;;
          sj <- prop_of (nth_error segs j) ;;
          match intersectSegments si sj with
          | Some inters =>
              if validIntersection (Some inters) then Returns (acc ++ [(j, inters)])
              else Returns acc
          | None => Returns acc
          end)
       [].

(** The [reduce]: [None] is the initial [{index: -1, intersection: null}]. *)
Definition closer (si : Seg) (d1 : option (nat * Intersection N))
           (d2 : nat * Intersection N) : option (nat * Intersection N) :=
  match d1 with
  | None => Some d2
  | Some d1' =>
      let pt1 := getIntersectionPoint (snd d1') si in
      let pt2 := getIntersectionPoint (snd d2) si in
      let distance1 := distanceSq (start si) pt1 in
      let distance2 := distanceSq (start si) pt2 in
      if distance1 <? distance2 then Some d1' else Some d2
  end.

(** The [for] loop, whose body moves [i] forward; [fuel] bounds the turns. *)
Fixpoint removeLoop (fuel : nat) (segs : list Seg) (i : nat) (result : list Pt)
  : outcome (list Pt) :=
  if Nat.ltb i (length segs) then
    match fuel with
    | O => OutOfFuel
    | S fuel' =>
        cands <- candidates segs i ;;
        si <- prop_of (nth_error segs i) ;;
        let closest := fold_left (closer si) cands None in
        let '(result, i) :=
          match closest with
          | Some (index, intersection) =>
              (result ++ [getIntersectionPoint intersection si], index)
          | None => (result, i)
          end in
        if Nat.ltb i (length segs - 1) then
          si' <- prop_of (nth_error segs i) ;;
          removeLoop fuel' segs (S i) (result ++ [end_ si'])
        else removeLoop fuel' segs (S i) result
    end
  else Returns result.

Definition removeSelfIntersectingParts (pts0 : list Pt) : outcome (list Pt) :=
  let pts := pickClockwiseOrder pts0 in
  let segs := segments pts in
  match segs with
  | [] => Returns pts
  | s0 :: _ => removeLoop (length segs) segs 0 [start s0]
  end.

(* ================================================================== *)
(** * Curve fitting *)

(** A number array read at [k]: a missing element is [undefined], which
    arithmetic and comparison treat as NaN. *)
Definition aget (a : list N) (k : nat) : N := nth k a (nan ops).

(** [a[k] = v0]: an index past the end extends the array. *)
Fixpoint aset (a : list N) (k : nat) (v0 : N) : list N :=
  match a, k with
  | [], O => [v0]
  | [], S k' => nan ops :: aset [] k' v0
  | _ :: a', O => v0 :: a'
  | e :: a', S k' => e :: aset a' k' v0
  end.

Definition getControlPointsFromTangents (points tangents : list Pt)
  : outcome (list Pt) :=
  forM (seq 0 (length points - 1))
       (fun i res =>
          p1 <- prop_of (nth_error points i) ;;
          p2 <- prop_of (nth_error points (i + 1)) ;;
          t1 <- prop_of (nth_error tangents i) ;;
          t2 <- prop_of (nth_error tangents (i + 1)) ;;
          let cp1 := mkPoint (x p1 + x t1) (y p1 + y t1) in
          let cp2 := mkPoint (x p2 - x t2) (y p2 - y t2) in
          Returns (res ++ [cp1; cp2]))
       [].

Definition monotoneTangents (points : list Pt) : outcome (list Pt) :=
  let n := length points in
  (* the slopes of the secant lines between successive points *)
  d <- forM (seq 0 (n - 1))
         (fun k d =>
            p1 <- prop_of (nth_error points (k + 1)) ;;
            p0 <- prop_of (nth_error points k) ;;
            Returns (aset d k ((y p1 - y p0) / (x p1 - x p0))))
         [] ;;
  (* the tangents at every point as the average of the secants *)
  let m := aset [] 0 (aget d 0) in
  p1 <- prop_of (nth_error points 1) ;;
  p0 <- prop_of (nth_error points 0) ;;
  let dx := aset [] 0 (x p1 - x p0) in
  mdx <- forM (seq 1 (n - 1 - 1))
           (fun k '(m, dx) =>
              let m := aset m k ((aget d (k - 1) + aget d k) / #2) in
              pn <- prop_of (nth_error points (k + 1)) ;;
              pp <- prop_of (nth_error points (k - 1)) ;;
              Returns (m, aset dx k ((x pn - x pp) / #2)))
           (m, dx) ;;
  let '(m, dx) := mdx in
  let k := Nat.max 1 (n - 1) in
  let m := aset m k (aget d (k - 1)) in
  pk <- prop_of (nth_error points k) ;;
  pk' <- prop_of (nth_error points (k - 1)) ;;
  let dx := aset dx k (x pk - x pk') in
  (* step 3 *)
  let m :=
    fold_left
      (fun m k => if aget d k =? #0 then aset (aset m k #0) (k + 1) #0 else m)
      (seq 0 (n - 1)) m in
  (* steps 4 and 5 *)
  let m :=
    fold_left
      (fun m k =>
         if (abs ops (aget m k) <? #1e-5) || (abs ops (aget m (k + 1)) <? #1e-5) then m
         else
           let ak := aget m k / aget d k in
           let bk := aget m (k + 1) / aget d k in
           let s := ak * ak + bk * bk in
           if s >? #9 then
             let tk := #3 / sqrt ops s in
             aset (aset m k (tk * ak * aget d k)) (k + 1) (tk * bk * aget d k)
           else m)
      (seq 0 (n - 1)) m in
  Returns
    (map (fun i =>
            let len := #1 + aget m i * aget m i in
            mkPoint (aget dx i / #3 / len) (aget m i * aget dx i / #3 / len))
         (seq 0 n)).

(** The state of [getClosedBasisCurvePoints]: [p0], [p1] and the two arrays. *)
Definition addPoint (st : Pt * Pt * list Pt * list Pt) (p : Pt)
  : Pt * Pt * list Pt * list Pt :=
  let '(p0, p1, pts, cps) := st in
  let cps := cps ++ [mkPoint ((#2 * x p0 + x p1) / #3) ((#2 * y p0 + y p1) / #3)] in
  let cps := cps ++ [mkPoint ((x p0 + #2 * x p1) / #3) ((y p0 + #2 * y p1) / #3)] in
  let pts := pts ++ [mkPoint ((x p0 + #4 * x p1 + x p) / #6)
                             ((y p0 + #4 * y p1 + y p) / #6)] in
  (p1, p, pts, cps).

Definition getClosedBasisCurvePoints (points : list Pt) : list Pt * list Pt :=
  if Nat.leb (length points) 3 then ([], [])
  else
    match points with
    | f :: s :: t :: rest =>
        let pts := [mkPoint ((x f + #4 * x s + x t) / #6)
                            ((y f + #4 * y s + y t) / #6)] in
        let st := fold_left addPoint rest (s, t, pts, []) in
        let st := addPoint st f in
        let st := addPoint st s in
        let '(_, _, pts, cps) := addPoint st t in
        (pts, cps)
    | _ => ([], [])
    end.


(* ================================================================== *)
(** * Polygon union *)

Local Notation "'Obj'" := (PtObj N).
Local Notation "'SegO'" := (Segment (PtObj N)).
Local Notation "'Graph'" := (list (Node N)).

Definition vals (poly : list Obj) : list Pt := map (@val N) poly.

Definition segv (s : SegO) : Seg := mkSegment (val (start s)) (val (end_ s)).

(** [ptEq] on two point objects. *)
Definition ptEqO (p1 p2 : Obj) : bool := ptEq (val p1) (val p2).

(** [a != b] on two point objects: a comparison of references. *)
Definition sameRef (a b : Obj) : bool := Nat.eqb (addr a) (addr b).

Definition addNeighbour (graph : Graph) (to neighbour : Obj) : Graph :=
  if existsb (fun el => ptEqO (p el) to) graph then
    map (fun el =>
           if ptEqO (p el) to then mkNode (p el) (neighbours el ++ [neighbour])
           else el)
        graph
  else graph ++ [mkNode to [neighbour]].

Definition linkPoints (graph : Graph) (p1 p2 : Obj) : Graph :=
  addNeighbour (addNeighbour graph p1 p2) p2 p1.

(** The loop [for (i = 0; i < el.neighbours.length; ++i)] that splices out
    the element at [i] when it equals [neighbour]: after a removal the next
    element has moved to [i] and the loop steps over it. *)
Fixpoint spliceOut (neighbour : Obj) (ns : list Obj) : list Obj :=
  match ns with
  | [] => []
  | n :: rest =>
      if ptEqO neighbour n then
        match rest with
        | [] => []
        | n' :: rest' => n' :: spliceOut neighbour rest'
        end
      else n :: spliceOut neighbour rest
  end.

Definition removeNeighbour (graph : Graph) (to neighbour : Obj) : Graph :=
  map (fun el =>
         if ptEqO (p el) to then mkNode (p el) (spliceOut neighbour (neighbours el))
         else el)
      graph.

Definition unlinkPoints (graph : Graph) (p1 p2 : Obj) : Graph :=
  removeNeighbour (removeNeighbour graph p1 p2) p2 p1.

(** [graph.find(...).neighbours]: a [TypeError] when no vertex is found. *)
Definition getNeighbours (graph : Graph) (p0 : Obj) : outcome (list Obj) :=
  el <- prop_of (find (fun el => ptEqO (p el) p0) graph) ;;
  Returns (neighbours el).

(** [Array.prototype.sort] with a comparator: the sort is stable, and for a
    comparator that orders the elements consistently every stable sort
    gives the list below (insertion after the elements not above). *)
Fixpoint insertBy {A : Type} (cmp : A -> A -> N) (a : A) (sorted : list A) : list A :=
  match sorted with
  | [] => [a]
  | b :: rest =>
      if cmp a b <? #0 then a :: b :: rest else b :: insertBy cmp a rest
  end.

Definition sortBy {A : Type} (cmp : A -> A -> N) (l : list A) : list A :=
  fold_left (fun sorted a => insertBy cmp a sorted) l [].

(** [arr.reduce(f)] without an initial value: a [TypeError] on [[]]. *)
Definition reduce1 {A : Type} (f : A -> A -> A) (arr : list A) : outcome A :=
  match arr with
  | [] => Throws
  | a :: rest => Returns (fold_left f rest a)
  end.

(** The array [pts] is sorted in place: the sorted array is returned beside
    its first element. *)
Definition furthestFromLowestLeft (pts : list Obj) : outcome (Obj * list Obj) :=
  minx <- reduce1 (nmin ops) (map (fun q => x (val q)) pts) ;;
  maxy <- reduce1 (nmax ops) (map (fun q => y (val q)) pts) ;;
  let lowerLeftCorner := mkPoint minx maxy in
  let pts :=
    sortBy (fun a b => distanceSq (val b) lowerLeftCorner
                       - distanceSq (val a) lowerLeftCorner) pts in
  first <- prop_of (nth_error pts 0) ;;
  Returns (first, pts).

(** [segs2.forEach((p, i) => ... segs2.splice(i, 1, s2.start-pt, pt-s2.end))]:
    [forEach] visits the indices below the length the array had at the
    start, and sees the array as the splices have left it. *)
Fixpoint splitSegment (visits : nat) (segs2 : list SegO) (s2 : SegO) (pt0 : Obj)
  : list SegO :=
  match visits, segs2 with
  | S visits', q :: rest =>
      if ptEqO (start q) (start s2) && ptEqO (end_ q) (end_ s2) then
        mkSegment (start s2) pt0
          :: splitSegment visits' (mkSegment pt0 (end_ s2) :: rest) s2 pt0
      else q :: splitSegment visits' rest s2 pt0
  | _, _ => segs2
  end.

(** The variables of the first part of [polyUnion]; [fresh] is the address of
    the next point object to be created. *)
Record Scan : Type := mkScan {
  poly2Graph : Graph;
  segs2 : list SegO;
  graph : Graph;
  haveIntersection : bool;
  fresh : nat
}.

(** Is the intersection a crossing: both positions strictly inside (0,1). *)
Definition crossing (inters : option (Intersection N)) : bool :=
  match inters with
  | Some i => (u i >? #0) && (u i <? #1) && (v i >? #0) && (v i <? #1)
  | None => false
  end.

(** The body of the inner loop, for one [s2] of the copy of [segs2]. *)
Definition scanPair (s1 : SegO) (st : Scan * list (Node N)) (s2 : SegO)
  : Scan * list (Node N) :=
  let '(sc, intersectionPts) := st in
  let inters := intersectSegments (segv s1) (segv s2) in
  if crossing inters then
    match inters with
    | Some i =>
        let v0 := vec (val (start s1)) (val (end_ s1)) in
        let pt0 := mkObj (fresh sc) (vec_plus [val (start s1); vec_mult v0 (u i)]) in
        let intersectionPts := intersectionPts ++ [mkNode pt0 [start s2; end_ s2]] in
        let g := linkPoints (poly2Graph sc) (start s2) pt0 in
        let g := linkPoints g (end_ s2) pt0 in
        let g := unlinkPoints g (start s2) (end_ s2) in
        let segs2' := splitSegment (length (segs2 sc)) (segs2 sc) s2 pt0 in
        (mkScan g segs2' (graph sc) true (S (fresh sc)), intersectionPts)
    | None => st
    end
  else st.

(** The body of the outer loop, for one segment [s1] of [poly1]. *)
Definition scanSegment (sc : Scan) (s1 : SegO) : Scan :=
  let '(sc, intersectionPts) := fold_left (scanPair s1) (segs2 sc) (sc, []) in
  let intersectionPts :=
    sortBy (fun a b => distanceSq (val (start s1)) (val (p a))
                       - distanceSq (val (start s1)) (val (p b)))
           intersectionPts in
  let arr := intersectionPts ++ [mkNode (end_ s1) []] in
  let '(g, _) :=
    fold_left (fun '(g, p0) intersP => (linkPoints g p0 (p intersP), p intersP))
              arr (graph sc, start s1) in
  mkScan (poly2Graph sc) (segs2 sc) g (haveIntersection sc) (fresh sc).

Definition scan (next : nat) (poly1 poly2 : list Obj) : Scan :=
  let segments2 := segments poly2 in
  let poly2Graph :=
    fold_left (fun g s2 => linkPoints g (start s2) (end_ s2)) segments2 [] in
  fold_left scanSegment (segments poly1) (mkScan poly2Graph segments2 [] false next).

Fixpoint concatFirst (res : Graph) (v2 : Node N) : Graph :=
  match res with
  | [] => []
  | v1 :: rest =>
      if ptEqO (p v1) (p v2) then mkNode (p v1) (neighbours v1 ++ neighbours v2) :: rest
      else v1 :: concatFirst rest v2
  end.

Definition mergeGraphs (g1 g2 : Graph) : Graph :=
  fold_left
    (fun res v2 =>
       if existsb (fun v1 => ptEqO (p v1) (p v2)) res then concatFirst res v2
       else res ++ [v2])
    g2 g1.

Definition isVisited (visited : list Obj) (v0 : Obj) : bool :=
  existsb (fun x0 => ptEqO x0 v0) visited.

(** [x != prevPt], where [prevPt] may be [null]. *)
Definition differsFrom (prevPt : option Obj) (x0 : Obj) : bool :=
  match prevPt with
  | None => true
  | Some q => negb (sameRef x0 q)
  end.

(** The loop [while (q.length > 0)]; [known] is [clockwiseWindingOrder != null]. *)
Fixpoint trace (fuel : nat) (mergedGraph : Graph) (q visited result : list Obj)
         (prevPt : option Obj) (known : bool) : outcome (list Obj) :=
  match q with
  | [] => Returns result
  | v0 :: q =>
      match fuel with
      | O => OutOfFuel
      | S fuel' =>
          let result := result ++ [v0] in
          neighb <- getNeighbours mergedGraph v0 ;;
          match neighb with
          | [n0; n1] =>
              (* ordinary point (not intersection point) *)
              if known then
                match find (fun x0 => differsFrom prevPt x0 && negb (isVisited visited x0))
                           neighb with
                | Some next =>
                    trace fuel' mergedGraph (q ++ [next]) (visited ++ [next]) result
                          (Some v0) known
                | None => trace fuel' mergedGraph q visited result (Some v0) known
                end
              else
                (* always pick clockwise winding *)
                let o2 :=
                  if areWindingClockwise [val n1; val v0; val n0] then n0 else n1 in
                trace fuel' mergedGraph (q ++ [o2]) (visited ++ [o2]) result
                      (Some v0) true
          | _ =>
              prev <- prop_of prevPt ;;
              let lastSegmentVec := vec (val prev) (val v0) in
              let neighb :=
                sortBy (fun p1 p2 =>
                          angleBetween lastSegmentVec (vec (val v0) (val p1))
                          - angleBetween lastSegmentVec (vec (val v0) (val p2)))
                       (filter (differsFrom prevPt) neighb) in
              first <- prop_of (nth_error neighb 0) ;;
              if negb (isVisited visited first) then
                trace fuel' mergedGraph (q ++ [first]) (visited ++ [first]) result
                      (Some v0) known
              else trace fuel' mergedGraph q visited result (Some v0) known
          end
      end
  end.

(** A bound on the turns of [trace]: after the first turn, a turn that is not
    the last one visits a neighbour entry that was not visited before. *)
Definition traceFuel (g : Graph) : nat :=
  2 + length (flat_map (@neighbours N) g).

(** [polyUnion(poly1, poly2)].  [next] is the first free address: the points
    of intersection are created at [next], [next + 1], ... *)
Definition polyUnion (next : nat) (poly1 poly2 : list Obj) : outcome (list (list Obj)) :=
  let sc := scan next poly1 poly2 in
  if negb (haveIntersection sc) then
    if match poly2 with [] => true | q :: _ => inside (vals poly1) (val q) end
    then Returns [poly1]
    else if match poly1 with [] => true | q :: _ => inside (vals poly2) (val q) end
    then Returns [poly2]
    else Returns [poly1; poly2]
  else
    let mergedGraph := mergeGraphs (graph sc) (poly2Graph sc) in
    sorted <- furthestFromLowestLeft (poly1 ++ poly2) ;;
    let start0 := fst sorted in
    result <- trace (traceFuel mergedGraph) mergedGraph [start0] [start0] [] None false ;;
    Returns [result].

End Geometry.

(* ================================================================== *)
(** * The routines on the heap

    [polyUnion] and [expand] receive references to arrays.  The store below
    holds the arrays of point objects; the routines are written again over
    it, with every array that exists before the call or is handed out by it
    in the store: a copy allocates, [sort] and [reverse] write in place.  The
    arrays that a routine builds and drops ([graph], [q], [visited], ...) stay
    values, and [result] enters the store when it is returned. *)

Section Heap.

Context {N : Type} (ops : NumOps N).

Variable atan2 : N -> N -> N.

Record Store : Type := mkStore {
  arrays : list (list (PtObj N));   (* the arrays, by reference *)
  nextAddr : nat                    (* the next free address for a point *)
}.

(** A computation on the store that returns or throws. *)
Definition St (A : Type) : Type := Store -> outcome A * Store.

Definition retS {A : Type} (a : A) : St A := fun h => (Returns a, h).

Definition bindS {A B : Type} (c : St A) (k : A -> St B) : St B :=
  fun h =>
    match c h with
    | (Returns a, h') => k a h'
    | (Throws, h') => (Throws, h')
    | (OutOfFuel, h') => (OutOfFuel, h')
    end.

Definition liftS {A : Type} (o : outcome A) : St A := fun h => (o, h).

Definition readArr (l : nat) : St (list (PtObj N)) :=
  fun h => (prop_of (nth_error (arrays h) l), h).

Definition allocArr (a : list (PtObj N)) : St nat :=
  fun h => (Returns (length (arrays h)), mkStore (arrays h ++ [a]) (nextAddr h)).

Fixpoint setArr (l : nat) (a : list (PtObj N)) (arrs : list (list (PtObj N)))
  : list (list (PtObj N)) :=
  match arrs, l with
  | [], _ => []
  | _ :: rest, O => a :: rest
  | a0 :: rest, S l' => a0 :: setArr l' a rest
  end.

Definition writeArr (l : nat) (a : list (PtObj N)) : St unit :=
  fun h => (Returns tt, mkStore (setArr l a (arrays h)) (nextAddr h)).

Definition getNext : St nat := fun h => (Returns (nextAddr h), h).

Definition setNext (n : nat) : St unit := fun h => (Returns tt, mkStore (arrays h) n).

(** New point objects for the values [vs], at consecutive addresses. *)
Fixpoint objects (a : nat) (vs : list (Point N)) : list (PtObj N) :=
  match vs with
  | [] => []
  | v0 :: vs' => mkObj a v0 :: objects (S a) vs'
  end.

Definition newPoints (vs : list (Point N)) : St (list (PtObj N)) :=
  fun h => (Returns (objects (nextAddr h) vs),
            mkStore (arrays h) (nextAddr h + length vs)).

Local Notation "x <~ c ;; k" := (bindS c (fun x => k))
  (at level 61, c at next level, right associativity).

(** [pickClockwiseOrder]: the array itself, or [[...pts].reverse()]. *)
Definition pickClockwiseOrderS (pts : nat) : St nat :=
  a <~ readArr pts ;;
  if Nat.leb (length a) 2 then retS pts
  else if areWindingClockwise ops (vals a) then retS pts
  else
    c <~ allocArr a ;;
    _ <~ writeArr c (rev a) ;;
    retS c.

Definition expandS (pts : nat) (amount : N) : St nat :=
  pts <~ pickClockwiseOrderS pts ;;
  a <~ readArr pts ;;
  vs <~ liftS (expandLoop ops (vals a) amount) ;;
  result <~ newPoints vs ;;
  allocArr result.

Definition polyUnionS (poly1 poly2 : nat) : St (list nat) :=
  a1 <~ readArr poly1 ;;
  a2 <~ readArr poly2 ;;
  next <~ getNext ;;
  let sc := scan ops next a1 a2 in
  _ <~ setNext (fresh sc) ;;
  if negb (haveIntersection sc) then
    if match a2 with [] => true | q :: _ => inside ops (vals a1) (val q) end
    then retS [poly1]
    else if match a1 with [] => true | q :: _ => inside ops (vals a2) (val q) end
    then retS [poly2]
    else retS [poly1; poly2]
  else
    let mergedGraph := mergeGraphs ops (graph sc) (poly2Graph sc) in
    c <~ allocArr (a1 ++ a2) ;;
    pts <~ readArr c ;;
    sorted <~ liftS (furthestFromLowestLeft ops pts) ;;
    _ <~ writeArr c (snd sorted) ;;
    let start0 := fst sorted in
    result <~ liftS (trace ops atan2 (traceFuel mergedGraph) mergedGraph
                           [start0] [start0] [] None false) ;;
    r <~ allocArr result ;;
    retS [r].

(** The arrays of [h] are in [h'] as they were. *)
Definition preserved (h h' : Store) : Prop :=
  forall l a, nth_error (arrays h) l = Some a -> nth_error (arrays h') l = Some a.

(** The arrays behind a list of references. *)
Fixpoint derefAll (h : Store) (refs : list nat) : outcome (list (list (PtObj N))) :=
  match refs with
  | [] => Returns []
  | r :: refs' =>
      a <- prop_of (nth_error (arrays h) r) ;;
      rest <- derefAll h refs' ;;
      Returns (a :: rest)
  end.

(** The values of the points of the array behind a reference. *)
Definition derefVals (h : Store) (r : nat) : outcome (list (Point N)) :=
  a <- prop_of (nth_error (arrays h) r) ;;
  Returns (vals a).

End Heap.

(* ================================================================== *)
(** * Definitions for the statements *)

Section Statements.

Context {N : Type} (ops : NumOps N).

(** [getControlPointsFromTangents(points, monotoneTangents(points))], as
    [convertPersistedRepresentation] calls it. *)
Definition baseControlPoints (points : list (Point N)) : outcome (list (Point N)) :=
  tangents <- monotoneTangents ops points ;;
  getControlPointsFromTangents ops points tangents.

(** No segment of [poly1] crosses a segment of [poly2]. *)
Definition noCrossing (poly1 poly2 : list (PtObj N)) : bool :=
  forallb (fun s1 =>
             forallb (fun s2 =>
                        negb (crossing ops (intersectSegments ops (segv s1) (segv s2))))
                     (segments poly2))
          (segments poly1).

(** The two edges at a corner are not parallel by the test of
    [intersectSegments]: their cross product is not within 1e-9 of zero. *)
Definition resolvedCorner (c : Point N * Point N * Point N) : bool :=
  let '(prevPt, p, nextPt) := c in
  negb (closeTo ops (cross ops (vec ops prevPt nextPt) (vec ops prevPt p)) (lit ops 0)).

(** The vertex at [i], unless [expand] skips it. *)
Definition keptAt (pts : list (Point N)) (i : nat) : list (Point N) :=
  match corner pts i with
  | Returns c => if degenerate ops c then [] else [snd (fst c)]
  | _ => []
  end.

(** The polygon without the vertices that [expand] skips. *)
Definition keptVertices (pts : list (Point N)) : list (Point N) :=
  flat_map (keptAt pts) (seq 0 (length pts)).

(** Every vertex is skipped or has a resolved corner. *)
Definition cornersResolved (pts : list (Point N)) : bool :=
  forallb (fun i =>
             match corner pts i with
             | Returns c => degenerate ops c || resolvedCorner c
             | _ => false
             end)
          (seq 0 (length pts)).

(** Two points, and two polygons vertex by vertex, equal within [tol]. *)
Definition nearPt (tol : N) (a b : Point N) : bool :=
  leb ops (abs ops (sub ops (x a) (x b))) tol
  && leb ops (abs ops (sub ops (y a) (y b))) tol.

Fixpoint nearPoly (tol : N) (l1 l2 : list (Point N)) : bool :=
  match l1, l2 with
  | [], [] => true
  | a :: l1', b :: l2' => nearPt tol a b && nearPoly tol l1' l2'
  | _, _ => false
  end.

(** The neighbour entries of a graph, and the number of those not yet
    visited. *)
Definition entries (g : list (Node N)) : list (PtObj N) := flat_map (@neighbours N) g.

Definition unvisited (g : list (Node N)) (visited : list (PtObj N)) : nat :=
  length (filter (fun n => negb (isVisited ops visited n)) (entries g)).

(** The state of the loop of [trace] after its first turn: the queue is
    empty or holds one point, and the fuel covers the unvisited entries. *)
Definition ready (g : list (Node N)) (fuel : nat) (q visited : list (PtObj N)) : Prop :=
  match q with
  | [] => True
  | [v0] => (1 <= fuel)%nat
            /\ (ptEqO ops v0 v0 = true -> unvisited g visited + 1 <= fuel)%nat
  | _ => False
  end.

Variable atan2 : N -> N -> N.

(** [polyUnion] on the heap leaves the arrays of [h] as they were and hands
    out what the function of the two arrays gives. *)
Definition unionIsPure (h : @Store N) (poly1 poly2 : nat) (a1 a2 : list (PtObj N))
  : Prop :=
  let r := polyUnionS ops atan2 poly1 poly2 h in
  preserved h (snd r)
  /\ (refs <- fst r ;; derefAll (snd r) refs) = polyUnion ops atan2 (nextAddr h) a1 a2.

Definition expandIsPure (h : @Store N) (pts : nat) (a : list (PtObj N)) (amount : N)
  : Prop :=
  let r := expandS ops pts amount h in
  preserved h (snd r)
  /\ (res <- fst r ;; derefVals (snd r) res) = expand ops (vals a) amount.

End Statements.

(* ================================================================== *)
(** * Integers in binary64 *)

(** The arithmetic of doubles is exact on integers as long as the results
    stay below 2^53.  [encZ z] is the double that holds the integer [z], as
    the kernel's specification of binary64 writes it: a sign, a mantissa of
    53 bits and an exponent. *)

Definition digits (p : positive) : Z := Zpos (digits2_pos p).

Definition encP (s : bool) (p : positive) : spec_float :=
  S754_finite s (Z.to_pos (Zpos p * 2 ^ (53 - digits p))) (digits p - 53).

Definition encZ (z : Z) : spec_float :=
  match z with
  | Z0 => S754_zero false
  | Zpos p => encP false p
  | Zneg p => encP true p
  end.

(** The double [f] holds the integer [z]; there are two zeros. *)
Definition holds (f : float) (z : Z) : Prop :=
  (Z.abs z < 2 ^ 53)%Z
  /\ (Prim2SF f = encZ z \/ (z = 0%Z /\ Prim2SF f = S754_zero true)).

(** A point with integer coordinates, as the doubles that hold them. *)
Definition intPoint (q : Point Z) : Point float :=
  mkPoint (B64.ofZ (x q)) (B64.ofZ (y q)).

Definition intSegment (s : Segment (Point Z)) : Segment (Point float) :=
  mkSegment (intPoint (start s)) (intPoint (end_ s)).

(** All coordinates are at most [B] in absolute value. *)
Definition within (B : Z) (P : list (Point Z)) : Prop :=
  forall q, In q P -> (Z.abs (x q) <= B /\ Z.abs (y q) <= B)%Z.

(** The term of a segment from [a] to [b] in the winding sum, and the sum
    over the segments of a polygon, in the integers. *)
Definition zterm (a b : Point Z) : Z := ((x b - x a) * (y b + y a))%Z.

Definition windingZ (P : list (Point Z)) : Z :=
  fold_left (fun sum s => (sum + zterm (start s) (end_ s))%Z) (segments P) 0%Z.

(** The sum of the terms along an open path, and the closing term from the
    last point back to the first. *)
Fixpoint zpath (l : list (Point Z)) : Z :=
  match l with
  | a :: (b :: _) as t => (zterm a b + zpath t)%Z
  | _ => 0%Z
  end.

Definition zclose (l : list (Point Z)) : Z :=
  match l with
  | a :: (_ :: _) as t => zterm (last t a) a
  | _ => 0%Z
  end.

(** The difference of two integer points and the cross product, as [vec] and
    [cross] compute them. *)
Definition vecZ (a b : Point Z) : Point Z := mkPoint (x b - x a)%Z (y b - y a)%Z.

Definition crossZ (v1 v2 : Point Z) : Z := (x v1 * y v2 - x v2 * y v1)%Z.

(** A normal double: a mantissa of exactly 53 bits, with its exponent
    between [lo] and [hi]. *)
Definition normalF (lo hi : Z) (f : spec_float) : Prop :=
  exists s m e, f = S754_finite s m e /\ digits m = 53%Z /\ (lo <= e <= hi)%Z.

(** A double that is a number: a zero or finite, not an infinity or NaN. *)
Definition finite (f : float) : Prop :=
  match Prim2SF f with
  | S754_zero _ | S754_finite _ _ _ => True
  | _ => False
  end.

(** Containment in a convex polygon, by the geometry and not by [inside]:
    for a polygon given with its vertices turning left, the point is
    strictly to the left of every edge. *)
Definition strictlyInsideConvex (P : list (Point Z)) (q : Point Z) : bool :=
  forallb (fun s => (0 <? crossZ (vecZ (start s) (end_ s)) (vecZ (start s) q))%Z)
          (segments P).

(** Every vertex of [Q] is to the left of every vertex of [P]. *)
Definition leftOf (P Q : list (Point Z)) : bool :=
  forallb (fun q => forallb (fun a => (x q <? x a)%Z) P) Q.

(** ** Inputs of the examples *)

Module Ex.

Definition fpt (a b : Q) : Point float := mkPoint (lit F64 a) (lit F64 b).

(** The square of the specification's scenarios. *)
Definition square : list (Point float) := [fpt 0 0; fpt 10 0; fpt 10 10; fpt 0 10].

(** The square with a vertex in the middle of its right, vertical edge. *)
Definition squareMidRight : list (Point float) :=
  [fpt 0 0; fpt 10 0; fpt 10 5; fpt 10 10; fpt 0 10].

(** The square with its second vertex twice: a segment of length zero. *)
Definition squareDup : list (Point float) :=
  [fpt 0 0; fpt 10 0; fpt 10 0; fpt 10 10; fpt 0 10].

(** A rectangle that overlaps the lower right of the square. *)
Definition overlapping : list (Point float) := [fpt 5 5; fpt 14 5; fpt 14 15; fpt 5 15].

Definition farSquare : list (Point float) :=
  [fpt 100 100; fpt 101 100; fpt 101 101; fpt 100 101].

(** A figure of eight: four points, no three of them on a line. *)
Definition bowtie : list (Point float) := [fpt 0 0; fpt 2 2; fpt 2 0; fpt 0 2].

(** A right triangle with legs of length 1e-5. *)
Definition tiny : list (Point float) := [fpt 0 0; fpt 1e-5 0; fpt 0 1e-5].

Definition threePoints : list (Point float) := [fpt 1 1; fpt 2 3; fpt 4 4].

(** A store with the square at reference 0 and the far square at 1. *)
Definition store0 : @Store float :=
  mkStore [objects 0 square; objects 4 farSquare] 8.

Definition zpt (a b : Z) : Point Z := mkPoint a b.

(** The square and the square with a vertex in the middle of its top edge,
    with integer coordinates. *)
Definition squareZ : list (Point Z) := [zpt 0 0; zpt 10 0; zpt 10 10; zpt 0 10].

Definition squareMidZ : list (Point Z) :=
  [zpt 0 0; zpt 5 0; zpt 10 0; zpt 10 10; zpt 0 10].

(** A convex pentagon with its tip at (10,5), a unit square inside it at the
    height of the tip, and a unit square to the left of it at that height. *)
Definition pentagon : list (Point Z) := [zpt 8 0; zpt 10 5; zpt 8 10; zpt 0 10; zpt 0 0].

Definition innerSquare : list (Point Z) := [zpt 4 5; zpt 5 5; zpt 5 6; zpt 4 6].

Definition leftSquare : list (Point Z) := [zpt (-5) 5; zpt (-4) 5; zpt (-4) 6; zpt (-5) 6].

(** A right triangle with legs of length 2 at (1e16, 1e16). *)
Definition farTriangle : list (Point float) :=
  [fpt 1e16 1e16; fpt 1e16 10000000000000002; fpt 10000000000000002 1e16].

(** A quadrilateral with two long, nearly parallel edges that meet at
    (0.001, 1000). *)
Definition sliver : list (Point float) :=
  [fpt 0 0; fpt 0.001 1000; fpt 0.002000000002 2000; fpt (-500) 1000].

(** The same shape with integer coordinates of the order of 10^12. *)
Definition farSliver : list (Point Z) :=
  [zpt 0 0; zpt 100003 1000000000007; zpt 200007 2000000000014;
   zpt (-500015) 1000000000007].

(** A thin quadrilateral whose coordinates are not integers. *)
Definition fractions : list (Point float) :=
  [fpt 0 0; fpt (-0.1) 0.1; fpt (-1.6) 1.6; fpt (-0.3) 0.30000000000000004].

End Ex.

(* ================================================================== *)
(** * The editor's data: pointsets, rectangles and the persisted form *)

(** [interface Rectangle]. *)
Module Rectangle.

Record t (N : Type) : Type := mk { x : N; y : N; width : N; height : N }.

End Rectangle.

(** [interface Pointset]: the points of a curve and, for every base control
    point, the offset the user has given it. *)
Module Pointset.

Record t (N : Type) : Type :=
  mk { points : list (Point N); controlPointDiffs : list (Point N) }.

End Pointset.

(** [interface PointsetSerialized], as [pointsetToSerializedForm] makes it:
    the object [{}] has neither property.  A [PointSerialized] is an array
    of numbers. *)
Module PointsetSerialized.

Record t (N : Type) : Type :=
  mk { points : option (list (list N)); controlPoints : option (list (list N)) }.

End PointsetSerialized.

(** The object that [convertToPersistedRepresentation] returns. *)
Module Persisted.

Record t (N : Type) : Type :=
  mk { pointsets : list (PointsetSerialized.t N); width : N; height : N }.

End Persisted.

(** [arr.map((a, i) => f(a, i))] with a callback that may throw. *)
Fixpoint mapFrom {A B : Type} (f : A -> nat -> outcome B) (i : nat) (arr : list A)
  : outcome (list B) :=
  match arr with
  | [] => Returns []
  | a :: rest =>
      b <- f a i ;;
      bs <- mapFrom f (S i) rest ;;
      Returns (b :: bs)
  end.

Definition mapM {A B : Type} (f : A -> nat -> outcome B) (arr : list A)
  : outcome (list B) :=
  mapFrom f 0 arr.

(** [arr.splice(start, deleteCount, ...items)] with integers: a negative
    [start] counts from the end, and [start] is brought into
    [0 .. arr.length]. *)
Definition splice {A : Type} (arr : list A) (start : Z) (deleteCount : nat)
           (items : list A) : list A :=
  let len := Z.of_nat (length arr) in
  let actualStart :=
    Z.to_nat (if (start <? 0)%Z then Z.max (len + start) 0 else Z.min start len) in
  firstn actualStart arr ++ items ++ skipn (actualStart + deleteCount) arr.

(** [arr[i]] with an integer [i]: [undefined] out of range. *)
Definition at_ {A : Type} (arr : list A) (i : Z) : option A :=
  if (i <? 0)%Z then None else nth_error arr (Z.to_nat i).

(** [arr.indexOf(element)], with the comparison [===] as [same]. *)
Fixpoint indexOf {A : Type} (same : A -> A -> bool) (arr : list A) (element : A) : Z :=
  match arr with
  | [] => (-1)%Z
  | a :: rest =>
      if same a element then 0%Z
      else
        let i := indexOf same rest element in
        if (i <? 0)%Z then (-1)%Z else (i + 1)%Z
  end.

(** [remove(arr, element)]: the array after the call. *)
Definition remove {A : Type} (same : A -> A -> bool) (arr : list A) (element : A)
  : list A :=
  let i := indexOf same arr element in
  splice arr i 1 [].

(** [Array.prototype.sort] on integers with a comparator that orders them
    consistently, as [sortBy] above. *)
Fixpoint insertZ (cmp : Z -> Z -> Z) (a : Z) (sorted : list Z) : list Z :=
  match sorted with
  | [] => [a]
  | b :: rest =>
      if (cmp a b <? 0)%Z then a :: b :: rest else b :: insertZ cmp a rest
  end.

Definition sortZ (cmp : Z -> Z -> Z) (l : list Z) : list Z :=
  fold_left (fun sorted a => insertZ cmp a sorted) l [].

Section Editor.

Context {N : Type} (ops : NumOps N).

Local Notation "a + b" := (add ops a b) : num_scope.
Local Notation "a - b" := (sub ops a b) : num_scope.
Local Notation "a * b" := (mul ops a b) : num_scope.
Local Notation "a / b" := (div ops a b) : num_scope.
Local Notation "- a" := (neg ops a) : num_scope.
Local Notation "a <? b" := (ltb ops a b) : num_scope.
Local Notation "a <=? b" := (leb ops a b) : num_scope.
Local Notation "a =? b" := (eqb ops a b) : num_scope.
Local Notation "# q" := (lit ops q%Q) (at level 1, format "# q") : num_scope.
Local Open Scope num_scope.

Local Notation "'Pt'" := (Point N).
Local Notation "'Seg'" := (Segment (Point N)).

(* ------------------------------------------------------------------ *)
(** ** Control points of a pointset *)

Definition applyDiffs (pts diffs : list Pt) : outcome (list Pt) :=
  mapM (fun p i =>
          d <- prop_of (nth_error diffs i) ;;
          Returns (mkPoint (x p + x d) (y p + y d)))
       pts.

Definition getBaseControlPoints (pointset : Pointset.t N) : outcome (list Pt) :=
  if Nat.leb (length (Pointset.points pointset)) 1 then Returns []
  else
    let points := Pointset.points pointset in
    tangents <- monotoneTangents ops points ;;
    getControlPointsFromTangents ops points tangents.

Definition getEffectiveControlPoints (pointset : Pointset.t N) : outcome (list Pt) :=
  base <- getBaseControlPoints pointset ;;
  applyDiffs base (Pointset.controlPointDiffs pointset).

(** [[cp1, cp2]]: [None] is [null], and also the [undefined] of an index
    past the end. *)
Definition getControlPointsForPoint (ps : Pointset.t N) (i : Z) (controlPoints : list Pt)
  : option Pt * option Pt :=
  let cp1 := if (i >? 0)%Z then at_ controlPoints (2 * i - 1) else None in
  let cp2 :=
    if (i <? Z.of_nat (length (Pointset.points ps)) - 1)%Z then at_ controlPoints (2 * i)
    else None in
  (cp1, cp2).

(** [ptMinus(pt1, pt2?)]. *)
Definition ptMinus (pt1 : Pt) (pt2 : option Pt) : Pt :=
  match pt2 with
  | None => mkPoint (- x pt1) (- y pt1)
  | Some pt2 => mkPoint (x pt1 - x pt2) (y pt1 - y pt2)
  end.

(** [cp || defVal] on an optional point. *)
Definition orElse (cp : option Pt) (defVal : Pt) : Pt :=
  match cp with
  | Some c => c
  | None => defVal
  end.

(* ------------------------------------------------------------------ *)
(** ** Adding and deleting points

    The routines change the arrays of the pointset in place; here they
    return the pointset after the call. *)

Definition addControlPointDiffsForPoint (ps : Pointset.t N) (i : Z) (cp1 cp2 : option Pt)
  : outcome (Pointset.t N) :=
  let defVal := mkPoint #0 #0 in
  let diffs := Pointset.controlPointDiffs ps in
  let len := Z.of_nat (length (Pointset.points ps)) in
  if (len <=? 1)%Z then Returns ps
  else
    let diffs := if (i >? 0)%Z then splice diffs (2 * i - 1) 0 [orElse cp1 defVal] else diffs in
    let diffs := if (i <? len - 1)%Z then splice diffs (2 * i) 0 [orElse cp2 defVal] else diffs in
    if (i =? 0)%Z then
      toAdd <- (if (len >? 2)%Z then
                  d <- prop_of (at_ diffs 1) ;; Returns (ptMinus d None)
                else Returns defVal) ;;
      Returns (Pointset.mk (Pointset.points ps) (splice diffs (2 * i + 1) 0 [toAdd]))
    else if (i =? len - 1)%Z then
      toAdd <- (if (len >? 2)%Z then
                  d <- prop_of (at_ diffs (Z.of_nat (length diffs) - 2)) ;;
                  Returns (ptMinus d None)
                else Returns defVal) ;;
      Returns (Pointset.mk (Pointset.points ps) (splice diffs (2 * i - 2) 0 [toAdd]))
    else Returns (Pointset.mk (Pointset.points ps) diffs).

(** Returns the new point beside the pointset. *)
Definition addNewAtIndex (pointset : Pointset.t N) (coords : Pt) (i : Z)
  : outcome (Pt * Pointset.t N) :=
  let newPt := pt (x coords) (y coords) in
  let pointset :=
    Pointset.mk (splice (Pointset.points pointset) i 0 [newPt])
                (Pointset.controlPointDiffs pointset) in
  pointset <- addControlPointDiffsForPoint pointset i None None ;;
  Returns (newPt, pointset).

Definition deleteAtIndex (pointset : Pointset.t N) (i : Z) : Pointset.t N :=
  let points := splice (Pointset.points pointset) i 1 [] in
  let diffs := Pointset.controlPointDiffs pointset in
  let diffs :=
    if (i <? Z.of_nat (length points) - 1)%Z then splice diffs (2 * i) 1 [] else diffs in
  let diffs := if (i >? 0)%Z then splice diffs (2 * i - 1) 1 [] else diffs in
  Pointset.mk points diffs.

Definition deleteAtIndices (pointset : Pointset.t N) (indices : list Z) : Pointset.t N :=
  let sortedIndices := sortZ (fun i1 i2 => (i2 - i1)%Z) indices in
  fold_left deleteAtIndex sortedIndices pointset.

(* ------------------------------------------------------------------ *)
(** ** Bounds and the persisted form *)

(** [Infinity], which the interface has as the quotient [1 / 0]. *)
Definition infinity : N := #1 / #0.

(** [Math.min(...xs)] and [Math.max(...xs)]: [Infinity] and [-Infinity] for
    no argument, NaN if an argument is NaN. *)
Definition minOf (xs : list N) : N := fold_left (nmin ops) xs infinity.

Definition maxOf (xs : list N) : N := fold_left (nmax ops) xs (- infinity).

Definition getBounds (pts : list Pt) : Rectangle.t N :=
  let min_x := minOf (map (@x N) pts) in
  let max_x := maxOf (map (@x N) pts) in
  let min_y := minOf (map (@y N) pts) in
  let max_y := maxOf (map (@y N) pts) in
  Rectangle.mk min_x min_y
               (if negb (max_x =? min_x) then max_x - min_x else #1)
               (if negb (max_y =? min_y) then max_y - min_y else #1).

Definition getNormalizedPoints (points : list Pt) (bounds : Rectangle.t N) : list Pt :=
  map (fun p => mkPoint ((x p - Rectangle.x bounds) / Rectangle.width bounds)
                        ((y p - Rectangle.y bounds) / Rectangle.height bounds))
      points.

(** [allPoints(ptsets)], with the argument given. *)
Definition allPoints (ptsets : list (Pointset.t N)) : list Pt :=
  flat_map (@Pointset.points N) ptsets.

Definition ptAsArray (p : Pt) : list N := [x p; y p].

Definition pointsetToSerializedForm (pointset : Pointset.t N) (range : Rectangle.t N)
  : outcome (PointsetSerialized.t N) :=
  let pts := Pointset.points pointset in
  if Nat.ltb 1 (length pts) then
    cps <- getEffectiveControlPoints pointset ;;
    Returns (PointsetSerialized.mk
               (Some (map ptAsArray (getNormalizedPoints pts range)))
               (Some (map ptAsArray (getNormalizedPoints cps range))))
  else Returns (PointsetSerialized.mk None None).

Definition convertToPersistedRepresentation (pointsets : list (Pointset.t N))
  : outcome (Persisted.t N) :=
  let range := getBounds (allPoints pointsets) in
  let nonEmpty := fun ps : Pointset.t N => Nat.ltb 0 (length (Pointset.points ps)) in
  sets <- mapM (fun ps _ => pointsetToSerializedForm ps range) (filter nonEmpty pointsets) ;;
  Returns (Persisted.mk sets (Rectangle.width range) (Rectangle.height range)).

(** [([l, t]) => ({x: l, y: t})]: a missing element is [undefined], which the
    arithmetic of [scaleFn] treats as NaN. *)
Definition toPt (a : list N) : Pt := mkPoint (aget ops a 0) (aget ops a 1).

(** [scaleFn], with the [bounds] it closes over. *)
Definition scaleFn (bounds : Rectangle.t N) (p : Pt) : Pt :=
  mkPoint (x p * Rectangle.width bounds + Rectangle.x bounds)
          (y p * Rectangle.height bounds + Rectangle.y bounds).

(** The callback of [data.pointsets.map]. *)
Definition loadPointset (bounds : Rectangle.t N) (ps : PointsetSerialized.t N)
  : outcome (Pointset.t N) :=
  spoints <- prop_of (PointsetSerialized.points ps) ;;
  let points := map (fun p => scaleFn bounds (toPt p)) spoints in
  tangents <- monotoneTangents ops points ;;
  cps <- getControlPointsFromTangents ops points tangents ;;
  scps <- prop_of (PointsetSerialized.controlPoints ps) ;;
  diffs <- mapM (fun q i =>
                   c <- prop_of (nth_error cps i) ;;
                   Returns (mkPoint (x q - x c) (y q - y c)))
                (map (fun p => scaleFn bounds (toPt p)) scps) ;;
  Returns (Pointset.mk points diffs).

Definition convertPersistedRepresentation (data : Persisted.t N)
  : outcome (list (Pointset.t N)) :=
  let bounds := Rectangle.mk #50 #100 (Persisted.width data) (Persisted.height data) in
  mapM (fun ps _ => loadPointset bounds ps) (Persisted.pointsets data).

(* ------------------------------------------------------------------ *)
(** ** The left margin

    [shiftPoints] assigns to the fields of the points it is given, and the
    same points are in the pointsets: the point objects are in a heap, from
    addresses to values, and an array of points is a list of addresses. *)






(* ------------------------------------------------------------------ *)
(** ** Self intersections *)

(** The pairs that the generator [pairs] yields, in its order. *)
Fixpoint pairs {A : Type} (items : list A) : list (A * A) :=
  match items with
  | [] => []
  | a :: rest => map (pair a) rest ++ pairs rest
  end.

Definition hasSelfIntersectingParts (pts : list Pt) : bool :=
  existsb (fun '(s1, s2) => validIntersection ops (intersectSegments ops s1 s2))
          (pairs (segments pts)).

End Editor.

(* ================================================================== *)
(** * Definitions for the statements on the editor *)

(* ================================================================== *)
(** * The union of all polygons and its stepwise expansion

    [getUnioned] and [expandStepwise] of [repaint], on the store of the
    arrays of points: they hand the arrays that [polyUnion] and [expand]
    return to the next call. *)

Section Pipeline.

Context {N : Type} (ops : NumOps N).

Variable atan2 : N -> N -> N.

Local Notation "x <~ c ;; k" := (bindS c (fun x => k))
  (at level 61, c at next level, right associativity).

(** [arr.map(f)] with a callback on the store. *)
Fixpoint mapS {A B : Type} (f : A -> @St N B) (arr : list A) : @St N (list B) :=
  match arr with
  | [] => retS []
  | a :: rest =>
      b <~ f a ;;
      bs <~ mapS f rest ;;
      retS (b :: bs)
  end.

(** The loop of the callback of [getUnioned], from the element [acc[i]] on.
    [polyUnion] returns one array or two, so [u[0]] is an array. *)
Fixpoint unionLoop (acc : list nat) (currUnion : nat) (res : list nat)
  : @St N (list nat) :=
  match acc with
  | [] => retS res
  | el :: rest =>
      u <~ polyUnionS ops atan2 el currUnion ;;
      st <~ (if Nat.eqb (length u) 2 then retS (res ++ [el], currUnion)
             else
               first <~ liftS (prop_of (nth_error u 0)) ;;
               retS (res, first)) ;;
      let '(res, currUnion) := st in
      match rest with
      | [] => retS (res ++ [currUnion])
      | _ :: _ => unionLoop rest currUnion res
      end
  end.

Definition getUnioned (allPolys : list nat) : @St N (list nat) :=
  fold_left
    (fun acc curr =>
       acc <~ acc ;;
       if Nat.eqb (length acc) 0 then retS [curr] else unionLoop acc curr [])
    allPolys (retS []).

(** The loop [for (j = step; j <= totalToExpand; j += step)]; [fuel] bounds
    its turns. *)
Fixpoint expandSteps (fuel : nat) (j totalToExpand step : N) (united : list nat)
  : @St N (list nat) :=
  if leb ops j totalToExpand then
    match fuel with
    | O => liftS OutOfFuel
    | S fuel' =>
        expanded <~ mapS (fun p => expandS ops p step) united ;;
        united <~ getUnioned expanded ;;
        expandSteps fuel' (add ops j step) totalToExpand step united
    end
  else retS united.

Definition expandStepwise (fuel : nat) (union : list nat) (totalToExpand step : N)
  : @St N (list nat) :=
  if ltb ops (lit ops 0) step then expandSteps fuel step totalToExpand step union
  else retS union.

End Pipeline.

(** The elements of [l] whose index, counted from [k], is not in [indices]. *)
Fixpoint withoutFrom {A : Type} (k : nat) (l : list A) (indices : list Z) : list A :=
  match l with
  | [] => []
  | a :: rest =>
      if existsb (Z.eqb (Z.of_nat k)) indices then withoutFrom (S k) rest indices
      else a :: withoutFrom (S k) rest indices
  end.

Definition withoutIndices {A : Type} (l : list A) (indices : list Z) : list A :=
  withoutFrom 0 l indices.

(** A list of integers in strictly descending order. *)
Fixpoint descending (l : list Z) : Prop :=
  match l with
  | [] => True
  | a :: rest => (forall b, In b rest -> (b < a)%Z) /\ descending rest
  end.

Section EditorStatements.

Context {N : Type} (ops : NumOps N).

(** The two control points of the segment from point [i] to point [i + 1]:
    the first point plus its tangent, the second point minus its tangent. *)
Definition handlesAt (points tangents : list (Point N)) (i : nat) : list (Point N) :=
  match nth_error points i, nth_error points (i + 1),
        nth_error tangents i, nth_error tangents (i + 1) with
  | Some p1, Some p2, Some t1, Some t2 =>
      [mkPoint (add ops (x p1) (x t1)) (add ops (y p1) (y t1));
       mkPoint (sub ops (x p2) (x t2)) (sub ops (y p2) (y t2))]
  | _, _, _, _ => []
  end.

(** What [pointsetToSerializedForm] makes of a pointset of two points or
    more: the normalized points, and an array of 2*(n-1) control points. *)
Definition savedAs (range : Rectangle.t N) (ps : Pointset.t N)
           (s : PointsetSerialized.t N) : Prop :=
  PointsetSerialized.points s
  = Some (map (@ptAsArray N) (getNormalizedPoints ops (Pointset.points ps) range))
  /\ (2 <= length (Pointset.points ps))%nat
  /\ exists c, PointsetSerialized.controlPoints s = Some c
               /\ length c = (2 * (length (Pointset.points ps) - 1))%nat.

(** The pointsets that [convertToPersistedRepresentation] keeps. *)
Definition nonEmpty (ps : Pointset.t N) : bool :=
  Nat.ltb 0 (length (Pointset.points ps)).

End EditorStatements.
(** ** Inputs of the examples on the editor *)

Module ExEditor.

Definition zero : Point float := Ex.fpt 0 0.

(** Three points, with a zero diff for each of their four base control
    points. *)
Definition curve3 : Pointset.t float :=
  Pointset.mk Ex.threePoints [zero; zero; zero; zero].

(** A pointset of one point, and what is saved for it: the object [{}], in
    bounds of width and height 1. *)
Definition single : Pointset.t float := Pointset.mk [Ex.fpt 1 1] [].

Definition savedSingle : Persisted.t float :=
  Persisted.mk [PointsetSerialized.mk None None] (lit F64 1) (lit F64 1).



End ExEditor.


(* ================================================================== *)
(** * Loops *)

Unset Implicit Arguments.

Section Loops.

Context {S : Type}.

Lemma forM_stuck (idx : list nat) (body : nat -> S -> outcome S) (o : outcome S) :
  (forall s, o <> Returns s) ->
  fold_left (fun acc i => bind acc (fun s' => body i s')) idx o = o.
Proof.
  intros Ho. induction idx as [|i idx IH]; simpl; [reflexivity|].
  destruct o as [s| |]; simpl; auto. now elim (Ho s).
Qed.

Lemma forM_cons (i : nat) (idx : list nat) (body : nat -> S -> outcome S) (s : S) :
  forM (i :: idx) body s = bind (body i s) (forM idx body).
Proof.
  unfold forM. simpl. destruct (body i s) as [s'| |]; simpl; [reflexivity| |];
    apply forM_stuck; discriminate.
Qed.

(** A loop whose every turn returns and keeps an invariant indexed by the
    number of turns made. *)
Lemma forM_invariant (I : nat -> S -> Prop) (idx : list nat)
      (body : nat -> S -> outcome S) (s : S) (k : nat) :
  I k s ->
  (forall j i s0, nth_error idx j = Some i -> I (k + j)%nat s0 ->
                  exists s1, body i s0 = Returns s1 /\ I (k + Datatypes.S j)%nat s1) ->
  exists s', forM idx body s = Returns s' /\ I (k + length idx)%nat s'.
Proof.
  revert s k. induction idx as [|i idx IH]; intros s k H0 Hstep.
  - exists s. rewrite Nat.add_0_r. auto.
  - destruct (Hstep 0%nat i s eq_refl) as [s1 [E1 I1]]; [now rewrite Nat.add_0_r|].
    destruct (IH s1 (Datatypes.S k)) as [s' [E' I']].
    + now rewrite Nat.add_1_r in I1.
    + intros j i' s0 Hj Hs0. destruct (Hstep (Datatypes.S j) i' s0 Hj) as [s2 [E2 I2]].
      * now rewrite Nat.add_succ_r.
      * exists s2. split; [exact E2|]. now rewrite Nat.add_succ_r in I2.
    + exists s'. rewrite forM_cons, E1. simpl. split; [exact E'|].
      now rewrite Nat.add_succ_r.
Qed.

End Loops.

(** A loop that appends what each turn makes. *)
Lemma forM_collect {A : Type} (idx : list nat) (f : nat -> outcome (list A))
      (g : nat -> list A) (acc : list A) :
  (forall i, In i idx -> f i = Returns (g i)) ->
  forM idx (fun i result => bind (f i) (fun new => Returns (result ++ new))) acc
  = Returns (acc ++ flat_map g idx).
Proof.
  revert acc. induction idx as [|i idx IH]; intros acc H.
  - simpl. now rewrite app_nil_r.
  - unfold forM in *. simpl fold_left. rewrite (H i) by now left. cbn [bind].
    rewrite IH by (intros; apply H; now right). simpl. now rewrite app_assoc.
Qed.

Lemma prop_of_nth {A : Type} (l : list A) (i : nat) :
  (i < length l)%nat -> exists a, prop_of (nth_error l i) = Returns a.
Proof.
  intros H. destruct (nth_error l i) as [a|] eqn:E.
  - now exists a.
  - apply nth_error_None in E. lia.
Qed.

Lemma seq_nth_error (a n j i : nat) : nth_error (seq a n) j = Some i -> (i = a + j /\ j < n)%nat.
Proof.
  intros H. assert (Hj : (j < n)%nat).
  { rewrite <- (length_seq n a). apply nth_error_Some. congruence. }
  split; [|exact Hj].
  rewrite (nth_error_nth' _ 0%nat) in H by now rewrite length_seq.
  rewrite seq_nth in H by exact Hj. congruence.
Qed.

Ltac read_in_range :=
  match goal with
  | |- context [prop_of (nth_error ?l ?i)] =>
      let a := fresh "a" in let E := fresh "E" in
      destruct (@prop_of_nth _ l i) as [a E]; [simpl; lia|rewrite E; cbn [bind]]
  end.


(* ================================================================== *)
(** * Curve fitting: the number of control points *)

Section Curves.

Context {N : Type} (ops : NumOps N).

Lemma monotoneTangents_returns (points : list (Point N)) :
  (2 <= length points)%nat ->
  exists tangents,
    monotoneTangents ops points = Returns tangents /\ length tangents = length points.
Proof.
  intros Hn. unfold monotoneTangents.
  match goal with
  | |- context [forM ?idx ?body ?s0] =>
      destruct (forM_invariant (fun _ _ => True) idx body s0 0 I) as [d [Ed _]]
  end.
  { intros j i s0 Hj _. apply seq_nth_error in Hj. destruct Hj as [-> Hj].
    repeat read_in_range. eauto. }
  rewrite Ed. cbn [bind].
  repeat read_in_range.
  match goal with
  | |- context [forM ?idx ?body ?s0] =>
      destruct (forM_invariant (fun _ _ => True) idx body s0 0 I) as [[m dx] [Em _]]
  end.
  { intros j i [m0 dx0] Hj _. apply seq_nth_error in Hj. destruct Hj as [-> Hj].
    repeat read_in_range. eauto. }
  rewrite Em. cbn [bind]. cbv zeta.
  assert (Hk : Nat.max 1 (length points - 1) = (length points - 1)%nat) by lia.
  rewrite Hk.
  repeat read_in_range.
  eexists. split; [reflexivity|]. now rewrite length_map, length_seq.
Qed.

Lemma getControlPointsFromTangents_length (points tangents : list (Point N)) :
  length tangents = length points ->
  exists cps,
    getControlPointsFromTangents ops points tangents = Returns cps
    /\ length cps = (2 * (length points - 1))%nat.
Proof.
  intros Hl. unfold getControlPointsFromTangents.
  match goal with
  | |- context [forM ?idx ?body ?s0] =>
      destruct (forM_invariant (fun j res => length res = (2 * j)%nat) idx body s0 0 eq_refl)
        as [cps [E L]]
  end.
  - intros j i res Hj Hres. apply seq_nth_error in Hj. destruct Hj as [-> Hj].
    repeat read_in_range. eexists. split; [reflexivity|].
    rewrite length_app. simpl in *. lia.
  - exists cps. split; [exact E|]. rewrite length_seq in L. simpl in L. lia.
Qed.

(** C7 (amended): for every list of n >= 2 points,
    [getControlPointsFromTangents(points, monotoneTangents(points))] returns,
    and returns exactly 2*(n-1) control points. *)
Theorem baseControlPoints_count (points : list (Point N)) :
  (2 <= length points)%nat ->
  exists cps,
    baseControlPoints ops points = Returns cps
    /\ length cps = (2 * (length points - 1))%nat.
Proof.
  intros Hn. unfold baseControlPoints.
  destruct (monotoneTangents_returns points Hn) as [tangents [E L]].
  rewrite E. simpl. now apply getControlPointsFromTangents_length.
Qed.

Lemma addPoint_lengths (st : Point N * Point N * list (Point N) * list (Point N))
      (q : Point N) :
  length (snd (fst (addPoint ops st q))) = Datatypes.S (length (snd (fst st)))
  /\ length (snd (addPoint ops st q)) = Datatypes.S (Datatypes.S (length (snd st))).
Proof.
  destruct st as [[[p0 p1] pts] cps]. simpl. rewrite !length_app. simpl. lia.
Qed.

Lemma fold_addPoint_lengths (l : list (Point N))
      (st : Point N * Point N * list (Point N) * list (Point N)) :
  length (snd (fst (fold_left (addPoint ops) l st))) = (length l + length (snd (fst st)))%nat
  /\ length (snd (fold_left (addPoint ops) l st)) = (2 * length l + length (snd st))%nat.
Proof.
  revert st. induction l as [|q l IH]; intros st; simpl; [lia|].
  destruct (IH (addPoint ops st q)) as [H1 H2].
  destruct (addPoint_lengths st q) as [H3 H4]. lia.
Qed.

(** C10: [getClosedBasisCurvePoints] returns a pair of empty arrays when
    n <= 3, and n+1 curve points with 2*n control points when n >= 4; in
    both cases controlPoints.length = 2*(points.length - 1) for the points it
    returns. *)
Theorem getClosedBasisCurvePoints_lengths (points : list (Point N)) :
  let r := getClosedBasisCurvePoints ops points in
  (if Nat.leb (length points) 3 then r = ([], [])
   else length (fst r) = (length points + 1)%nat
        /\ length (snd r) = (2 * length points)%nat)
  /\ length (snd r) = (2 * (length (fst r) - 1))%nat.
Proof.
  unfold getClosedBasisCurvePoints.
  destruct (Nat.leb (length points) 3) eqn:E; [simpl; auto|].
  apply Nat.leb_gt in E.
  destruct points as [|f [|s [|t rest]]]; simpl in E; try lia.
  match goal with
  | |- context [fold_left (addPoint ops) rest ?st0] =>
      pose proof (fold_addPoint_lengths rest st0) as [H1 H2];
      set (st1 := fold_left (addPoint ops) rest st0) in *
  end.
  pose proof (addPoint_lengths st1 f) as [F1 F2].
  set (st2 := addPoint ops st1 f) in *.
  pose proof (addPoint_lengths st2 s) as [G1 G2].
  set (st3 := addPoint ops st2 s) in *.
  pose proof (addPoint_lengths st3 t) as [K1 K2].
  destruct (addPoint ops st3 t) as [[[q0 q1] pts] cps].
  simpl in *. lia.
Qed.

End Curves.

(** The witness of C7: three points give four control points. *)
Lemma baseControlPoints_count_witness :
  (2 <= length Ex.threePoints)%nat
  /\ exists cps,
      baseControlPoints F64 Ex.threePoints = Returns cps
      /\ length cps = (2 * (length Ex.threePoints - 1))%nat.
Proof.
  split; [simpl; lia|].
  apply (baseControlPoints_count F64 Ex.threePoints). simpl; lia.
Defined.

(** C7 as stated fails for n = 1 and n = 0: [monotoneTangents] reads
    [points[1].x] and throws, so no control point is produced. *)
Lemma baseControlPoints_one_point_throws :
  baseControlPoints F64 [Ex.fpt 1 1] = Throws
  /\ baseControlPoints F64 [] = Throws
  /\ ~ exists cps,
        baseControlPoints F64 [Ex.fpt 1 1] = Returns cps
        /\ length cps = (2 * (1 - 1))%nat.
Proof.
  split; [reflexivity|]. split; [reflexivity|].
  intros [cps [H _]]. discriminate H.
Qed.

(* ================================================================== *)
(** * Segment intersection *)

Section Intersection.

Context {N : Type} (ops : NumOps N).

(** For non-parallel segments, in every instance: [null] when the start of
    the second segment is within 1e-9 of the line of the first (by the
    cross product), and the two quotients otherwise. *)
Lemma intersectSegments_nonparallel (s1 s2 : Segment (Point N)) :
  let r := vec ops (start s1) (end_ s1) in
  let s := vec ops (start s2) (end_ s2) in
  let numerator1 := cross ops (vec ops (start s1) (start s2)) r in
  let denom := cross ops r s in
  closeTo ops denom (lit ops 0) = false ->
  intersectSegments ops s1 s2
  = if closeTo ops numerator1 (lit ops 0) then None
    else Some (mkIntersection
                 (div ops (cross ops (vec ops (start s1) (start s2)) s) denom)
                 (div ops numerator1 denom)).
Proof.
  intros r s numerator1 denom Hd. unfold intersectSegments.
  fold r. fold s. fold numerator1. fold denom. rewrite Hd.
  destruct (closeTo ops numerator1 (lit ops 0)); reflexivity.
Qed.

End Intersection.

(* ================================================================== *)
(* ================================================================== *)
(** * Binary64 is exact on integers below 2^53 *)

Section Binary64Integers.

Open Scope Z_scope.

Lemma digits_pos (p : positive) : 0 < digits p.
Proof. unfold digits. lia. Qed.

Lemma digits_bounds (p : positive) : 2 ^ (digits p - 1) <= Zpos p < 2 ^ digits p.
Proof.
  unfold digits. induction p as [p IH|p IH|]; cbn [digits2_pos].
  - rewrite Pos2Z.inj_succ. replace (Z.succ (Zpos (digits2_pos p)) - 1)
      with (Z.succ (Zpos (digits2_pos p) - 1)) by lia.
    rewrite !Z.pow_succ_r by lia. lia.
  - rewrite Pos2Z.inj_succ. replace (Z.succ (Zpos (digits2_pos p)) - 1)
      with (Z.succ (Zpos (digits2_pos p) - 1)) by lia.
    rewrite !Z.pow_succ_r by lia. lia.
  - simpl. lia.
Qed.

Lemma digits_unique (p : positive) (d : Z) :
  2 ^ (d - 1) <= Zpos p < 2 ^ d -> digits p = d.
Proof.
  intros [Hl Hu]. pose proof (digits_bounds p) as [Bl Bu]. pose proof (digits_pos p).
  assert (0 < d).
  { destruct (Z_lt_le_dec 0 d); [assumption|].
    assert (2 ^ d <= 2 ^ 0) by (apply Z.pow_le_mono_r; lia). simpl in *. lia. }
  destruct (Z.lt_trichotomy (digits p) d) as [L|[E|G]]; [|assumption|].
  - assert (2 ^ digits p <= 2 ^ (d - 1)) by (apply Z.pow_le_mono_r; lia). lia.
  - assert (2 ^ d <= 2 ^ (digits p - 1)) by (apply Z.pow_le_mono_r; lia). lia.
Qed.

Lemma digits_le (p : positive) (d : Z) : 0 <= d -> Zpos p < 2 ^ d -> digits p <= d.
Proof.
  intros Hd H. pose proof (digits_bounds p) as [Bl _].
  destruct (Z_le_gt_dec (digits p) d); [assumption|].
  assert (2 ^ d <= 2 ^ (digits p - 1)) by (apply Z.pow_le_mono_r; lia). lia.
Qed.

Lemma mul_pow2_pos (p : positive) (k : Z) : 0 <= k -> 0 < Zpos p * 2 ^ k.
Proof. intros Hk. apply Z.mul_pos_pos; [lia|]. apply Z.pow_pos_nonneg; lia. Qed.

Lemma digits_shift (p : positive) (k : Z) :
  0 <= k -> digits (Z.to_pos (Zpos p * 2 ^ k)) = digits p + k.
Proof.
  intros Hk. apply digits_unique. pose proof (digits_bounds p) as [Bl Bu].
  pose proof (digits_pos p).
  assert (0 < 2 ^ k) by (apply Z.pow_pos_nonneg; lia).
  rewrite Z2Pos.id by nia.
  replace (digits p + k - 1) with ((digits p - 1) + k) by lia.
  rewrite !Z.pow_add_r by lia. nia.
Qed.

Lemma digits_mul (p q : positive) : digits p + digits q - 1 <= digits (p * q).
Proof.
  pose proof (digits_bounds p) as [Pl Pu]. pose proof (digits_bounds q) as [Ql Qu].
  pose proof (digits_bounds (p * q)) as [_ Mu].
  pose proof (digits_pos p). pose proof (digits_pos q). pose proof (digits_pos (p * q)).
  destruct (Z_le_gt_dec (digits p + digits q - 1) (digits (p * q))); [assumption|].
  assert (2 ^ digits (p * q) <= 2 ^ (digits p - 1 + (digits q - 1)))
    by (apply Z.pow_le_mono_r; lia).
  rewrite Z.pow_add_r in * by lia. rewrite Pos2Z.inj_mul in Mu.
  assert (0 < 2 ^ (digits p - 1)) by (apply Z.pow_pos_nonneg; lia).
  assert (0 < 2 ^ (digits q - 1)) by (apply Z.pow_pos_nonneg; lia).
  nia.
Qed.

(** ** Shifting a mantissa *)

Lemma iter_pos_nat {A : Type} (f : A -> A) (n : positive) (a : A) :
  iter_pos f n a = Nat.iter (Pos.to_nat n) f a.
Proof.
  revert a. induction n as [n IH|n IH|]; intros a; cbn [iter_pos].
  - rewrite !IH. rewrite Pos2Nat.inj_xI.
    replace (S (2 * Pos.to_nat n)) with (Pos.to_nat n + (Pos.to_nat n + 1))%nat by lia.
    rewrite !Nat.iter_add. simpl. reflexivity.
  - rewrite !IH. rewrite Pos2Nat.inj_xO.
    replace (2 * Pos.to_nat n)%nat with (Pos.to_nat n + Pos.to_nat n)%nat by lia.
    rewrite Nat.iter_add. reflexivity.
  - reflexivity.
Qed.

Lemma shr_1_even (m : Z) :
  0 <= m -> shr_1 (Build_shr_record (2 * m) false false) = Build_shr_record m false false.
Proof. intros H. destruct m as [|q|q]; [reflexivity|reflexivity|lia]. Qed.

Lemma shr_iter_exact (n : nat) (m : Z) :
  0 <= m ->
  Nat.iter n shr_1 (Build_shr_record (m * 2 ^ Z.of_nat n) false false)
  = Build_shr_record m false false.
Proof.
  revert m. induction n as [|n IH]; intros m Hm.
  - simpl. now rewrite Z.mul_1_r.
  - rewrite Nat.iter_succ_r. rewrite Nat2Z.inj_succ, Z.pow_succ_r by lia.
    replace (m * (2 * 2 ^ Z.of_nat n)) with (2 * (m * 2 ^ Z.of_nat n)) by ring.
    rewrite shr_1_even; [now apply IH|].
    assert (0 <= 2 ^ Z.of_nat n) by (apply Z.pow_nonneg; lia). nia.
Qed.

Lemma shr_exact (m e n : Z) :
  0 <= m -> 0 <= n ->
  shr (Build_shr_record (m * 2 ^ n) false false) e n
  = (Build_shr_record m false false, e + n).
Proof.
  intros Hm Hn. unfold shr. destruct n as [|q|q]; [| |lia].
  - now rewrite Z.mul_1_r, Z.add_0_r.
  - rewrite iter_pos_nat. f_equal.
    rewrite <- (positive_nat_Z q) at 1. now apply shr_iter_exact.
Qed.

Lemma iter_xO (p : positive) (d : positive) :
  Zpos (Pos.iter xO p d) = Zpos p * 2 ^ Zpos d.
Proof.
  revert p. induction d as [|d IH] using Pos.peano_ind; intros p.
  - simpl. lia.
  - rewrite Pos.iter_succ, Pos2Z.inj_succ, Z.pow_succ_r by lia.
    rewrite Pos2Z.inj_xO, IH. ring.
Qed.

Lemma shl_align_value (m : positive) (e e' : Z) :
  e' <= e -> Zpos (fst (shl_align m e e')) = Zpos m * 2 ^ (e - e')
             /\ snd (shl_align m e e') = e'.
Proof.
  intros H. unfold shl_align. destruct (e' - e) as [|q|q] eqn:D; cbn [fst snd].
  - replace (e - e') with 0 by lia. split; lia.
  - lia.
  - rewrite iter_xO. replace (e - e') with (Zpos q) by lia. split; lia.
Qed.

(** ** Rounding a number that needs no rounding *)

Lemma fexp_small (d : Z) : 0 < d -> fexp prec emax d = d - 53.
Proof. intros H. unfold fexp, SpecFloat.emin, prec, emax. lia. Qed.

Lemma Zdigits2_shift (z : positive) (k : Z) :
  0 <= k -> Zdigits2 (Zpos z * 2 ^ k) = digits z + k.
Proof.
  intros Hk. assert (P2k : 0 < 2 ^ k) by (apply Z.pow_pos_nonneg; lia).
  rewrite <- (digits_shift z k Hk).
  destruct (Zpos z * 2 ^ k) as [|q|q] eqn:E; [nia| |nia]. reflexivity.
Qed.

Lemma round_aux_exact (s : bool) (z : positive) (k : Z) :
  0 <= k -> digits z <= 53 -> 53 <= digits z + k ->
  binary_round_aux prec emax s (Zpos z * 2 ^ k) (- k) loc_Exact = encP s z.
Proof.
  intros Hk Hd Hdk. pose proof (digits_pos z) as Hz.
  assert (P2k : 0 < 2 ^ k) by (apply Z.pow_pos_nonneg; lia).
  assert (P2 : 0 < 2 ^ (53 - digits z)) by (apply Z.pow_pos_nonneg; lia).
  unfold binary_round_aux, shr_fexp.
  rewrite Zdigits2_shift by lia.
  replace (digits z + k + - k) with (digits z) by lia.
  rewrite fexp_small by lia. cbn [shr_record_of_loc].
  set (n := digits z - 53 - - k).
  replace (Zpos z * 2 ^ k) with ((Zpos z * 2 ^ (53 - digits z)) * 2 ^ n).
  2:{ rewrite <- Z.mul_assoc, <- Z.pow_add_r by (unfold n; lia).
      f_equal. f_equal. unfold n. lia. }
  rewrite shr_exact by (unfold n; nia).
  cbn [shr_m loc_of_shr_record round_nearest_even].
  rewrite Zdigits2_shift by lia.
  replace (digits z + (53 - digits z) + (- k + n)) with (digits z) by (unfold n; lia).
  rewrite fexp_small by lia.
  replace (digits z - 53 - (- k + n)) with 0 by (unfold n; lia).
  cbn [shr shr_m].
  replace (- k + n) with (digits z - 53) by (unfold n; lia).
  unfold encP.
  destruct (Zpos z * 2 ^ (53 - digits z)) as [|q|q] eqn:E; [nia| |nia].
  destruct (Z.leb_spec (digits z - 53) (emax - prec)) as [_|C];
    [reflexivity | unfold emax, prec in C; lia].
Qed.

Lemma shl_align_none (m : positive) (e e' : Z) : e <= e' -> shl_align m e e' = (m, e).
Proof. intros H. unfold shl_align. destruct (e' - e) eqn:D; try reflexivity. lia. Qed.

Lemma round_exact (s : bool) (z : positive) (k : Z) :
  0 <= k -> digits z <= 53 ->
  binary_round prec emax s (Z.to_pos (Zpos z * 2 ^ k)) (- k) = encP s z.
Proof.
  intros Hk Hd. pose proof (digits_pos z) as Hz.
  assert (P2k : 0 < 2 ^ k) by (apply Z.pow_pos_nonneg; lia).
  unfold binary_round. fold (digits (Z.to_pos (Zpos z * 2 ^ k))).
  rewrite digits_shift by lia.
  replace (digits z + k + - k) with (digits z) by lia.
  rewrite fexp_small by lia.
  destruct (Z_le_gt_dec 53 (digits z + k)) as [L|G].
  - rewrite shl_align_none by lia. cbv beta iota.
    rewrite Z2Pos.id by (apply mul_pow2_pos; lia). now apply round_aux_exact.
  - pose proof (shl_align_value (Z.to_pos (Zpos z * 2 ^ k)) (- k) (digits z - 53)) as A.
    destruct (shl_align _ _ _) as [mz ez]. cbn [fst snd] in A.
    destruct A as [A1 A2]; [lia|]. subst ez. cbv beta iota. rewrite A1.
    rewrite Z2Pos.id by (apply mul_pow2_pos; lia).
    rewrite <- Z.mul_assoc, <- Z.pow_add_r by lia.
    replace (k + (- k - (digits z - 53))) with (53 - digits z) by lia.
    replace (digits z - 53) with (- (53 - digits z)) at 1 by lia.
    apply round_aux_exact; lia.
Qed.

Lemma normalize_exact (c k : Z) :
  0 <= k -> Z.abs c < 2 ^ 53 ->
  binary_normalize prec emax (c * 2 ^ k) (- k) false = encZ c.
Proof.
  intros Hk Hc.
  assert (P2k : 0 < 2 ^ k) by (apply Z.pow_pos_nonneg; lia).
  destruct c as [|p|p]; [reflexivity| |].
  - assert (E : Zpos p * 2 ^ k = Zpos (Z.to_pos (Zpos p * 2 ^ k)))
      by (rewrite Z2Pos.id; [reflexivity|apply mul_pow2_pos; lia]).
    rewrite E. cbn [binary_normalize encZ].
    apply round_exact; [lia|]. apply digits_le; [lia|]. simpl in Hc. lia.
  - assert (E : Zneg p * 2 ^ k = Zneg (Z.to_pos (Zpos p * 2 ^ k))).
    { rewrite <- !Pos2Z.opp_pos. rewrite Z2Pos.id by (apply mul_pow2_pos; lia). ring. }
    rewrite E. cbn [binary_normalize encZ].
    apply round_exact; [lia|]. apply digits_le; [lia|]. simpl in Hc. lia.
Qed.

(** ** The operations on doubles that hold integers *)

Lemma encZ_cond (s : bool) (p : positive) : encZ (cond_Zopp s (Zpos p)) = encP s p.
Proof. destruct s; reflexivity. Qed.

Lemma encP_mantissa (p : positive) :
  digits p <= 53 ->
  Zpos (Z.to_pos (Zpos p * 2 ^ (53 - digits p))) = Zpos p * 2 ^ (53 - digits p).
Proof. intros H. apply Z2Pos.id. apply mul_pow2_pos. lia. Qed.

Lemma digits_53 (p : positive) : Zpos p < 2 ^ 53 -> digits p <= 53.
Proof. intros H. apply digits_le; [lia|assumption]. Qed.

(** What a double that holds an integer looks like. *)
Lemma holds_inv (f : float) (z : Z) :
  holds f z ->
  (z = 0 /\ exists s, Prim2SF f = S754_zero s)
  \/ (exists s p, z = cond_Zopp s (Zpos p) /\ digits p <= 53 /\ Prim2SF f = encP s p).
Proof.
  intros [Hb [H|[Hz H]]].
  - destruct z as [|p|p]; simpl in *.
    + left. eauto.
    + right. exists false, p. repeat split; auto. apply digits_53. lia.
    + right. exists true, p. repeat split; auto. apply digits_53. lia.
  - left. eauto.
Qed.

Lemma holds_zero (f : float) (s : bool) : Prim2SF f = S754_zero s -> holds f 0.
Proof.
  intros H. split; [simpl; lia|]. destruct s; [right|left]; auto.
Qed.

Lemma holds_enc (f : float) (z : Z) : Z.abs z < 2 ^ 53 -> Prim2SF f = encZ z -> holds f z.
Proof. intros Hb H. split; auto. Qed.

Lemma aligned (p : positive) (ez : Z) :
  digits p <= 53 -> ez <= digits p - 53 ->
  Zpos (fst (shl_align (Z.to_pos (Zpos p * 2 ^ (53 - digits p))) (digits p - 53) ez))
  = Zpos p * 2 ^ (- ez).
Proof.
  intros Hd He. destruct (shl_align_value (Z.to_pos (Zpos p * 2 ^ (53 - digits p)))
                            (digits p - 53) ez He) as [A _].
  rewrite A, encP_mantissa by assumption.
  rewrite <- Z.mul_assoc, <- Z.pow_add_r by lia. f_equal. f_equal. lia.
Qed.

Lemma cond_Zopp_mul (s : bool) (a c : Z) : cond_Zopp s (a * c) = cond_Zopp s a * c.
Proof. destruct s; simpl; ring. Qed.

Lemma SFadd_encP (sa sb : bool) (pa pb : positive) :
  digits pa <= 53 -> digits pb <= 53 ->
  Z.abs (cond_Zopp sa (Zpos pa) + cond_Zopp sb (Zpos pb)) < 2 ^ 53 ->
  SFadd prec emax (encP sa pa) (encP sb pb)
  = encZ (cond_Zopp sa (Zpos pa) + cond_Zopp sb (Zpos pb)).
Proof.
  intros Ha Hb Hs. pose proof (digits_pos pa). pose proof (digits_pos pb).
  unfold encP. cbn [SFadd].
  set (ez := Z.min (digits pa - 53) (digits pb - 53)).
  rewrite !aligned by (unfold ez; lia).
  rewrite !cond_Zopp_mul, <- Z.mul_add_distr_r.
  pose proof (normalize_exact (cond_Zopp sa (Zpos pa) + cond_Zopp sb (Zpos pb)) (- ez)) as N.
  rewrite Z.opp_involutive in N. apply N; [unfold ez; lia|assumption].
Qed.

Lemma SFsub_encP (sa sb : bool) (pa pb : positive) :
  digits pa <= 53 -> digits pb <= 53 ->
  Z.abs (cond_Zopp sa (Zpos pa) - cond_Zopp sb (Zpos pb)) < 2 ^ 53 ->
  SFsub prec emax (encP sa pa) (encP sb pb)
  = encZ (cond_Zopp sa (Zpos pa) - cond_Zopp sb (Zpos pb)).
Proof.
  intros Ha Hb Hs. pose proof (digits_pos pa). pose proof (digits_pos pb).
  unfold encP. cbn [SFsub].
  set (ez := Z.min (digits pa - 53) (digits pb - 53)).
  rewrite !aligned by (unfold ez; lia).
  rewrite !cond_Zopp_mul, <- Z.mul_sub_distr_r.
  pose proof (normalize_exact (cond_Zopp sa (Zpos pa) - cond_Zopp sb (Zpos pb)) (- ez)) as N.
  rewrite Z.opp_involutive in N. apply N; [unfold ez; lia|assumption].
Qed.

Lemma SFmul_encP (sa sb : bool) (pa pb : positive) :
  digits pa <= 53 -> digits pb <= 53 -> digits (pa * pb) <= 53 ->
  SFmul prec emax (encP sa pa) (encP sb pb) = encP (xorb sa sb) (pa * pb).
Proof.
  intros Ha Hb Hm. pose proof (digits_pos pa). pose proof (digits_pos pb).
  pose proof (digits_mul pa pb).
  unfold encP at 1 2. cbn [SFmul].
  rewrite Pos2Z.inj_mul, !encP_mantissa by assumption.
  replace (Zpos pa * 2 ^ (53 - digits pa) * (Zpos pb * 2 ^ (53 - digits pb)))
    with (Zpos (pa * pb) * 2 ^ (106 - digits pa - digits pb)).
  2:{ replace (106 - digits pa - digits pb)
        with ((53 - digits pa) + (53 - digits pb)) by lia.
      rewrite Z.pow_add_r by lia. rewrite Pos2Z.inj_mul. ring. }
  replace (digits pa - 53 + (digits pb - 53)) with (- (106 - digits pa - digits pb)) by lia.
  apply round_aux_exact; lia.
Qed.

Lemma cond_Zopp_abs (s : bool) (p : positive) : Z.abs (cond_Zopp s (Zpos p)) = Zpos p.
Proof. destruct s; reflexivity. Qed.

Theorem add_holds (x y : float) (a b : Z) :
  holds x a -> holds y b -> Z.abs (a + b) < 2 ^ 53 -> holds (x + y)%float (a + b).
Proof.
  intros Hx Hy Hs. split; [assumption|]. rewrite FloatAxioms.add_spec. unfold SF64add.
  destruct (holds_inv x a Hx) as [[-> [sx ->]]|[sx [px [-> [Dx ->]]]]];
    destruct (holds_inv y b Hy) as [[-> [sy ->]]|[sy [py [-> [Dy ->]]]]].
  - destruct sx, sy; simpl; auto.
  - left. rewrite Z.add_0_l, encZ_cond. reflexivity.
  - left. rewrite Z.add_0_r, encZ_cond. reflexivity.
  - left. now apply SFadd_encP.
Qed.

Theorem sub_holds (x y : float) (a b : Z) :
  holds x a -> holds y b -> Z.abs (a - b) < 2 ^ 53 -> holds (x - y)%float (a - b).
Proof.
  intros Hx Hy Hs. split; [assumption|]. rewrite FloatAxioms.sub_spec. unfold SF64sub.
  destruct (holds_inv x a Hx) as [[-> [sx ->]]|[sx [px [-> [Dx ->]]]]];
    destruct (holds_inv y b Hy) as [[-> [sy ->]]|[sy [py [-> [Dy ->]]]]].
  - destruct sx, sy; simpl; auto.
  - left. rewrite Z.sub_0_l. destruct sy; reflexivity.
  - left. rewrite Z.sub_0_r, encZ_cond. reflexivity.
  - left. now apply SFsub_encP.
Qed.

Theorem mul_holds (x y : float) (a b : Z) :
  holds x a -> holds y b -> Z.abs (a * b) < 2 ^ 53 -> holds (x * y)%float (a * b).
Proof.
  intros Hx Hy Hs. split; [assumption|]. rewrite FloatAxioms.mul_spec. unfold SF64mul.
  destruct (holds_inv x a Hx) as [[-> [sx ->]]|[sx [px [-> [Dx ->]]]]];
    destruct (holds_inv y b Hy) as [[-> [sy ->]]|[sy [py [-> [Dy ->]]]]].
  - destruct sx, sy; simpl; auto.
  - rewrite Z.mul_0_l. unfold encP. cbn [SFmul]. destruct (xorb sx sy); auto.
  - rewrite Z.mul_0_r. unfold encP. cbn [SFmul]. destruct (xorb sx sy); auto.
  - left. rewrite SFmul_encP; auto.
    + destruct sx, sy; reflexivity.
    + apply digits_53. rewrite Z.abs_mul, !cond_Zopp_abs in Hs. lia.
Qed.

Theorem opp_holds (x : float) (a : Z) : holds x a -> holds (- x)%float (- a).
Proof.
  intros Hx. split; [destruct Hx; lia|]. rewrite FloatAxioms.opp_spec.
  destruct (holds_inv x a Hx) as [[-> [sx ->]]|[sx [px [-> [Dx ->]]]]].
  - destruct sx; simpl; auto.
  - left. destruct sx; reflexivity.
Qed.

Theorem abs_holds (x : float) (a : Z) : holds x a -> holds (PrimFloat.abs x) (Z.abs a).
Proof.
  intros Hx. split; [destruct Hx; lia|]. rewrite FloatAxioms.abs_spec.
  destruct (holds_inv x a Hx) as [[-> [sx ->]]|[sx [px [-> [Dx ->]]]]].
  - left. reflexivity.
  - left. destruct sx; reflexivity.
Qed.

(** ** Comparing doubles that hold integers *)

Lemma compare_canonical (pa pb : positive) :
  digits pa <= 53 -> digits pb <= 53 ->
  match digits pa - 53 ?= digits pb - 53 with
  | Eq => Pos.compare_cont Eq (Z.to_pos (Zpos pa * 2 ^ (53 - digits pa)))
                              (Z.to_pos (Zpos pb * 2 ^ (53 - digits pb)))
  | Lt => Lt
  | Gt => Gt
  end = (Zpos pa ?= Zpos pb).
Proof.
  intros Ha Hb. pose proof (digits_bounds pa) as [La Ua].
  pose proof (digits_bounds pb) as [Lb Ub].
  destruct (Z.compare_spec (digits pa - 53) (digits pb - 53)) as [E|L|G].
  - change (Pos.compare_cont Eq ?m ?n) with (Pos.compare m n).
    rewrite (Pos2Z.inj_compare (Z.to_pos _) (Z.to_pos _)).
    rewrite !encP_mantissa by assumption.
    replace (digits pb) with (digits pa) by lia.
    assert (0 < 2 ^ (53 - digits pa)) by (apply Z.pow_pos_nonneg; lia).
    symmetry. apply Zmult_compare_compat_r. lia.
  - symmetry. apply Z.compare_lt_iff.
    assert (2 ^ digits pa <= 2 ^ (digits pb - 1)) by (apply Z.pow_le_mono_r; lia). lia.
  - symmetry. apply Z.compare_gt_iff.
    assert (2 ^ digits pb <= 2 ^ (digits pa - 1)) by (apply Z.pow_le_mono_r; lia). lia.
Qed.

Lemma compare_encP_pos (pa pb : positive) :
  digits pa <= 53 -> digits pb <= 53 ->
  SFcompare (encP false pa) (encP false pb) = Some (Zpos pa ?= Zpos pb).
Proof.
  intros Ha Hb. unfold encP. cbn [SFcompare]. f_equal. now apply compare_canonical.
Qed.

Lemma compare_encP_neg (pa pb : positive) :
  digits pa <= 53 -> digits pb <= 53 ->
  SFcompare (encP true pa) (encP true pb) = Some (Zneg pa ?= Zneg pb).
Proof.
  intros Ha Hb. unfold encP. cbn [SFcompare]. f_equal.
  change (Zneg pa ?= Zneg pb) with (CompOpp (Zpos pa ?= Zpos pb)).
  rewrite <- (compare_canonical pa pb Ha Hb).
  destruct (digits pa - 53 ?= digits pb - 53); reflexivity.
Qed.

Lemma compare_holds (x y : float) (a b : Z) :
  holds x a -> holds y b -> SFcompare (Prim2SF x) (Prim2SF y) = Some (a ?= b).
Proof.
  intros Hx Hy.
  destruct (holds_inv x a Hx) as [[-> [sx ->]]|[sx [px [-> [Dx ->]]]]];
    destruct (holds_inv y b Hy) as [[-> [sy ->]]|[sy [py [-> [Dy ->]]]]].
  - reflexivity.
  - destruct sy; reflexivity.
  - destruct sx; reflexivity.
  - destruct sx, sy; cbn [cond_Zopp].
    + now apply compare_encP_neg.
    + reflexivity.
    + reflexivity.
    + now apply compare_encP_pos.
Qed.

Theorem ltb_holds (x y : float) (a b : Z) :
  holds x a -> holds y b -> (x <? y)%float = (a <? b).
Proof.
  intros Hx Hy. rewrite FloatAxioms.ltb_spec. unfold SFltb. rewrite (compare_holds x y a b Hx Hy).
  unfold Z.ltb. destruct (a ?= b); reflexivity.
Qed.

Theorem leb_holds (x y : float) (a b : Z) :
  holds x a -> holds y b -> (x <=? y)%float = (a <=? b).
Proof.
  intros Hx Hy. rewrite FloatAxioms.leb_spec. unfold SFleb. rewrite (compare_holds x y a b Hx Hy).
  unfold Z.leb. destruct (a ?= b); reflexivity.
Qed.

Theorem eqb_holds (x y : float) (a b : Z) :
  holds x a -> holds y b -> (x =? y)%float = (a =? b).
Proof.
  intros Hx Hy. rewrite FloatAxioms.eqb_spec. unfold SFeqb. rewrite (compare_holds x y a b Hx Hy).
  unfold Z.eqb. destruct (a ?= b) eqn:C.
  - apply Z.compare_eq in C. subst. destruct b; try reflexivity; now rewrite Pos.eqb_refl.
  - destruct a, b; try reflexivity; try discriminate;
      symmetry; apply Pos.eqb_neq; intros ->; simpl in C;
      [rewrite Pos.compare_refl in C|rewrite Pos.compare_refl in C]; discriminate.
  - destruct a, b; try reflexivity; try discriminate;
      symmetry; apply Pos.eqb_neq; intros ->; simpl in C;
      [rewrite Pos.compare_refl in C|rewrite Pos.compare_refl in C]; discriminate.
Qed.

End Binary64Integers.

Section Binary64IntegerValues.

Open Scope Z_scope.

Lemma ofZ_enc (z : Z) : Z.abs z < 2 ^ 53 -> Prim2SF (B64.ofZ z) = encZ z.
Proof.
  intros Hb.
  assert (P : forall p, Zpos p < 2 ^ 53 ->
                        Prim2SF (of_uint63 (of_Z (Zpos p))) = encP false p).
  { intros p Hp. rewrite of_uint63_spec, of_Z_spec.
    rewrite Z.mod_small by (unfold wB; simpl; lia).
    cbn [binary_normalize].
    pose proof (round_exact false p 0) as R. rewrite Z.pow_0_r, Z.mul_1_r in R.
    rewrite Pos2Z.id in R. apply R; [lia|]. now apply digits_53. }
  destruct z as [|p|p]; cbn [B64.ofZ encZ].
  - reflexivity.
  - apply P. simpl in Hb. lia.
  - rewrite FloatAxioms.opp_spec, P by (simpl in Hb; lia). reflexivity.
Qed.

Lemma ofZ_holds (z : Z) : Z.abs z < 2 ^ 53 -> holds (B64.ofZ z) z.
Proof. intros Hb. split; [assumption|]. left. now apply ofZ_enc. Qed.

(** A double that is written as the integer [z] is the double [ofZ z]. *)
Lemma enc_ofZ (f : float) (z : Z) :
  Z.abs z < 2 ^ 53 -> Prim2SF f = encZ z -> f = B64.ofZ z.
Proof. intros Hb H. apply Prim2SF_inj. now rewrite ofZ_enc. Qed.

(** Adding to a double that is not the negative zero. *)
Lemma add_enc (f g : float) (a b : Z) :
  Z.abs a < 2 ^ 53 -> Prim2SF f = encZ a -> holds g b -> Z.abs (a + b) < 2 ^ 53 ->
  Prim2SF (f + g)%float = encZ (a + b).
Proof.
  intros Ha Hf Hg Hs.
  destruct (add_holds f g a b (holds_enc f a Ha Hf) Hg Hs) as [_ [H|[Z0 H]]]; [exact H|].
  rewrite Z0. rewrite FloatAxioms.add_spec in *. rewrite Hf in *.
  destruct (holds_inv g b Hg) as [[-> [s E]]|[s [p [-> [Dp E]]]]]; rewrite E in *.
  - assert (a = 0) by lia. subst a. destruct s; reflexivity.
  - destruct a as [|q|q].
    + cbn [encZ SF64add SFadd] in H. unfold encP in H. discriminate H.
    + exfalso. cbn [encZ] in H. unfold SF64add in H.
      rewrite SFadd_encP in H; [|apply digits_53; simpl in Ha; lia|assumption|exact Hs].
      cbn [cond_Zopp] in H. rewrite Z0 in H. discriminate H.
    + exfalso. cbn [encZ] in H. unfold SF64add in H.
      change (encP true q) with (encP true q) in H.
      rewrite (SFadd_encP true s q p) in H;
        [|apply digits_53; simpl in Ha; lia|assumption|exact Hs].
      cbn [cond_Zopp] in H. change (- Zpos q) with (Zneg q) in H.
      rewrite Z0 in H. discriminate H.
Qed.

Lemma zero_holds : holds (lit F64 0) 0.
Proof. split; [simpl; lia|]. left. reflexivity. Qed.

End Binary64IntegerValues.

Section Binary64Magnitudes.

Open Scope Z_scope.

Lemma Zdigits2_bounds (m : Z) : 0 < m -> 2 ^ (Zdigits2 m - 1) <= m < 2 ^ Zdigits2 m.
Proof. destruct m as [|p|p]; try lia. intros _. exact (digits_bounds p). Qed.

Lemma Zdigits2_unique (m d : Z) : 2 ^ (d - 1) <= m < 2 ^ d -> 0 < m -> Zdigits2 m = d.
Proof. destruct m as [|p|p]; try lia. intros H _. now apply digits_unique. Qed.

Lemma shr_1_m (mrs : shr_record) : 0 <= shr_m mrs -> shr_m (shr_1 mrs) = shr_m mrs / 2.
Proof.
  destruct mrs as [m r s]. cbn [shr_m]. intros H. unfold shr_1.
  destruct m as [|[p|p|]|p]; cbn [shr_m]; try lia; try reflexivity.
  - rewrite <- Z.div2_div. reflexivity.
  - rewrite <- Z.div2_div. reflexivity.
Qed.

Lemma shr_iter_m (n : nat) (mrs : shr_record) :
  0 <= shr_m mrs -> shr_m (Nat.iter n shr_1 mrs) = shr_m mrs / 2 ^ Z.of_nat n.
Proof.
  intros H. induction n as [|n IH].
  - simpl. now rewrite Z.div_1_r.
  - rewrite Nat.iter_succ. rewrite shr_1_m.
    + rewrite IH, Nat2Z.inj_succ, Z.pow_succ_r by lia.
      rewrite Z.div_div by (try apply Z.pow_pos_nonneg; lia). f_equal. ring.
    + rewrite IH. apply Z.div_pos; [assumption|apply Z.pow_pos_nonneg; lia].
Qed.

Lemma shr_m_value (mrs : shr_record) (e n : Z) :
  0 <= shr_m mrs -> 0 <= n ->
  shr_m (fst (shr mrs e n)) = shr_m mrs / 2 ^ n /\ snd (shr mrs e n) = e + n.
Proof.
  intros Hm Hn. unfold shr. destruct n as [|q|q]; cbn [fst snd]; [| |lia].
  - rewrite Z.div_1_r. split; lia.
  - rewrite iter_pos_nat, shr_iter_m, positive_nat_Z by assumption. split; reflexivity.
Qed.

Lemma round_nearest_even_bounds (m : Z) (l : location) :
  m <= round_nearest_even m l <= m + 1.
Proof.
  destruct l as [|[| |]]; cbn [round_nearest_even]; try lia.
  destruct (Z.even m); lia.
Qed.

Lemma shr_record_m (m : Z) (l : location) : shr_m (shr_record_of_loc m l) = m.
Proof. destruct l as [|[| |]]; reflexivity. Qed.

(** Rounding a mantissa of at least 53 bits, away from the ends of the
    exponent range, gives a normal double. *)
Lemma round_aux_normal (s : bool) (m e : Z) (l : location) :
  0 < m -> 53 <= Zdigits2 m ->
  -1074 <= Zdigits2 m + e - 53 -> Zdigits2 m + e - 53 < 971 ->
  normalF (Zdigits2 m + e - 53) (Zdigits2 m + e - 53 + 1)
          (binary_round_aux prec emax s m e l).
Proof.
  intros Hm Hd Hlo Hhi. pose proof (Zdigits2_bounds m Hm) as [Bl Bu].
  set (d := Zdigits2 m) in *.
  unfold binary_round_aux, shr_fexp. fold d.
  assert (F1 : fexp prec emax (d + e) = d + e - 53)
    by (unfold fexp, SpecFloat.emin, prec, emax; lia).
  rewrite F1.
  pose proof (shr_m_value (shr_record_of_loc m l) e (d + e - 53 - e)) as S1.
  rewrite shr_record_m in S1. destruct S1 as [S1 S2]; [lia|lia|].
  destruct (shr (shr_record_of_loc m l) e (d + e - 53 - e)) as [mrs1 e1].
  cbn [fst snd] in S1, S2. subst e1.
  replace (d + e - 53 - e) with (d - 53) in S1 by lia.
  assert (M1 : 2 ^ 52 <= shr_m mrs1 < 2 ^ 53).
  { rewrite S1. assert (P : 0 < 2 ^ (d - 53)) by (apply Z.pow_pos_nonneg; lia).
    split.
    - apply Z.div_le_lower_bound; [assumption|].
      rewrite <- Z.pow_add_r by lia. replace (d - 53 + 52) with (d - 1) by lia. assumption.
    - apply Z.div_lt_upper_bound; [assumption|].
      rewrite <- Z.pow_add_r by lia. replace (d - 53 + 53) with d by lia. assumption. }
  pose proof (round_nearest_even_bounds (shr_m mrs1) (loc_of_shr_record mrs1)) as R.
  set (mr := round_nearest_even (shr_m mrs1) (loc_of_shr_record mrs1)) in *.
  replace (e + (d + e - 53 - e)) with (d + e - 53) by lia.
  cbn [shr_record_of_loc].
  destruct (Z.eq_dec mr (2 ^ 53)) as [E|NE].
  - rewrite E. change (Zdigits2 (2 ^ 53)) with 54.
    assert (F2 : fexp prec emax (54 + (d + e - 53)) - (d + e - 53) = 1)
      by (unfold fexp, SpecFloat.emin, prec, emax; lia).
    rewrite F2. cbn [shr iter_pos]. change (shr_1 _) with (Build_shr_record (2 ^ 52) false false).
    cbn [shr_m]. change (2 ^ 52) with (Zpos (Z.to_pos (2 ^ 52))).
    destruct (Z.leb_spec (d + e - 53 + 1) (emax - prec)) as [_|C];
      [|unfold emax, prec in C; lia].
    eexists _, _, _. split; [reflexivity|]. split; [reflexivity|]. lia.
  - assert (Dr : Zdigits2 mr = 53) by (apply Zdigits2_unique; simpl; lia).
    rewrite Dr.
    assert (F2 : fexp prec emax (53 + (d + e - 53)) - (d + e - 53) = 0)
      by (unfold fexp, SpecFloat.emin, prec, emax; lia).
    rewrite F2. cbn [shr shr_m].
    destruct mr as [|q|q] eqn:Emr; [lia| |lia].
    destruct (Z.leb_spec (d + e - 53) (emax - prec)) as [_|C];
      [|unfold emax, prec in C; lia].
    eexists _, _, _. split; [reflexivity|]. split; [exact Dr|]. lia.
Qed.

Lemma normalF_weaken (lo hi lo' hi' : Z) (f : spec_float) :
  normalF lo hi f -> lo' <= lo -> hi <= hi' -> normalF lo' hi' f.
Proof.
  intros [s [m [e [E [D R]]]]] Hl Hh. exists s, m, e. repeat split; auto; lia.
Qed.

Lemma mantissa_bounds (m : positive) : digits m = 53 -> 2 ^ 52 <= Zpos m < 2 ^ 53.
Proof. intros D. pose proof (digits_bounds m) as B. rewrite D in B. exact B. Qed.

Lemma SFmul_normal (a1 a2 b1 b2 : Z) (f g : spec_float) :
  normalF a1 a2 f -> normalF b1 b2 g ->
  -1074 <= a1 + b1 + 52 -> a2 + b2 + 53 < 971 ->
  normalF (a1 + b1 + 52) (a2 + b2 + 54) (SFmul prec emax f g).
Proof.
  intros [sx [mx [ex [-> [Dx Rx]]]]] [sy [my [ey [-> [Dy Ry]]]]] Hlo Hhi.
  cbn [SFmul]. pose proof (mantissa_bounds mx Dx) as Bx.
  pose proof (mantissa_bounds my Dy) as By.
  assert (BM : 2 ^ 104 <= Zpos (mx * my) < 2 ^ 106).
  { rewrite Pos2Z.inj_mul. change (2 ^ 104) with (2 ^ 52 * 2 ^ 52).
    change (2 ^ 106) with (2 ^ 53 * 2 ^ 53). nia. }
  assert (DM : Zdigits2 (Zpos (mx * my)) = 105 \/ Zdigits2 (Zpos (mx * my)) = 106).
  { destruct (Z_lt_le_dec (Zpos (mx * my)) (2 ^ 105)).
    - left. apply Zdigits2_unique; simpl Z.sub; lia.
    - right. apply Zdigits2_unique; simpl Z.sub; lia. }
  apply (normalF_weaken (Zdigits2 (Zpos (mx * my)) + (ex + ey) - 53)
                        (Zdigits2 (Zpos (mx * my)) + (ex + ey) - 53 + 1)); try lia.
  apply round_aux_normal; lia.
Qed.

Lemma SFdiv_normal (a1 a2 b1 b2 : Z) (f g : spec_float) :
  normalF a1 a2 f -> normalF b1 b2 g ->
  -1074 <= a1 - b2 - 53 -> a2 - b1 - 52 < 971 ->
  normalF (a1 - b2 - 53) (a2 - b1 - 51) (SFdiv prec emax f g).
Proof.
  intros [sx [mx [ex [-> [Dx Rx]]]]] [sy [my [ey [-> [Dy Ry]]]]] Hlo Hhi.
  cbn [SFdiv]. pose proof (mantissa_bounds mx Dx) as Bx.
  pose proof (mantissa_bounds my Dy) as By.
  unfold SFdiv_core_binary. cbn [Zdigits2]. fold (digits mx). fold (digits my).
  rewrite Dx, Dy.
  assert (E1 : Z.min (fexp prec emax (53 + ex - (53 + ey))) (ex - ey) = ex - ey - 53)
    by (unfold fexp, SpecFloat.emin, prec, emax; lia).
  rewrite E1. replace (ex - ey - (ex - ey - 53)) with 53 by lia.
  rewrite Z.shiftl_mul_pow2 by lia.
  pose proof (Z_div_mod (Zpos mx * 2 ^ 53) (Zpos my) ltac:(lia)) as DM.
  destruct (Z.div_eucl (Zpos mx * 2 ^ 53) (Zpos my)) as [q r].
  destruct DM as [DM Rr].
  assert (Q1 : 2 ^ 52 <= q).
  { destruct (Z_le_gt_dec (2 ^ 52) q); [assumption|exfalso].
    assert (Zpos my * q + r < Zpos my * (q + 1)) by lia.
    assert (Zpos my * (q + 1) <= Zpos my * 2 ^ 52) by (apply Z.mul_le_mono_nonneg_l; lia).
    assert (Zpos my * 2 ^ 52 < 2 ^ 53 * 2 ^ 52) by (apply Z.mul_lt_mono_pos_r; lia).
    assert (2 ^ 52 * 2 ^ 53 <= Zpos mx * 2 ^ 53) by (apply Z.mul_le_mono_nonneg_r; lia).
    lia. }
  assert (Q2 : q < 2 ^ 54).
  { destruct (Z_lt_le_dec q (2 ^ 54)); [assumption|exfalso].
    assert (Zpos my * 2 ^ 54 <= Zpos my * q) by (apply Z.mul_le_mono_nonneg_l; lia).
    assert (2 ^ 52 * 2 ^ 54 <= Zpos my * 2 ^ 54) by (apply Z.mul_le_mono_nonneg_r; lia).
    assert (Zpos mx * 2 ^ 53 < 2 ^ 53 * 2 ^ 53) by (apply Z.mul_lt_mono_pos_r; lia).
    change (2 ^ 52 * 2 ^ 54) with (2 ^ 53 * 2 ^ 53) in *. lia. }
  assert (DQ : Zdigits2 q = 53 \/ Zdigits2 q = 54).
  { destruct (Z_lt_le_dec q (2 ^ 53)).
    - left. apply Zdigits2_unique; simpl Z.sub; lia.
    - right. apply Zdigits2_unique; simpl Z.sub; lia. }
  apply (normalF_weaken (Zdigits2 q + (ex - ey - 53) - 53)
                        (Zdigits2 q + (ex - ey - 53) - 53 + 1)); try lia.
  apply round_aux_normal; lia.
Qed.

Lemma SFsqrt_normal (m : positive) (e : Z) :
  digits m = 53 -> -1074 <= e / 2 - 26 -> e / 2 - 26 < 971 ->
  normalF (e / 2 - 26) (e / 2 - 25) (SFsqrt prec emax (S754_finite false m e)).
Proof.
  intros Dm Hlo Hhi. pose proof (mantissa_bounds m Dm) as Bm.
  cbn [SFsqrt]. unfold SFsqrt_core_binary. cbn [Zdigits2]. fold (digits m).
  rewrite Dm, !Z.div2_div.
  assert (E1 : Z.min (fexp prec emax ((53 + e + 1) / 2)) (e / 2) = e / 2 - 26)
    by (unfold fexp, SpecFloat.emin, prec, emax; Z.div_mod_to_equations; lia).
  rewrite E1.
  assert (S : e - 2 * (e / 2 - 26) = 52 \/ e - 2 * (e / 2 - 26) = 53)
    by (Z.div_mod_to_equations; lia).
  assert (M' : exists k, (k = 52 \/ k = 53)
                         /\ match e - 2 * (e / 2 - 26) with
                            | Zpos _ => Z.shiftl (Zpos m) (e - 2 * (e / 2 - 26))
                            | Z0 => Zpos m
                            | Zneg _ => 0
                            end = Zpos m * 2 ^ k).
  { destruct S as [S|S]; rewrite S; [exists 52|exists 53];
      (split; [auto|]); rewrite Z.shiftl_mul_pow2 by lia; reflexivity. }
  destruct M' as [k [Hk ->]].
  pose proof (Z.sqrtrem_spec (Zpos m * 2 ^ k)) as SP.
  destruct (Z.sqrtrem (Zpos m * 2 ^ k)) as [q r].
  assert (P : 0 <= Zpos m * 2 ^ k) by (apply Z.mul_nonneg_nonneg; [lia|apply Z.pow_nonneg; lia]).
  specialize (SP P). destruct SP as [SP Rr].
  assert (BM : 2 ^ 52 * 2 ^ 52 <= Zpos m * 2 ^ k < 2 ^ 53 * 2 ^ 53).
  { destruct Hk as [-> | ->].
    - split; [apply Z.mul_le_mono_nonneg_r; lia|].
      change (2 ^ 53 * 2 ^ 53) with (2 ^ 54 * 2 ^ 52).
      apply Z.mul_lt_mono_pos_r; [reflexivity|]. simpl in *. lia.
    - split; [|apply Z.mul_lt_mono_pos_r; [reflexivity|lia]].
      change (2 ^ 52 * 2 ^ 52) with (2 ^ 51 * 2 ^ 53).
      apply Z.mul_le_mono_nonneg_r; [simpl; lia|]. simpl in *. lia. }
  assert (Q0 : 0 <= q) by lia.
  assert (Q1 : 2 ^ 52 <= q).
  { destruct (Z_le_gt_dec (2 ^ 52) q); [assumption|exfalso].
    assert (q + 1 <= 2 ^ 52) by lia.
    assert ((q + 1) * (q + 1) <= 2 ^ 52 * 2 ^ 52) by (apply Z.mul_le_mono_nonneg; lia).
    nia. }
  assert (Q2 : q < 2 ^ 53).
  { destruct (Z_lt_le_dec q (2 ^ 53)); [assumption|exfalso].
    assert (2 ^ 53 * 2 ^ 53 <= q * q) by (apply Z.mul_le_mono_nonneg; simpl; lia).
    nia. }
  assert (DQ : Zdigits2 q = 53) by (apply Zdigits2_unique; simpl Z.sub; lia).
  generalize dependent (e / 2). intros h Hlo Hhi E1 S.
  apply (normalF_weaken (Zdigits2 q + (h - 26) - 53)
                        (Zdigits2 q + (h - 26) - 53 + 1)); try lia.
  apply round_aux_normal; lia.
Qed.

(** ** What this gives for doubles that hold integers *)

Lemma encP_normal (s : bool) (p : positive) :
  digits p <= 53 -> normalF (-52) 0 (encP s p).
Proof.
  intros D. pose proof (digits_pos p). unfold encP. eexists _, _, _.
  split; [reflexivity|]. split; [|lia].
  rewrite digits_shift by lia. lia.
Qed.

Lemma finite_normal (f : float) (lo hi : Z) : normalF lo hi (Prim2SF f) -> finite f.
Proof. intros [s [m [e [E _]]]]. unfold finite. now rewrite E. Qed.

Lemma finite_holds (f : float) (z : Z) : holds f z -> finite f.
Proof.
  intros H. unfold finite.
  destruct (holds_inv f z H) as [[_ [s ->]]|[s [p [_ [_ ->]]]]]; exact I.
Qed.

(** Any number times zero is a zero. *)
Lemma mul_zero_holds (f : float) : finite f -> holds (mul F64 f (lit F64 0)) 0.
Proof.
  intros H. cbn [mul F64]. unfold finite in H.
  assert (Z0 : Prim2SF (lit F64 0) = S754_zero false) by reflexivity.
  destruct (Prim2SF f) as [s|s| |s m e] eqn:E; try contradiction.
  - apply (holds_zero _ (xorb s false)). rewrite FloatAxioms.mul_spec, E, Z0. reflexivity.
  - apply (holds_zero _ (xorb s false)). rewrite FloatAxioms.mul_spec, E, Z0. reflexivity.
Qed.

(** The quotient of two doubles that hold the same integer is 1. *)
Lemma div_same (f g : float) (z : Z) :
  holds f z -> holds g z -> z <> 0 -> holds (div F64 f g) 1.
Proof.
  intros Hf Hg Hz. cbn [div F64]. split; [simpl; lia|]. left.
  rewrite FloatAxioms.div_spec. unfold SF64div.
  destruct (holds_inv f z Hf) as [[-> _]|[s [p [-> [Dp ->]]]]]; [congruence|].
  destruct (holds_inv g _ Hg) as [[C _]|[s' [p' [C [_ ->]]]]].
  { destruct s; discriminate C. }
  assert (s' = s /\ p' = p) as [-> ->].
  { destruct s, s'; cbn [cond_Zopp] in C; try discriminate; inversion C; auto. }
  pose proof (digits_pos p) as Hp.
  unfold encP at 1 2. cbn [SFdiv]. unfold SFdiv_core_binary.
  set (m := Z.to_pos (Zpos p * 2 ^ (53 - digits p))).
  set (e := digits p - 53).
  replace (Zdigits2 (Zpos m) + e - (Zdigits2 (Zpos m) + e)) with 0 by lia.
  replace (e - e) with 0 by lia.
  change (Z.min (fexp prec emax 0) 0) with (-53). change (0 - -53) with 53.
  rewrite Z.shiftl_mul_pow2 by lia.
  pose proof (Z_div_mod (Zpos m * 2 ^ 53) (Zpos m) ltac:(lia)) as DM.
  destruct (Z.div_eucl (Zpos m * 2 ^ 53) (Zpos m)) as [q r]. destruct DM as [DM Rr].
  assert (Eq : q = 2 ^ 53 /\ r = 0).
  { assert (Zpos m * (q - 2 ^ 53) + r = 0) by lia.
    assert (q - 2 ^ 53 = 0 \/ q - 2 ^ 53 <= -1 \/ 1 <= q - 2 ^ 53) by lia. nia. }
  destruct Eq as [-> ->].
  assert (L : new_location (Zpos m) 0 = loc_Exact).
  { unfold new_location, new_location_even, new_location_odd.
    destruct (Z.even (Zpos m)); reflexivity. }
  rewrite L. rewrite xorb_nilpotent.
  exact (round_aux_exact false 1 53 ltac:(lia) ltac:(unfold digits; simpl; lia)
           ltac:(unfold digits; simpl; lia)).
Qed.

(** The unit vector along a non-zero integer vector has finite
    coordinates. *)
Lemma normalized_finite (C : Z) (w : Point float) (a b : Z) :
  2 * C * C < 2 ^ 53 -> Z.abs a <= C -> Z.abs b <= C -> (a <> 0 \/ b <> 0) ->
  holds (x w) a -> holds (y w) b ->
  finite (x (normalized F64 w)) /\ finite (y (normalized F64 w)).
Proof.
  intros HC Ha Hb Hn Hx Hy. unfold normalized, magnitude, vec_mult. cbn [x y].
  assert (Haa : Z.abs (a * a) <= C * C) by (rewrite Z.abs_mul; nia).
  assert (Hbb : Z.abs (b * b) <= C * C) by (rewrite Z.abs_mul; nia).
  assert (HD : holds (dot F64 w w) (a * a + b * b)).
  { unfold dot. cbn [add mul F64].
    apply add_holds; [apply mul_holds|apply mul_holds|]; auto; lia. }
  assert (Dpos : 0 < a * a + b * b) by nia.
  destruct (holds_inv _ _ HD) as [[C0 _]|[s [p [Ep [Dp ED]]]]]; [lia|].
  destruct s; [cbn [cond_Zopp] in Ep; lia|].
  assert (NS : normalF (-52) (-25) (Prim2SF (sqrt F64 (dot F64 w w)))).
  { cbn [sqrt F64]. rewrite FloatAxioms.sqrt_spec, ED. unfold SF64sqrt, encP.
    pose proof (digits_pos p).
    assert (R : -52 <= digits p - 53 <= 0) by lia.
    generalize dependent (digits p - 53). intros e R.
    eapply normalF_weaken; [apply SFsqrt_normal| |].
    - rewrite digits_shift by lia. lia.
    - Z.div_mod_to_equations; lia.
    - Z.div_mod_to_equations; lia.
    - Z.div_mod_to_equations; lia.
    - Z.div_mod_to_equations; lia. }
  assert (N1 : normalF (-52) (-52) (Prim2SF (lit F64 1))).
  { exists false, (Z.to_pos (2 ^ 52)), (-52). split; [reflexivity|]. split; [reflexivity|lia]. }
  assert (NR : normalF (-80) (-51)
                       (Prim2SF (div F64 (lit F64 1) (sqrt F64 (dot F64 w w))))).
  { cbn [div F64]. rewrite FloatAxioms.div_spec.
    eapply normalF_weaken; [apply (SFdiv_normal _ _ _ _ _ _ N1 NS)| |]; lia. }
  assert (F : forall (c : float) (z : Z),
             holds c z ->
             finite (mul F64 c (div F64 (lit F64 1) (sqrt F64 (dot F64 w w))))).
  { intros c z Hc. cbn [mul F64].
    destruct (holds_inv _ _ Hc) as [[_ [s Es]]|[s [q [_ [Dq Eq]]]]].
    - unfold finite. rewrite FloatAxioms.mul_spec, Es.
      destruct NR as [s' [m' [e' [-> _]]]]. exact I.
    - apply (finite_normal _ (-80) 3). rewrite FloatAxioms.mul_spec, Eq.
      eapply normalF_weaken;
        [apply (SFmul_normal _ _ _ _ _ _ (encP_normal s q Dq) NR)| |]; lia. }
  split; [exact (F _ _ Hx)|exact (F _ _ Hy)].
Qed.

End Binary64Magnitudes.

(* ================================================================== *)
(** * Segment intersection on integer coordinates *)

Section IntersectionOfIntegerSegments.

Open Scope Z_scope.

(** A double that holds a natural number is below 1e-9 only if the number
    is 0. *)
Lemma below_eps (f : float) (n : Z) :
  holds f n -> 0 <= n -> ltb F64 f (lit F64 1e-9) = (n =? 0).
Proof.
  intros Hf Hn. cbn [ltb F64]. rewrite FloatAxioms.ltb_spec. unfold SFltb.
  destruct (holds_inv f n Hf) as [[-> [s ->]]|[s [p [-> [Dp ->]]]]].
  - vm_compute. reflexivity.
  - destruct s; [simpl in Hn; lia|]. cbn [cond_Zopp Z.eqb].
    pose proof (digits_pos p).
    assert (E : Prim2SF (lit F64 1e-9) = S754_finite false 4835703278458517 (-82))
      by (vm_compute; reflexivity).
    rewrite E.
    unfold encP. cbn [SFcompare].
    destruct (Z.compare_spec (digits p - 53) (-82)); first [lia | reflexivity].
Qed.

Lemma closeTo_zero_int (f : float) (n : Z) :
  holds f n -> closeTo F64 f (lit F64 0) = (n =? 0).
Proof.
  intros Hf. unfold closeTo.
  assert (H : holds (abs F64 (sub F64 f (lit F64 0))) (Z.abs (n - 0))).
  { apply abs_holds. apply sub_holds; [exact Hf|exact zero_holds|].
    destruct Hf. rewrite Z.sub_0_r. assumption. }
  rewrite (below_eps _ _ H) by lia. rewrite Z.sub_0_r.
  destruct n; reflexivity.
Qed.

Lemma vec_holds (B : Z) (a b : Point Z) :
  2 * B < 2 ^ 53 ->
  Z.abs (x a) <= B -> Z.abs (y a) <= B -> Z.abs (x b) <= B -> Z.abs (y b) <= B ->
  holds (x (vec F64 (intPoint a) (intPoint b))) (x (vecZ a b))
  /\ holds (y (vec F64 (intPoint a) (intPoint b))) (y (vecZ a b)).
Proof.
  intros HB Hxa Hya Hxb Hyb. cbn [vec vecZ intPoint x y F64 sub].
  split; apply sub_holds; try (apply ofZ_holds; lia); lia.
Qed.

Lemma cross_holds (C : Z) (v1 v2 : Point float) (z1 z2 : Point Z) :
  2 * C * C < 2 ^ 53 ->
  holds (x v1) (x z1) -> holds (y v1) (y z1) ->
  holds (x v2) (x z2) -> holds (y v2) (y z2) ->
  Z.abs (x z1) <= C -> Z.abs (y z1) <= C -> Z.abs (x z2) <= C -> Z.abs (y z2) <= C ->
  holds (cross F64 v1 v2) (crossZ z1 z2).
Proof.
  intros HC H1 H2 H3 H4 B1 B2 B3 B4. unfold cross, crossZ. cbn [F64 sub mul].
  assert (P1 : Z.abs (x z1 * y z2) <= C * C) by (rewrite Z.abs_mul; nia).
  assert (P2 : Z.abs (x z2 * y z1) <= C * C) by (rewrite Z.abs_mul; nia).
  apply sub_holds; [apply mul_holds|apply mul_holds|]; auto; lia.
Qed.

(** The identity behind the two quotients (Cramer's rule). *)
Lemma cramer (s1 r s2 s : Point Z) :
  let w := vecZ s1 s2 in
  crossZ r s * x s1 + crossZ w s * x r = crossZ r s * x s2 + crossZ w r * x s
  /\ crossZ r s * y s1 + crossZ w s * y r = crossZ r s * y s2 + crossZ w r * y s.
Proof. unfold crossZ, vecZ. cbn [x y]. split; ring. Qed.

(** What [intersectSegments] computes on segments with integer coordinates
    whose directions are not parallel: the three cross products are
    computed without rounding, and then divided. *)
Lemma intersectSegments_quotients (B : Z) (s1 s2 : Segment (Point Z)) :
  within B [start s1; end_ s1; start s2; end_ s2] -> 8 * B * B < 2 ^ 53 ->
  let r := vecZ (start s1) (end_ s1) in
  let s := vecZ (start s2) (end_ s2) in
  let w := vecZ (start s1) (start s2) in
  crossZ r s <> 0 ->
  if crossZ w r =? 0
  then intersectSegments F64 (intSegment s1) (intSegment s2) = None
  else exists fu fn fd : float,
      holds fu (crossZ w s) /\ holds fn (crossZ w r) /\ holds fd (crossZ r s)
      /\ intersectSegments F64 (intSegment s1) (intSegment s2)
         = Some (mkIntersection (fu / fd)%float (fn / fd)%float).
Proof.
  intros HP HB r s w HD.
  assert (B0 : 0 <= B).
  { destruct (HP (start s1)) as [H _]; [now left|]. lia. }
  assert (B2 : 2 * B < 2 ^ 53) by nia.
  assert (C2 : 2 * (2 * B) * (2 * B) < 2 ^ 53) by lia.
  destruct (HP (start s1)) as [A1 A2]; [simpl; auto|].
  destruct (HP (end_ s1)) as [A3 A4]; [simpl; auto|].
  destruct (HP (start s2)) as [A5 A6]; [simpl; auto|].
  destruct (HP (end_ s2)) as [A7 A8]; [simpl; auto 6|].
  destruct (vec_holds B (start s1) (end_ s1) B2 A1 A2 A3 A4) as [Rx Ry].
  destruct (vec_holds B (start s2) (end_ s2) B2 A5 A6 A7 A8) as [Sx Sy].
  destruct (vec_holds B (start s1) (start s2) B2 A1 A2 A5 A6) as [Wx Wy].
  fold r in Rx, Ry. fold s in Sx, Sy. fold w in Wx, Wy.
  assert (Br : Z.abs (x r) <= 2 * B /\ Z.abs (y r) <= 2 * B)
    by (unfold r, vecZ; cbn [x y]; lia).
  assert (Bs : Z.abs (x s) <= 2 * B /\ Z.abs (y s) <= 2 * B)
    by (unfold s, vecZ; cbn [x y]; lia).
  assert (Bw : Z.abs (x w) <= 2 * B /\ Z.abs (y w) <= 2 * B)
    by (unfold w, vecZ; cbn [x y]; lia).
  destruct Br, Bs, Bw.
  pose proof (cross_holds (2 * B) _ _ r s C2 Rx Ry Sx Sy) as HDen.
  pose proof (cross_holds (2 * B) _ _ w r C2 Wx Wy Rx Ry) as HNum.
  pose proof (cross_holds (2 * B) _ _ w s C2 Wx Wy Sx Sy) as HU.
  specialize (HDen ltac:(lia) ltac:(lia) ltac:(lia) ltac:(lia)).
  specialize (HNum ltac:(lia) ltac:(lia) ltac:(lia) ltac:(lia)).
  specialize (HU ltac:(lia) ltac:(lia) ltac:(lia) ltac:(lia)).
  assert (Hd : closeTo F64 (cross F64 (vec F64 (start (intSegment s1)) (end_ (intSegment s1)))
                                      (vec F64 (start (intSegment s2)) (end_ (intSegment s2))))
                       (lit F64 0) = false).
  { cbn [intSegment start end_]. rewrite (closeTo_zero_int _ _ HDen). now apply Z.eqb_neq. }
  rewrite (intersectSegments_nonparallel F64 _ _ Hd).
  cbn [intSegment start end_]. rewrite (closeTo_zero_int _ _ HNum).
  destruct (crossZ w r =? 0) eqn:EN; [reflexivity|].
  eexists _, _, _. split; [exact HU|]. split; [exact HNum|]. split; [exact HDen|].
  reflexivity.
Qed.

(** C2 (amended): for segments with integer coordinates of at most B in
    absolute value, where 8 B^2 < 2^53, whose direction vectors r and s are
    not parallel (their cross product is not 0): [intersectSegments] returns
    null when the cross product of (s2.start - s1.start) and r is 0;
    otherwise it returns the pair of the binary64 quotients U / D and N / D,
    where the doubles divided hold the integers U = cross(s2.start -
    s1.start, s), N = cross(s2.start - s1.start, r) and D = cross(r, s)
    without rounding, and U/D and N/D solve s1.start + u*r = s2.start + v*s:
    the pair returned is that solution rounded to binary64 in the two
    divisions. *)
Theorem intersectSegments_integers (B : Z) (s1 s2 : Segment (Point Z)) :
  within B [start s1; end_ s1; start s2; end_ s2] -> 8 * B * B < 2 ^ 53 ->
  let r := vecZ (start s1) (end_ s1) in
  let s := vecZ (start s2) (end_ s2) in
  let w := vecZ (start s1) (start s2) in
  crossZ r s <> 0 ->
  if crossZ w r =? 0
  then intersectSegments F64 (intSegment s1) (intSegment s2) = None
  else exists fu fn fd : float,
      holds fu (crossZ w s) /\ holds fn (crossZ w r) /\ holds fd (crossZ r s)
      /\ intersectSegments F64 (intSegment s1) (intSegment s2)
         = Some (mkIntersection (fu / fd)%float (fn / fd)%float)
      /\ crossZ r s * x (start s1) + crossZ w s * x r
         = crossZ r s * x (start s2) + crossZ w r * x s
      /\ crossZ r s * y (start s1) + crossZ w s * y r
         = crossZ r s * y (start s2) + crossZ w r * y s.
Proof.
  intros HP HB r s w HD.
  pose proof (intersectSegments_quotients B s1 s2 HP HB HD) as Q. cbv zeta in Q.
  fold r s w in Q.
  destruct (crossZ w r =? 0); [exact Q|].
  destruct Q as [fu [fn [fd [HU [HN [HDen E]]]]]].
  exists fu, fn, fd. split; [exact HU|]. split; [exact HN|]. split; [exact HDen|].
  split; [exact E|]. apply cramer.
Qed.

End IntersectionOfIntegerSegments.

(** The witness of C2: the segments (0,0)-(10,0) and (5,-5)-(5,5) cross at
    u = v = 1/2. *)
Lemma intersectSegments_integers_witness :
  let s1 := mkSegment (Ex.zpt 0 0) (Ex.zpt 10 0) in
  let s2 := mkSegment (Ex.zpt 5 (-5)) (Ex.zpt 5 5) in
  let r := vecZ (start s1) (end_ s1) in
  let s := vecZ (start s2) (end_ s2) in
  let w := vecZ (start s1) (start s2) in
  within 10 [start s1; end_ s1; start s2; end_ s2]
  /\ (8 * 10 * 10 < 2 ^ 53)%Z
  /\ crossZ r s <> 0%Z
  /\ if (crossZ w r =? 0)%Z
     then intersectSegments F64 (intSegment s1) (intSegment s2) = None
     else exists fu fn fd : float,
         holds fu (crossZ w s) /\ holds fn (crossZ w r) /\ holds fd (crossZ r s)
         /\ intersectSegments F64 (intSegment s1) (intSegment s2)
            = Some (mkIntersection (fu / fd)%float (fn / fd)%float)
         /\ (crossZ r s * x (start s1) + crossZ w s * x r
             = crossZ r s * x (start s2) + crossZ w r * x s)%Z
         /\ (crossZ r s * y (start s1) + crossZ w s * y r
             = crossZ r s * y (start s2) + crossZ w r * y s)%Z.
Proof.
  intros s1 s2 r s w.
  assert (H1 : within 10 [start s1; end_ s1; start s2; end_ s2]).
  { intros q [<-|[<-|[<-|[<-|[]]]]]; simpl; lia. }
  assert (H2 : (8 * 10 * 10 < 2 ^ 53)%Z) by reflexivity.
  assert (H3 : crossZ r s <> 0%Z) by discriminate.
  split; [exact H1|]. split; [exact H2|]. split; [exact H3|].
  exact (intersectSegments_integers 10 s1 s2 H1 H2 H3).
Defined.

(** C2 as stated fails in three ways.  The segments (0,0)-(10,0) and
    (5,0)-(5,5) are not parallel (the cross product of their directions is
    50), and [intersectSegments] returns null, because the second starts on
    the line of the first.  For (0,0)-(3,0) and (1,-1)-(1,1) the system asks
    for 3u = 1, and the u returned is the double 6004799503160661 / 2^54,
    which is not 1/3: no double is.  And the cross products are rounded when
    the coordinates are not integers, or are integers too large: the
    segments (0,0)-(0.001,1000) and (0.002000000002,2000)-(0.001,1000) end
    in the same point, so that u = v = 1 solves their system, and the pair
    returned has u < 1 < v; (0,0)-(100000001,100000003) and
    (200000003,200000006)-(100000001,100000003) end in the same point, the
    three cross products are all 100000003, and the pair returned has
    v < 1 < u. *)
Lemma intersectSegments_null_or_rounded :
  (let s1 := mkSegment (Ex.fpt 0 0) (Ex.fpt 10 0) in
   let s2 := mkSegment (Ex.fpt 5 0) (Ex.fpt 5 5) in
   let r := vec F64 (start s1) (end_ s1) in
   let s := vec F64 (start s2) (end_ s2) in
   cross F64 r s = lit F64 50
   /\ closeTo F64 (cross F64 r s) (lit F64 0) = false
   /\ intersectSegments F64 s1 s2 = None)
  /\ (let s1 := mkSegment (Ex.fpt 0 0) (Ex.fpt 3 0) in
      let s2 := mkSegment (Ex.fpt 1 (-1)) (Ex.fpt 1 1) in
      exists i,
        intersectSegments F64 s1 s2 = Some i
        /\ Prim2SF (u i) = S754_finite false 6004799503160661 (-54)
        /\ (3 * 6004799503160661 <> 2 ^ 54)%Z)
  /\ (let s1 := mkSegment (Ex.fpt 0 0) (Ex.fpt 0.001 1000) in
      let s2 := mkSegment (Ex.fpt 0.002000000002 2000) (Ex.fpt 0.001 1000) in
      let r := vec F64 (start s1) (end_ s1) in
      let s := vec F64 (start s2) (end_ s2) in
      end_ s1 = end_ s2
      /\ closeTo F64 (cross F64 r s) (lit F64 0) = false
      /\ exists i,
          intersectSegments F64 s1 s2 = Some i
          /\ ltb F64 (u i) (lit F64 1) = true /\ ltb F64 (lit F64 1) (v i) = true)
  /\ (let s1 := mkSegment (Ex.zpt 0 0) (Ex.zpt 100000001 100000003) in
      let s2 := mkSegment (Ex.zpt 200000003 200000006) (Ex.zpt 100000001 100000003) in
      let r := vecZ (start s1) (end_ s1) in
      let s := vecZ (start s2) (end_ s2) in
      let w := vecZ (start s1) (start s2) in
      end_ s1 = end_ s2
      /\ crossZ r s = 100000003%Z /\ crossZ w s = 100000003%Z
      /\ crossZ w r = 100000003%Z
      /\ exists i,
          intersectSegments F64 (intSegment s1) (intSegment s2) = Some i
          /\ ltb F64 (lit F64 1) (u i) = true /\ ltb F64 (v i) (lit F64 1) = true).
Proof.
  split; [repeat split; reflexivity|]. split; [|split].
  - eexists. split; [vm_compute; reflexivity|]. split; [vm_compute; reflexivity|discriminate].
  - split; [reflexivity|]. split; [reflexivity|].
    eexists. split; [vm_compute; reflexivity|]. split; reflexivity.
  - split; [reflexivity|]. split; [reflexivity|]. split; [reflexivity|].
    split; [reflexivity|].
    eexists. split; [vm_compute; reflexivity|]. split; reflexivity.
Qed.

(* ================================================================== *)
(** * Winding order *)

Lemma length_chain {A : Type} (p0 : A) (rest : list A) :
  length (chain p0 rest) = length rest.
Proof. revert p0. induction rest as [|p rest IH]; intros p0; simpl; auto. Qed.

Lemma length_segments {A : Type} (pts : list A) :
  length (segments pts) = if Nat.ltb (length pts) 2 then 0%nat else length pts.
Proof.
  destruct pts as [|p0 [|p1 rest]]; [reflexivity|reflexivity|].
  unfold segments. rewrite length_app, length_chain. simpl. lia.
Qed.

Section Winding.

Open Scope Z_scope.

Lemma last_rev_cons {A : Type} (l : list A) (a d : A) : last (rev (a :: l)) d = a.
Proof. simpl. apply last_last. Qed.

Lemma hd_rev {A : Type} (l : list A) (d : A) : hd d (rev l) = last l d.
Proof.
  induction l as [|a l IH] using rev_ind; [reflexivity|].
  rewrite rev_app_distr, last_last. reflexivity.
Qed.

Lemma last_cons_default {A : Type} (l : list A) (b d1 d2 : A) :
  last (b :: l) d1 = last (b :: l) d2.
Proof. revert b. induction l as [|c l IH]; intros b; [reflexivity|apply (IH c)]. Qed.

Lemma zterm_swap (a b : Point Z) : zterm b a = - zterm a b.
Proof. unfold zterm. ring. Qed.

Lemma zpath_snoc (l : list (Point Z)) (a d : Point Z) :
  zpath (l ++ [a]) = zpath l + match l with [] => 0 | _ => zterm (last l d) a end.
Proof.
  induction l as [|b l IH]; [simpl; ring|].
  destruct l as [|c l]; [simpl; ring|].
  change (zpath ((b :: c :: l) ++ [a])) with (zterm b c + zpath ((c :: l) ++ [a])).
  rewrite IH. change (zpath (b :: c :: l)) with (zterm b c + zpath (c :: l)).
  change (last (b :: c :: l) d) with (last (c :: l) d). ring.
Qed.

Lemma zpath_rev (l : list (Point Z)) : zpath (rev l) = - zpath l.
Proof.
  induction l as [|a l IH]; [simpl; ring|].
  simpl rev. rewrite (zpath_snoc _ _ a), IH.
  destruct l as [|b l]; [simpl; ring|].
  rewrite last_rev_cons.
  change (zpath (a :: b :: l)) with (zterm a b + zpath (b :: l)).
  destruct (rev (b :: l)) eqn:R.
  - apply (f_equal (@length _)) in R. rewrite length_rev in R. discriminate.
  - rewrite (zterm_swap a b). ring.
Qed.

Lemma zclose_alt (l : list (Point Z)) (d : Point Z) :
  (2 <= length l)%nat -> zclose l = zterm (last l d) (hd d l).
Proof.
  destruct l as [|a [|b l]]; simpl length; try lia. intros _.
  unfold zclose. cbn [hd]. f_equal.
  change (last (a :: b :: l) d) with (last (b :: l) d). apply last_cons_default.
Qed.

Lemma zclose_rev (l : list (Point Z)) : zclose (rev l) = - zclose l.
Proof.
  destruct l as [|a [|b l]]; [simpl; ring|simpl; ring|].
  set (l0 := a :: b :: l).
  assert (Hl : (2 <= length l0)%nat) by (simpl; lia).
  rewrite (zclose_alt (rev l0) a) by now rewrite length_rev.
  rewrite (zclose_alt l0 a Hl).
  rewrite hd_rev, <- (hd_rev (rev l0) a), rev_involutive. apply zterm_swap.
Qed.

Lemma fold_zchain (p0 : Point Z) (rest : list (Point Z)) (acc : Z) :
  fold_left (fun sum s => sum + zterm (start s) (end_ s)) (chain p0 rest) acc
  = acc + zpath (p0 :: rest).
Proof.
  revert p0 acc. induction rest as [|p1 rest IH]; intros p0 acc.
  - simpl. ring.
  - cbn [chain fold_left start end_]. rewrite IH.
    change (zpath (p0 :: p1 :: rest)) with (zterm p0 p1 + zpath (p1 :: rest)). ring.
Qed.

Lemma windingZ_path (l : list (Point Z)) : windingZ l = zpath l + zclose l.
Proof.
  unfold windingZ, segments.
  destruct l as [|p0 [|p1 rest]]; [reflexivity|reflexivity|].
  rewrite fold_left_app, fold_zchain. cbn [fold_left start end_].
  unfold zclose. ring.
Qed.

(** Reversing a polygon negates its winding sum. *)
Lemma windingZ_rev (l : list (Point Z)) : windingZ (rev l) = - windingZ l.
Proof. rewrite !windingZ_path, zpath_rev, zclose_rev. ring. Qed.

(** The sum does not depend on the vertex the polygon starts with. *)
Lemma windingZ_rotate (a : Point Z) (l : list (Point Z)) :
  windingZ (l ++ [a]) = windingZ (a :: l).
Proof.
  rewrite !windingZ_path. destruct l as [|b l]; [simpl; ring|].
  rewrite (zpath_snoc _ _ a).
  rewrite (zclose_alt ((b :: l) ++ [a]) a) by (rewrite length_app; simpl; lia).
  rewrite last_last. cbn [app hd].
  change (zpath (a :: b :: l)) with (zterm a b + zpath (b :: l)).
  unfold zclose. change (last (b :: l) a) with (last (b :: l) a). ring.
Qed.

Lemma windingZ_short (l : list (Point Z)) : (length l <= 2)%nat -> windingZ l = 0.
Proof.
  intros H. rewrite windingZ_path.
  destruct l as [|a [|b [|c l]]]; simpl in H; try lia; simpl; unfold zterm; ring.
Qed.

(** ** The sum that the program computes *)

Lemma chain_map {A B : Type} (f : A -> B) (p0 : A) (rest : list A) :
  chain (f p0) (map f rest)
  = map (fun s => mkSegment (f (start s)) (f (end_ s))) (chain p0 rest).
Proof.
  revert p0. induction rest as [|p rest IH]; intros p0; [reflexivity|].
  cbn [map chain start end_]. now rewrite IH.
Qed.

Lemma segments_map {A B : Type} (f : A -> B) (pts : list A) :
  segments (map f pts)
  = map (fun s => mkSegment (f (start s)) (f (end_ s))) (segments pts).
Proof.
  destruct pts as [|p0 [|p1 rest]]; [reflexivity|reflexivity|].
  unfold segments. cbn [map]. rewrite map_app.
  change (f p1 :: map f rest) with (map f (p1 :: rest)).
  rewrite chain_map. f_equal. cbn [map start end_]. f_equal. f_equal.
  change (f p1 :: map f rest) with (map f (p1 :: rest)).
  generalize (p1 :: rest). intros l. revert p0.
  induction l as [|a [|b l] IH]; intros p0; auto. apply (IH p0).
Qed.

Lemma chain_In {A : Type} (p0 : A) (rest : list A) (s : Segment A) :
  In s (chain p0 rest) -> In (start s) (p0 :: rest) /\ In (end_ s) (p0 :: rest).
Proof.
  revert p0. induction rest as [|p rest IH]; intros p0; [intros []|].
  cbn [chain]. intros [<-|H].
  - simpl. auto.
  - destruct (IH p H). split; right; assumption.
Qed.

Lemma last_In {A : Type} (l : list A) (d : A) : l <> [] -> In (last l d) l.
Proof.
  induction l as [|a [|b l] IH]; intros H; [congruence|left; reflexivity|].
  right. apply IH. discriminate.
Qed.

Lemma segments_In {A : Type} (pts : list A) (s : Segment A) :
  In s (segments pts) -> In (start s) pts /\ In (end_ s) pts.
Proof.
  destruct pts as [|p0 [|p1 rest]]; [intros []|intros []|].
  unfold segments. intros H. apply in_app_or in H. destruct H as [H|[<-|[]]].
  - now apply chain_In.
  - cbn [start end_]. split; [right; apply last_In; discriminate|left; reflexivity].
Qed.

Lemma term_holds (B : Z) (a b : Point Z) :
  4 * B * B < 2 ^ 53 ->
  Z.abs (x a) <= B -> Z.abs (y a) <= B -> Z.abs (x b) <= B -> Z.abs (y b) <= B ->
  holds (mul F64 (sub F64 (x (intPoint b)) (x (intPoint a)))
                 (add F64 (y (intPoint b)) (y (intPoint a))))
        (zterm a b)
  /\ Z.abs (zterm a b) <= 4 * B * B.
Proof.
  intros HB Hxa Hya Hxb Hyb. cbn [intPoint x y F64 mul sub add].
  assert (B0 : 0 <= B) by lia.
  assert (B1 : 2 * B <= 4 * B * B \/ B = 0) by nia.
  assert (Hb : Z.abs (zterm a b) <= 4 * B * B).
  { unfold zterm. rewrite Z.abs_mul.
    assert (Z.abs (x b - x a) <= 2 * B) by lia.
    assert (Z.abs (y b + y a) <= 2 * B) by lia.
    assert (0 <= Z.abs (x b - x a)) by lia. assert (0 <= Z.abs (y b + y a)) by lia. nia. }
  split; [|exact Hb].
  apply mul_holds; [apply sub_holds|apply add_holds|fold (zterm a b); lia];
    try (apply ofZ_holds; lia); lia.
Qed.

Lemma fold_holds (B : Z) (segs : list (Segment (Point Z))) (acc : float) (z : Z) :
  (forall s, In s segs ->
             Z.abs (x (start s)) <= B /\ Z.abs (y (start s)) <= B
             /\ Z.abs (x (end_ s)) <= B /\ Z.abs (y (end_ s)) <= B) ->
  holds acc z ->
  Z.abs z + 4 * B * B * Z.of_nat (length segs) < 2 ^ 53 ->
  holds (fold_left
           (fun sum s => add F64 sum (mul F64 (sub F64 (x (end_ s)) (x (start s)))
                                              (add F64 (y (end_ s)) (y (start s)))))
           (map intSegment segs) acc)
        (fold_left (fun sum s => sum + zterm (start s) (end_ s)) segs z).
Proof.
  revert acc z. induction segs as [|s segs IH]; intros acc z Hin Hacc Hb; [exact Hacc|].
  cbn [map fold_left]. cbn [length] in Hb.
  rewrite Nat2Z.inj_succ, Z.mul_succ_r in Hb.
  assert (Hc : 0 <= 4 * B * B) by nia.
  assert (Hn : 0 <= 4 * B * B * Z.of_nat (length segs)) by (apply Z.mul_nonneg_nonneg; lia).
  destruct (Hin s (or_introl eq_refl)) as [H1 [H2 [H3 H4]]].
  assert (HB : 4 * B * B < 2 ^ 53) by lia.
  destruct (term_holds B (start s) (end_ s) HB H1 H2 H3 H4) as [Ht Hbt].
  apply IH.
  - intros s' Hs'. apply Hin. now right.
  - apply add_holds; [exact Hacc|exact Ht|]. lia.
  - lia.
Qed.

(** The winding sum of a polygon with integer coordinates is computed
    without rounding, as long as 4 B^2 n stays below 2^53 for n points with
    coordinates of at most B in absolute value. *)
Lemma windingSum_holds (B : Z) (P : list (Point Z)) :
  within B P -> 4 * B * B * Z.of_nat (length P) < 2 ^ 53 ->
  holds (windingSum F64 (map intPoint P)) (windingZ P).
Proof.
  intros HP Hb. unfold windingSum, windingZ. rewrite segments_map.
  apply (fold_holds B).
  - intros s Hs. apply segments_In in Hs. destruct Hs as [Hs He].
    destruct (HP _ Hs), (HP _ He). auto.
  - exact zero_holds.
  - rewrite length_segments. simpl Z.abs.
    destruct (Nat.ltb (length P) 2); [|lia].
    assert (0 <= 4 * B * B * Z.of_nat (length P)) by nia. simpl. lia.
Qed.

Lemma areWindingClockwise_int (B : Z) (P : list (Point Z)) :
  within B P -> 4 * B * B * Z.of_nat (length P) < 2 ^ 53 ->
  areWindingClockwise F64 (map intPoint P) = (windingZ P <? 0).
Proof.
  intros HP Hb. unfold areWindingClockwise.
  exact (ltb_holds _ _ _ _ (windingSum_holds B P HP Hb) zero_holds).
Qed.

Lemma within_rev (B : Z) (P : list (Point Z)) : within B P -> within B (rev P).
Proof. intros H q Hq. apply H. now apply in_rev. Qed.

(** C8 (amended): for every polygon with integer coordinates of at most B
    in absolute value and n points, where 4 B^2 n < 2^53 (so that binary64
    computes the winding sum without rounding), whose winding sum, the sum of
    (x2-x1)*(y2+y1) over its segments, is not zero, [areWindingClockwise] is
    true of [pickClockwiseOrder(P)]. *)
Theorem pickClockwiseOrder_clockwise (B : Z) (P : list (Point Z)) :
  within B P -> 4 * B * B * Z.of_nat (length P) < 2 ^ 53 ->
  windingZ P <> 0 ->
  areWindingClockwise F64 (pickClockwiseOrder F64 (map intPoint P)) = true.
Proof.
  intros HP Hb Hs. unfold pickClockwiseOrder. rewrite length_map.
  destruct (Nat.leb (length P) 2) eqn:L.
  - apply Nat.leb_le in L. now elim Hs; apply windingZ_short.
  - destruct (areWindingClockwise F64 (map intPoint P)) eqn:W; [exact W|].
    rewrite (areWindingClockwise_int B P HP Hb) in W.
    rewrite <- map_rev.
    rewrite (areWindingClockwise_int B (rev P)), windingZ_rev.
    + apply Z.ltb_ge in W. apply Z.ltb_lt. lia.
    + now apply within_rev.
    + now rewrite length_rev.
Qed.

End Winding.

(** The integer square is the square of the specification's scenarios. *)
Lemma squareZ_square : map intPoint Ex.squareZ = Ex.square.
Proof. reflexivity. Qed.

(** The witness of C8: the square has winding sum -200. *)
Lemma pickClockwiseOrder_clockwise_witness :
  within 10 Ex.squareZ
  /\ (4 * 10 * 10 * Z.of_nat (length Ex.squareZ) < 2 ^ 53)%Z
  /\ windingZ Ex.squareZ <> 0%Z
  /\ areWindingClockwise F64 (pickClockwiseOrder F64 (map intPoint Ex.squareZ)) = true.
Proof.
  assert (H1 : within 10 Ex.squareZ).
  { intros q [<-|[<-|[<-|[<-|[]]]]]; simpl; lia. }
  assert (H2 : (4 * 10 * 10 * Z.of_nat (length Ex.squareZ) < 2 ^ 53)%Z) by reflexivity.
  assert (H3 : windingZ Ex.squareZ <> 0%Z) by discriminate.
  split; [exact H1|]. split; [exact H2|]. split; [exact H3|].
  exact (pickClockwiseOrder_clockwise 10 Ex.squareZ H1 H2 H3).
Defined.

(** C8 as stated fails in three ways.  The figure of eight (0,0),(2,2),(2,0),
    (0,2) has four points, the first three not collinear, and winding sum 0
    in either order, so [areWindingClockwise] is false of its canonical
    order.  The right triangle with legs of length 2 at (1e16, 1e16) has
    winding sum 4, but the terms of the sum are rounded to multiples of 8
    and the sum computed is 0 in either order.  And for the quadrilateral
    (0,0), (-0.1,0.1), (-1.6,1.6), (-0.3,0.30000000000000004), whose first,
    second and last point are not on a line (their cross product is not 0),
    the sum computed is positive in both orders, where the sums of a polygon
    and of its reverse are opposite numbers: the terms are rounded. *)
Lemma pickClockwiseOrder_not_clockwise :
  ((3 <= length Ex.bowtie)%nat
   /\ collinear F64 (Ex.fpt 0 0) (Ex.fpt 2 2) (Ex.fpt 2 0) = false
   /\ cross F64 (vec F64 (Ex.fpt 0 0) (Ex.fpt 2 2)) (vec F64 (Ex.fpt 0 0) (Ex.fpt 2 0))
      = lit F64 (-4)
   /\ windingSum F64 Ex.bowtie = lit F64 0
   /\ areWindingClockwise F64 (pickClockwiseOrder F64 Ex.bowtie) = false)
  /\ ((3 <= length Ex.farTriangle)%nat
      /\ collinear F64 (Ex.fpt 1e16 1e16) (Ex.fpt 1e16 10000000000000002)
                   (Ex.fpt 10000000000000002 1e16) = false
      /\ windingZ [Ex.zpt 10000000000000000 10000000000000000;
                   Ex.zpt 10000000000000000 10000000000000002;
                   Ex.zpt 10000000000000002 10000000000000000] = 4%Z
      /\ windingSum F64 Ex.farTriangle = lit F64 0
      /\ windingSum F64 (rev Ex.farTriangle) = lit F64 0
      /\ areWindingClockwise F64 (pickClockwiseOrder F64 Ex.farTriangle) = false)
  /\ ((3 <= length Ex.fractions)%nat
      /\ ltb F64 (cross F64 (vec F64 (Ex.fpt 0 0) (Ex.fpt (-0.1) 0.1))
                            (vec F64 (Ex.fpt 0 0) (Ex.fpt (-0.3) 0.30000000000000004)))
             (lit F64 0) = true
      /\ ltb F64 (lit F64 0) (windingSum F64 Ex.fractions) = true
      /\ ltb F64 (lit F64 0) (windingSum F64 (rev Ex.fractions)) = true
      /\ areWindingClockwise F64 (pickClockwiseOrder F64 Ex.fractions) = false).
Proof.
  split; [|split].
  - split; [simpl; lia|]. repeat split; reflexivity.
  - split; [simpl; lia|]. repeat split; vm_compute; reflexivity.
  - split; [simpl; lia|]. repeat split; vm_compute; reflexivity.
Qed.

(* ================================================================== *)
(** * Polygon offset *)

Section CornerFacts.
Context {N : Type}.

Lemma ptAt_in_range (pts : list (Point N)) (i : nat) (d : Z) :
  (i < length pts)%nat -> (d = 1 \/ d = -1)%Z ->
  exists q, ptAt pts (Z.of_nat i + d) = Some q.
Proof.
  intros Hi Hd. unfold ptAt.
  set (len := Z.of_nat (length pts)).
  assert (Hlen : (0 < len)%Z) by (unfold len; lia).
  assert (Hr : (0 <= Z.rem (Z.of_nat i + d + len) len < len)%Z).
  { apply Z.rem_bound_pos; lia. }
  destruct (nth_error pts (Z.to_nat (Z.rem (Z.of_nat i + d + len) len))) as [q|] eqn:Eq.
  - now exists q.
  - apply nth_error_None in Eq. unfold len in *. lia.
Qed.

Lemma corner_returns (pts : list (Point N)) (i : nat) :
  (i < length pts)%nat -> exists c, corner pts i = Returns c.
Proof.
  intros Hi. unfold corner.
  destruct (nth_error pts i) as [q|] eqn:Eq; [|apply nth_error_None in Eq; lia].
  destruct (ptAt_in_range pts i (-1) Hi) as [a Ea]; [now right|].
  destruct (ptAt_in_range pts i 1 Hi) as [b Eb]; [now left|].
  change (Z.of_nat i - 1)%Z with (Z.of_nat i + -1)%Z.
  rewrite Ea, Eb. simpl. eauto.
Qed.

End CornerFacts.

Lemma corner_map {A B : Type} (f : Point A -> Point B) (pts : list (Point A)) (i : nat) :
  corner (map f pts) i
  = match corner pts i with
    | Returns (a, b, c) => Returns (f a, f b, f c)
    | Throws => Throws
    | OutOfFuel => OutOfFuel
    end.
Proof.
  unfold corner, ptAt. rewrite !length_map, !nth_error_map.
  destruct (nth_error pts i); simpl; [|reflexivity].
  destruct (nth_error pts _); simpl; [|reflexivity].
  destruct (nth_error pts _); simpl; reflexivity.
Qed.

Section Totality.

Context {N : Type} (ops : NumOps N).

Lemma expandVertex_returns (pts : list (Point N)) (amount : N) (i : nat) :
  (i < length pts)%nat -> exists new, expandVertex ops pts amount i = Returns new.
Proof.
  intros Hi. unfold expandVertex.
  destruct (corner_returns pts i Hi) as [[[a b] c] Ec]. rewrite Ec. cbn [bind].
  destruct (degenerate ops (a, b, c)); [eauto|].
  match goal with |- context [intersectSegments ?o ?s1 ?s2] =>
    destruct (intersectSegments o s1 s2) end; eauto.
Qed.

(** A vertex that fails the test of [expand] adds nothing, whatever the
    amount. *)
Lemma expandVertex_degenerate (pts : list (Point N)) (amount : N) (i : nat)
      (c : Point N * Point N * Point N) :
  corner pts i = Returns c -> degenerate ops c = true ->
  expandVertex ops pts amount i = Returns [].
Proof.
  intros Hc Hd. unfold expandVertex. rewrite Hc. cbn [bind].
  destruct c as [[a b] c]. now rewrite Hd.
Qed.

Lemma expand_returns (pts : list (Point N)) (amount : N) :
  exists result, expand ops pts amount = Returns result.
Proof.
  unfold expand, expandLoop.
  match goal with |- context [forM ?idx ?body ?s0] =>
    destruct (forM_invariant (fun _ _ => True) idx body s0 0 I) as [r [Er _]] end.
  - intros j i s0 Hj _. apply seq_nth_error in Hj. destruct Hj as [-> Hj].
    destruct (expandVertex_returns (pickClockwiseOrder ops pts) amount (0 + j)) as [new En];
      [simpl; lia|].
    rewrite En. cbn [bind]. eauto.
  - eauto.
Qed.

Lemma candidates_returns (segs : list (Segment (Point N))) (i : nat) :
  (i < length segs)%nat ->
  exists cands,
    candidates ops segs i = Returns cands
    /\ Forall (fun c => (i < fst c < length segs)%nat) cands.
Proof.
  intros Hi. unfold candidates, range.
  match goal with |- context [forM ?idx ?body ?s0] =>
    destruct (forM_invariant
                (fun _ acc => Forall (fun c => (i < fst c < length segs)%nat) acc)
                idx body s0 0 (Forall_nil _)) as [r [Er Ir]] end.
  - intros j k acc Hj Hacc. apply seq_nth_error in Hj. destruct Hj as [-> Hj].
    repeat read_in_range.
    match goal with |- context [intersectSegments ?o ?s1 ?s2] =>
      destruct (intersectSegments o s1 s2) as [inters|] end; [|eauto].
    destruct (validIntersection ops (Some inters)); [|eauto].
    eexists. split; [reflexivity|]. apply Forall_app. split; [exact Hacc|].
    constructor; [simpl; lia|constructor].
  - eauto.
Qed.

Lemma closer_fold (si : Segment (Point N)) (cands : list (nat * Intersection N))
      (acc : option (nat * Intersection N)) (Q : nat * Intersection N -> Prop) :
  Forall Q cands ->
  (forall d, acc = Some d -> Q d) ->
  forall d, fold_left (closer ops si) cands acc = Some d -> Q d.
Proof.
  revert acc. induction cands as [|c cands IH]; intros acc Hc Hacc d Hd.
  - simpl in Hd. auto.
  - inversion Hc as [|? ? Qc Hc']; subst. simpl in Hd.
    apply (IH (closer ops si acc c)); auto.
    intros d' Hd'. unfold closer in Hd'. destruct acc as [d1|].
    + destruct (ltb ops _ _); inversion Hd'; subst; auto.
    + inversion Hd'; subst; auto.
Qed.

Lemma removeLoop_returns (segs : list (Segment (Point N))) (fuel i : nat)
      (result : list (Point N)) :
  (length segs - i <= fuel)%nat ->
  exists r, removeLoop ops fuel segs i result = Returns r.
Proof.
  revert i result. induction fuel as [|fuel IH]; intros i result Hf.
  - simpl. destruct (Nat.ltb i (length segs)) eqn:L; [|eauto].
    apply Nat.ltb_lt in L. lia.
  - cbn [removeLoop]. destruct (Nat.ltb i (length segs)) eqn:L; [|eauto].
    apply Nat.ltb_lt in L.
    destruct (candidates_returns segs i L) as [cands [Ec Fc]]. rewrite Ec. cbn [bind].
    destruct (prop_of_nth segs i L) as [si Esi]. rewrite Esi. cbn [bind].
    destruct (fold_left (closer ops si) cands None) as [[index inters]|] eqn:Ecl.
    + assert (Hidx : (i < index < length segs)%nat).
      { apply (closer_fold si cands None (fun c => (i < fst c < length segs)%nat) Fc)
          with (d := (index, inters)); [discriminate|exact Ecl]. }
      destruct (Nat.ltb index (length segs - 1)).
      * destruct (prop_of_nth segs index) as [sj Esj]; [lia|]. rewrite Esj. cbn [bind].
        apply IH. lia.
      * apply IH. lia.
    + destruct (Nat.ltb i (length segs - 1)).
      * rewrite Esi. cbn [bind]. apply IH. lia.
      * apply IH. lia.
Qed.

Lemma removeSelfIntersectingParts_returns (pts : list (Point N)) :
  exists result, removeSelfIntersectingParts ops pts = Returns result.
Proof.
  unfold removeSelfIntersectingParts.
  destruct (segments (pickClockwiseOrder ops pts)) as [|s0 segs] eqn:Es; [eauto|].
  apply removeLoop_returns. lia.
Qed.

End Totality.

(** C4 fails on the code for a vertex between two neighbours on a vertical
    line: (10,5) lies on the segment from (10,0) to (10,10) (the cross product
    is 0), the test [collinear] computes Infinity - Infinity = NaN and
    answers false, and [expand] gives the vertex an offset vertex, (11,5). *)
Theorem expand_keeps_vertical_collinear_vertex :
  cross F64 (vec F64 (Ex.fpt 10 0) (Ex.fpt 10 5)) (vec F64 (Ex.fpt 10 0) (Ex.fpt 10 10))
  = lit F64 0
  /\ collinear F64 (Ex.fpt 10 0) (Ex.fpt 10 5) (Ex.fpt 10 10) = false
  /\ expand F64 Ex.squareMidRight (lit F64 1)
     = Returns [Ex.fpt (-1) (-1); Ex.fpt 11 (-1); Ex.fpt 11 5; Ex.fpt 11 11;
                Ex.fpt (-1) 11].
Proof. repeat split; reflexivity. Qed.

(** ** Offset by zero *)

Section ExpandZero.

Open Scope Z_scope.

Lemma corner_In {A : Type} (pts : list (Point A)) (i : nat) (a b c : Point A) :
  corner pts i = Returns (a, b, c) -> In a pts /\ In b pts /\ In c pts.
Proof.
  unfold corner. intros H.
  destruct (nth_error pts i) as [q|] eqn:E1; [|discriminate].
  cbn [prop_of bind] in H.
  destruct (ptAt pts (Z.of_nat i - 1)) as [q1|] eqn:E2; [|discriminate].
  cbn [prop_of bind] in H.
  destruct (ptAt pts (Z.of_nat i + 1)) as [q2|] eqn:E3; [|discriminate].
  cbn [prop_of bind] in H. inversion H; subst. unfold ptAt in *.
  repeat split; eapply nth_error_In; eassumption.
Qed.

Lemma ptEq_int (B : Z) (a b : Point Z) :
  B < 2 ^ 53 ->
  Z.abs (x a) <= B -> Z.abs (y a) <= B -> Z.abs (x b) <= B -> Z.abs (y b) <= B ->
  ptEq F64 (intPoint a) (intPoint b) = false -> x b - x a <> 0 \/ y b - y a <> 0.
Proof.
  intros HB A1 A2 A3 A4. unfold ptEq. cbn [intPoint x y eqb F64].
  rewrite (eqb_holds _ _ (x a) (x b)), (eqb_holds _ _ (y a) (y b))
    by (apply ofZ_holds; lia).
  intros H. apply andb_false_iff in H. destruct H as [H|H]; apply Z.eqb_neq in H; lia.
Qed.

(** The normal of a segment between two different integer points has finite
    coordinates. *)
Lemma normal_finite (B : Z) (a b : Point Z) :
  8 * B * B < 2 ^ 53 ->
  Z.abs (x a) <= B -> Z.abs (y a) <= B -> Z.abs (x b) <= B -> Z.abs (y b) <= B ->
  ptEq F64 (intPoint a) (intPoint b) = false ->
  finite (x (normal F64 (mkSegment (intPoint a) (intPoint b))))
  /\ finite (y (normal F64 (mkSegment (intPoint a) (intPoint b)))).
Proof.
  intros HB A1 A2 A3 A4 Hne.
  assert (B0 : 0 <= B) by lia.
  assert (B2 : 2 * B < 2 ^ 53) by nia.
  assert (C2 : 2 * (2 * B) * (2 * B) < 2 ^ 53) by lia.
  apply (ptEq_int B) in Hne; try lia.
  destruct (vec_holds B a b B2 A1 A2 A3 A4) as [Vx Vy].
  unfold normal. cbn [start end_]. unfold vecN.
  set (v0 := vec F64 (intPoint a) (intPoint b)) in *.
  cbn [vecZ x y] in Vx, Vy.
  pose proof (opp_holds _ _ Vx) as Nx. pose proof (opp_holds _ _ Vy) as Ny.
  assert (F1 : finite (x (normalized F64 (mkPoint (neg F64 (y v0)) (x v0))))
               /\ finite (y (normalized F64 (mkPoint (neg F64 (y v0)) (x v0))))).
  { apply (normalized_finite (2 * B) _ (- (y b - y a)) (x b - x a)); cbn [x y]; auto; lia. }
  assert (F2 : finite (x (normalized F64 (mkPoint (y v0) (neg F64 (x v0)))))
               /\ finite (y (normalized F64 (mkPoint (y v0) (neg F64 (x v0)))))).
  { apply (normalized_finite (2 * B) _ (y b - y a) (- (x b - x a))); cbn [x y]; auto; lia. }
  destruct (ltb F64 _ _); assumption.
Qed.

(** Offsetting an integer point by zero times a finite vector gives the
    point. *)
Lemma offset_zero (B : Z) (a : Point Z) (n : Point float) :
  B < 2 ^ 53 -> Z.abs (x a) <= B -> Z.abs (y a) <= B ->
  finite (x n) -> finite (y n) ->
  vec_plus F64 [intPoint a; vec_mult F64 n (lit F64 0)] = intPoint a.
Proof.
  intros HB A1 A2 Fx Fy. unfold vec_plus, vec_mult. cbn [fold_left x y intPoint].
  assert (Z0 : Prim2SF (lit F64 0) = encZ 0) by reflexivity.
  assert (E : forall (c : Z) (f : float),
             Z.abs c <= B -> finite f ->
             add F64 (add F64 (lit F64 0) (B64.ofZ c)) (mul F64 f (lit F64 0))
             = B64.ofZ c).
  { intros c f Hc Hf. apply enc_ofZ; [lia|]. cbn [add F64].
    replace c with (0 + c + 0) at 2 by lia.
    apply add_enc; [lia| |now apply mul_zero_holds|lia].
    apply add_enc; [simpl; lia|exact Z0|apply ofZ_holds; lia|lia]. }
  unfold intPoint. now rewrite !E.
Qed.

Lemma expandVertex_zero (B : Z) (pts : list (Point float)) (i : nat) (a b c : Point Z) :
  8 * B * B < 2 ^ 53 -> within B [a; b; c] ->
  corner pts i = Returns (intPoint a, intPoint b, intPoint c) ->
  degenerate F64 (intPoint a, intPoint b, intPoint c) = false ->
  resolvedCorner F64 (intPoint a, intPoint b, intPoint c) = true ->
  expandVertex F64 pts (lit F64 0) i = Returns [intPoint b].
Proof.
  intros HB HP Hc Hdeg Hres.
  destruct (HP a) as [A1 A2]; [simpl; auto|].
  destruct (HP b) as [A3 A4]; [simpl; auto|].
  destruct (HP c) as [A5 A6]; [simpl; auto|].
  assert (B0 : 0 <= B) by lia.
  assert (B2 : 2 * B < 2 ^ 53) by nia.
  assert (B1 : B < 2 ^ 53) by lia.
  assert (C2 : 2 * (2 * B) * (2 * B) < 2 ^ 53) by lia.
  unfold expandVertex. rewrite Hc. cbn [bind]. rewrite Hdeg.
  unfold degenerate in Hdeg.
  apply orb_false_iff in Hdeg. destruct Hdeg as [Hdeg _].
  apply orb_false_iff in Hdeg. destruct Hdeg as [Hbc Hab].
  destruct (normal_finite B a b HB A1 A2 A3 A4 Hab) as [N1x N1y].
  destruct (normal_finite B b c HB A3 A4 A5 A6 Hbc) as [N2x N2y].
  rewrite !(offset_zero B) by assumption. cbn [start end_].
  (* the two edges, as segments of integer points *)
  change (mkSegment (intPoint a) (intPoint b)) with (intSegment (mkSegment a b)).
  change (mkSegment (intPoint c) (intPoint b)) with (intSegment (mkSegment c b)).
  pose proof (intersectSegments_quotients B (mkSegment a b) (mkSegment c b)) as I.
  cbn [start end_] in I. cbv zeta in I.
  assert (HPs : within B [a; b; c; b]).
  { intros q [<-|[<-|[<-|[<-|[]]]]]; auto. }
  specialize (I HPs HB).
  (* the cross product of the corner *)
  unfold resolvedCorner in Hres. apply negb_true_iff in Hres.
  destruct (vec_holds B a c B2 A1 A2 A5 A6) as [Wx Wy].
  destruct (vec_holds B a b B2 A1 A2 A3 A4) as [Rx Ry].
  assert (HN : holds (cross F64 (vec F64 (intPoint a) (intPoint c))
                                 (vec F64 (intPoint a) (intPoint b)))
                     (crossZ (vecZ a c) (vecZ a b))).
  { apply (cross_holds (2 * B)); auto; unfold vecZ; cbn [x y]; lia. }
  rewrite (closeTo_zero_int _ _ HN) in Hres. apply Z.eqb_neq in Hres.
  assert (ED : crossZ (vecZ a b) (vecZ c b) = crossZ (vecZ a c) (vecZ a b))
    by (unfold crossZ, vecZ; cbn [x y]; ring).
  assert (EU : crossZ (vecZ a c) (vecZ c b) = crossZ (vecZ a c) (vecZ a b))
    by (unfold crossZ, vecZ; cbn [x y]; ring).
  rewrite ED, EU in I. specialize (I Hres).
  apply Z.eqb_neq in Hres. rewrite Hres in I. apply Z.eqb_neq in Hres.
  destruct I as [fu [fn [fd [HU [_ [HD ->]]]]]]. cbn [u].
  pose proof (div_same fu fd _ HU HD Hres) as H1.
  f_equal. f_equal.
  unfold vec_plus, vec_mult, vec. cbn [fold_left x y intPoint].
  assert (Z0 : Prim2SF (lit F64 0) = encZ 0) by reflexivity.
  assert (E : forall p q : Z,
             Z.abs p <= B -> Z.abs q <= B ->
             add F64 (add F64 (lit F64 0) (B64.ofZ p))
                     (mul F64 (sub F64 (B64.ofZ q) (B64.ofZ p)) (div F64 fu fd))
             = B64.ofZ q).
  { intros p q Hp Hq. apply enc_ofZ; [lia|]. cbn [add F64].
    replace q with (0 + p + (q - p) * 1) at 2 by ring.
    apply add_enc; [lia| | |].
    - apply add_enc; [simpl; lia|exact Z0|apply ofZ_holds; lia|lia].
    - apply mul_holds; [apply sub_holds; try (apply ofZ_holds; lia); lia|exact H1|lia].
    - lia. }
  unfold intPoint. now rewrite !E.
Qed.

Lemma pickClockwiseOrder_int (P : list (Point Z)) :
  exists P', pickClockwiseOrder F64 (map intPoint P) = map intPoint P'
             /\ (forall q, In q P' -> In q P).
Proof.
  unfold pickClockwiseOrder.
  destruct (Nat.leb _ _); [exists P; auto|].
  destruct (areWindingClockwise _ _); [exists P; auto|].
  exists (rev P). split; [symmetry; apply map_rev|]. intros q. apply in_rev.
Qed.

(** C3 (amended): for every polygon P with integer coordinates of at most B
    in absolute value, where 8 B^2 < 2^53, such that, in its canonical
    clockwise order, every vertex that [expand] does not skip as degenerate
    has adjacent edges whose cross product is not 0 (by the test of
    [intersectSegments]), [expand(P, 0)] returns exactly the canonical
    clockwise reordering of P without the skipped vertices. *)
Theorem expand_zero (B : Z) (P : list (Point Z)) :
  within B P -> 8 * B * B < 2 ^ 53 ->
  cornersResolved F64 (pickClockwiseOrder F64 (map intPoint P)) = true ->
  expand F64 (map intPoint P) (lit F64 0)
  = Returns (keptVertices F64 (pickClockwiseOrder F64 (map intPoint P))).
Proof.
  intros HP HB Hres. unfold expand, expandLoop, keptVertices.
  destruct (pickClockwiseOrder_int P) as [P' [EP HP']]. rewrite EP in *.
  apply (forM_collect _ (expandVertex F64 (map intPoint P') (lit F64 0))
                       (keptAt F64 (map intPoint P')) []). intros i Hi.
  unfold cornersResolved in Hres. rewrite forallb_forall in Hres.
  specialize (Hres i Hi). unfold keptAt.
  rewrite corner_map in *.
  destruct (corner P' i) as [[[a b] c]| |] eqn:Ec; try discriminate.
  destruct (degenerate F64 (intPoint a, intPoint b, intPoint c)) eqn:Hdeg.
  - unfold expandVertex. rewrite corner_map, Ec. cbn [bind]. now rewrite Hdeg.
  - cbn [orb] in Hres. cbn [snd fst]. apply (expandVertex_zero B _ _ a b c); auto.
    + apply corner_In in Ec. destruct Ec as [Ia [Ib Ic]].
      intros q [<-|[<-|[<-|[]]]]; apply HP, HP'; assumption.
    + now rewrite corner_map, Ec.
Qed.

End ExpandZero.

(** The witness of C3: the square with a vertex in the middle of its top
    edge; the middle vertex is skipped and the four corners are returned. *)
Lemma expand_zero_witness :
  within 10 Ex.squareMidZ
  /\ (8 * 10 * 10 < 2 ^ 53)%Z
  /\ cornersResolved F64 (pickClockwiseOrder F64 (map intPoint Ex.squareMidZ)) = true
  /\ expand F64 (map intPoint Ex.squareMidZ) (lit F64 0)
     = Returns (keptVertices F64 (pickClockwiseOrder F64 (map intPoint Ex.squareMidZ))).
Proof.
  assert (H1 : within 10 Ex.squareMidZ).
  { intros q [<-|[<-|[<-|[<-|[<-|[]]]]]]; simpl; lia. }
  assert (H2 : (8 * 10 * 10 < 2 ^ 53)%Z) by reflexivity.
  assert (H3 : cornersResolved F64 (pickClockwiseOrder F64 (map intPoint Ex.squareMidZ))
               = true) by (vm_compute; reflexivity).
  split; [exact H1|]. split; [exact H2|]. split; [exact H3|].
  exact (expand_zero 10 Ex.squareMidZ H1 H2 H3).
Defined.

(** C3 as stated fails in three ways.  No vertex of the right triangle with
    legs 1e-5 is skipped, and [expand] by 0 moves its vertices by up to
    1e-5, more than the tolerance 1e-6: the cross products at its corners
    are 1e-10, within 1e-9 of 0, so the offset edges are intersected as if
    collinear.  The cross products are rounded when the coordinates are not
    integers, or are integers too large: no vertex of the quadrilateral
    (0,0), (0.001,1000), (0.002000000002,2000), (-500,1000) is skipped and
    its corners are resolved, and [expand] by 0 moves its second vertex by
    1.1e-4; of (0,0), (100003,1000000000007), (200007,2000000000014),
    (-500015,1000000000007) it moves the second vertex by 16.  And a polygon
    of one point comes back empty. *)
Lemma expand_zero_moves_vertices :
  (keptVertices F64 (pickClockwiseOrder F64 Ex.tiny) = pickClockwiseOrder F64 Ex.tiny
   /\ exists result,
       expand F64 Ex.tiny (lit F64 0) = Returns result
       /\ nearPoly F64 (lit F64 1e-6) result (pickClockwiseOrder F64 Ex.tiny) = false)
  /\ (keptVertices F64 (pickClockwiseOrder F64 Ex.sliver) = pickClockwiseOrder F64 Ex.sliver
      /\ cornersResolved F64 (pickClockwiseOrder F64 Ex.sliver) = true
      /\ exists result,
          expand F64 Ex.sliver (lit F64 0) = Returns result
          /\ nearPoly F64 (lit F64 1e-6) result (pickClockwiseOrder F64 Ex.sliver) = false)
  /\ (let P := map intPoint Ex.farSliver in
      keptVertices F64 (pickClockwiseOrder F64 P) = pickClockwiseOrder F64 P
      /\ cornersResolved F64 (pickClockwiseOrder F64 P) = true
      /\ exists result,
          expand F64 P (lit F64 0) = Returns result
          /\ nearPoly F64 (lit F64 1e-6) result (pickClockwiseOrder F64 P) = false)
  /\ expand F64 [Ex.fpt 0 0] (lit F64 0) = Returns []
  /\ pickClockwiseOrder F64 [Ex.fpt 0 0] = [Ex.fpt 0 0].
Proof.
  split; [split; [reflexivity|eexists; split; reflexivity]|].
  split; [|split; [|split; reflexivity]].
  - split; [vm_compute; reflexivity|]. split; [vm_compute; reflexivity|].
    eexists. split; [vm_compute; reflexivity|]. vm_compute; reflexivity.
  - split; [vm_compute; reflexivity|]. split; [vm_compute; reflexivity|].
    eexists. split; [vm_compute; reflexivity|]. vm_compute; reflexivity.
Qed.

(* ================================================================== *)
(** * Polygon union *)

(** ** Containment

    When no segments cross, [polyUnion] decides by [inside], a parity count
    of the edges that a ray from the point meets. *)

(** C1 fails on the code.  The unit square at (4,5) lies strictly inside the
    convex pentagon (8,0),(10,5),(8,10),(0,10),(0,0), none of their segments
    cross, yet the union is the two-element list: the ray from (4,5) passes
    through the tip (10,5) of the pentagon and [inside] counts it once for
    each of the two edges that meet there.  The unit square at (-5,5) lies
    to the left of the pentagon, outside it, yet the union is the pentagon
    alone: the ray from (-5,5) meets the left edge once and the tip twice,
    an odd count. *)
Theorem polyUnion_misses_containment :
  let A := objects 0 (map intPoint Ex.pentagon) in
  let B := objects 5 (map intPoint Ex.innerSquare) in
  let C := objects 5 (map intPoint Ex.leftSquare) in
  (forallb (strictlyInsideConvex Ex.pentagon) Ex.innerSquare = true
   /\ noCrossing F64 A B = true
   /\ inside F64 (vals A) (intPoint (Ex.zpt 4 5)) = false
   /\ forall (at2 : float -> float -> float) (next : nat),
       polyUnion F64 at2 next A B = Returns [A; B])
  /\ (leftOf Ex.pentagon Ex.leftSquare = true
      /\ noCrossing F64 A C = true
      /\ inside F64 (vals A) (intPoint (Ex.zpt (-5) 5)) = true
      /\ forall (at2 : float -> float -> float) (next : nat),
          polyUnion F64 at2 next A C = Returns [A]).
Proof.
  intros A B C. split.
  - split; [reflexivity|]. split; [vm_compute; reflexivity|].
    split; [vm_compute; reflexivity|]. intros at2 next. vm_compute. reflexivity.
  - split; [reflexivity|]. split; [vm_compute; reflexivity|].
    split; [vm_compute; reflexivity|]. intros at2 next. vm_compute. reflexivity.
Qed.

(** C9 fails on the code: the square has no crossing with itself, the ray
    from its first vertex (0,0) meets two of its own segments (the top edge
    at u = 0, and the right edge at u = 0, v = 10), so [inside] answers false
    and the union returns the two-element list of the square and the square. *)
Theorem polyUnion_square_with_itself :
  let A := objects 0 Ex.square in
  inside F64 Ex.square (Ex.fpt 0 0) = false
  /\ forall (at2 : float -> float -> float) (next : nat),
      polyUnion F64 at2 next A A = Returns [A; A].
Proof.
  intros A. split; [reflexivity|]. intros at2 next. vm_compute. reflexivity.
Qed.

(** C5 fails on the code for [polyUnion]: the square with its vertex (10,0)
    twice (a segment of length zero) crosses the rectangle (5,5)-(14,15);
    the walk starts at (10,0), which has four neighbours in the graph, and
    [vec(prevPt, v)] reads a property of [prevPt = null]: a [TypeError]. *)
Theorem polyUnion_zero_length_segment_throws :
  forall (at2 : float -> float -> float) (next : nat),
    polyUnion F64 at2 next (objects 0 Ex.squareDup) (objects 5 Ex.overlapping) = Throws.
Proof. intros at2 next. vm_compute. reflexivity. Qed.

(** ** The walk along the boundary ends within its bound

    The bound of [trace] is enough in every instance whose equality test
    answers true on a number that it has found equal to another (NaN apart,
    [===] is such a test). *)

Section TraceTerminates.

Context {N : Type} (ops : NumOps N) (atan2 : N -> N -> N).

Hypothesis eqb_found_refl : forall a b : N, eqb ops a b = true -> eqb ops b b = true.

Lemma ptEqO_found_refl (a b : PtObj N) : ptEqO ops a b = true -> ptEqO ops b b = true.
Proof.
  unfold ptEqO, ptEq. intros H. apply andb_true_iff in H. destruct H as [Hx Hy].
  apply eqb_found_refl in Hx. apply eqb_found_refl in Hy. now rewrite Hx, Hy.
Qed.

Lemma getNeighbours_found (g : list (Node N)) (v0 : PtObj N) (nb : list (PtObj N)) :
  getNeighbours ops g v0 = Returns nb ->
  ptEqO ops v0 v0 = true /\ forall n, In n nb -> In n (entries g).
Proof.
  unfold getNeighbours. destruct (find _ g) as [el|] eqn:F; [|discriminate].
  cbn [prop_of bind]. intros H. inversion H; subst nb. clear H.
  apply find_some in F. destruct F as [Hin Heq]. split.
  - exact (ptEqO_found_refl _ _ Heq).
  - intros n Hn. unfold entries. apply in_flat_map. exists el. auto.
Qed.

Lemma getNeighbours_no_bound (g : list (Node N)) (v0 : PtObj N) :
  getNeighbours ops g v0 <> OutOfFuel.
Proof. unfold getNeighbours. destruct (find _ g); discriminate. Qed.

Lemma furthestFromLowestLeft_no_bound (pts : list (PtObj N)) :
  furthestFromLowestLeft ops pts <> OutOfFuel.
Proof.
  unfold furthestFromLowestLeft, reduce1.
  destruct pts as [|q0 pts]; [discriminate|]. cbn [map bind].
  match goal with |- context [nth_error ?l 0] => destruct (nth_error l 0) end;
    discriminate.
Qed.

Lemma isVisited_push (visited : list (PtObj N)) (x0 n : PtObj N) :
  isVisited ops (visited ++ [x0]) n = isVisited ops visited n || ptEqO ops x0 n.
Proof. unfold isVisited. rewrite existsb_app. simpl. now rewrite orb_false_r. Qed.

Lemma filter_shrinks {A : Type} (f g : A -> bool) (l : list A) (a : A) :
  (forall b, g b = true -> f b = true) ->
  In a l -> f a = true -> g a = false ->
  (length (filter g l) < length (filter f l))%nat.
Proof.
  intros Hgf. 
  assert (Hle : forall l', (length (filter g l') <= length (filter f l'))%nat).
  { induction l' as [|b l' IH]; simpl; [lia|].
    destruct (g b) eqn:Gb; [rewrite (Hgf b Gb); simpl; lia|].
    destruct (f b); simpl; lia. }
  induction l as [|b l IH]; intros Hin Hf Hg; [contradiction|].
  simpl. destruct Hin as [->|Hin].
  - rewrite Hf, Hg. simpl. specialize (Hle l). lia.
  - specialize (IH Hin Hf Hg). destruct (g b) eqn:Gb; [rewrite (Hgf b Gb); simpl; lia|].
    destruct (f b); simpl; lia.
Qed.

Lemma unvisited_push (g : list (Node N)) (visited : list (PtObj N)) (x0 : PtObj N) :
  In x0 (entries g) -> isVisited ops visited x0 = false -> ptEqO ops x0 x0 = true ->
  (unvisited ops g (visited ++ [x0]) < unvisited ops g visited)%nat.
Proof.
  intros Hin Hv Hr. unfold unvisited. apply filter_shrinks with (a := x0); auto.
  - intros b Hb. rewrite isVisited_push in Hb. apply negb_true_iff in Hb.
    apply orb_false_iff in Hb. destruct Hb as [Hb _]. now rewrite Hb.
  - now rewrite Hv.
  - rewrite isVisited_push, Hr, orb_true_r. reflexivity.
Qed.

Lemma unvisited_positive (g : list (Node N)) (visited : list (PtObj N)) (x0 : PtObj N) :
  In x0 (entries g) -> isVisited ops visited x0 = false ->
  (1 <= unvisited ops g visited)%nat.
Proof.
  intros Hin Hv. unfold unvisited.
  assert (H : In x0 (filter (fun n => negb (isVisited ops visited n)) (entries g))).
  { apply filter_In. split; [exact Hin|now rewrite Hv]. }
  destruct (filter _ (entries g)); [contradiction|simpl; lia].
Qed.

Lemma unvisited_bound (g : list (Node N)) (visited : list (PtObj N)) :
  (unvisited ops g visited <= length (entries g))%nat.
Proof. unfold unvisited. apply filter_length_le. Qed.

Lemma insertBy_In {A : Type} (cmp : A -> A -> N) (a b : A) (l : list A) :
  In b (insertBy ops cmp a l) -> b = a \/ In b l.
Proof.
  induction l as [|c l IH]; simpl.
  - intros [H|[]]; auto.
  - destruct (ltb ops (cmp a c) (lit ops 0)); simpl.
    + intros [H|[H|H]]; auto.
    + intros [H|H]; auto. destruct (IH H); auto.
Qed.

Lemma sortBy_In {A : Type} (cmp : A -> A -> N) (b : A) (l : list A) :
  In b (sortBy ops cmp l) -> In b l.
Proof.
  unfold sortBy.
  assert (H : forall acc, In b (fold_left (fun sorted a => insertBy ops cmp a sorted) l acc) ->
                          In b acc \/ In b l).
  { induction l as [|a l IH]; simpl; intros acc Hb; [auto|].
    destruct (IH _ Hb) as [H|H]; [|auto].
    destruct (insertBy_In _ _ _ _ H); subst; auto. }
  intros Hb. destruct (H [] Hb) as [[]|Hl]. exact Hl.
Qed.

Lemma ready_push (g : list (Node N)) (fuel : nat) (visited : list (PtObj N))
      (x0 : PtObj N) :
  (unvisited ops g visited <= fuel)%nat ->
  In x0 (entries g) -> isVisited ops visited x0 = false ->
  ready ops g fuel [x0] (visited ++ [x0]).
Proof.
  intros Hf Hin Hv. unfold ready. split.
  - pose proof (unvisited_positive g visited x0 Hin Hv). lia.
  - intros Hr. pose proof (unvisited_push g visited x0 Hin Hv Hr). lia.
Qed.

Lemma trace_within_bound (g : list (Node N)) (fuel : nat)
      (q visited result : list (PtObj N)) (prevPt : option (PtObj N)) :
  ready ops g fuel q visited ->
  trace ops atan2 fuel g q visited result prevPt true <> OutOfFuel.
Proof.
  revert q visited result prevPt.
  induction fuel as [|fuel IH]; intros q visited result prevPt Hr.
  - destruct q as [|v0 [|v1 q]]; simpl in *; [discriminate|lia|contradiction].
  - destruct q as [|v0 [|v1 q]]; [simpl; discriminate| |simpl in Hr; contradiction].
    destruct Hr as [_ Hr]. cbn [trace app].
    pose proof (getNeighbours_no_bound g v0) as Gn.
    destruct (getNeighbours ops g v0) as [neighb| |] eqn:G; cbn [bind];
      [|discriminate|contradiction].
    clear Gn. destruct (getNeighbours_found g v0 neighb G) as [Hv0 Hnb].
    specialize (Hr Hv0).
    assert (Hf : (unvisited ops g visited <= fuel)%nat) by lia.
    assert (Hfirst :
      forall prev0 : PtObj N,
        prevPt = Some prev0 ->
        bind (prop_of (nth_error
               (sortBy ops
                  (fun p1 p2 =>
                     sub ops
                       (angleBetween ops atan2 (vec ops (val prev0) (val v0))
                                     (vec ops (val v0) (val p1)))
                       (angleBetween ops atan2 (vec ops (val prev0) (val v0))
                                     (vec ops (val v0) (val p2))))
                  (filter (differsFrom prevPt) neighb)) 0))
          (fun first =>
             if negb (isVisited ops visited first)
             then trace ops atan2 fuel g ([] ++ [first]) (visited ++ [first])
                        (result ++ [v0]) (Some v0) true
             else trace ops atan2 fuel g [] visited (result ++ [v0]) (Some v0) true)
        <> OutOfFuel).
    { intros prev0 _.
      match goal with |- context [nth_error ?l 0] => destruct (nth_error l 0) as [first|] eqn:Ef end;
        cbn [prop_of bind]; [|discriminate].
      destruct (isVisited ops visited first) eqn:Vf; cbn [negb].
      - apply IH. exact I.
      - apply IH. apply ready_push; auto.
        apply Hnb. apply nth_error_In in Ef. apply sortBy_In in Ef.
        apply filter_In in Ef. tauto. }
    destruct neighb as [|n0 [|n1 [|n2 rest]]].
    + destruct prevPt as [prev0|]; cbn [prop_of bind]; [|discriminate].
      apply (Hfirst prev0 eq_refl).
    + destruct prevPt as [prev0|]; cbn [prop_of bind]; [|discriminate].
      apply (Hfirst prev0 eq_refl).
    + destruct (find _ [n0; n1]) as [next|] eqn:Fn.
      * apply IH. apply find_some in Fn. destruct Fn as [Hin Hp].
        apply andb_true_iff in Hp. destruct Hp as [_ Hp]. apply negb_true_iff in Hp.
        apply ready_push; auto.
      * apply IH. exact I.
    + destruct prevPt as [prev0|]; cbn [prop_of bind]; [|discriminate].
      apply (Hfirst prev0 eq_refl).
Qed.

(** [polyUnion] returns or throws: the bound on its walk is never reached. *)
Theorem polyUnion_within_bound (next : nat) (poly1 poly2 : list (PtObj N)) :
  polyUnion ops atan2 next poly1 poly2 <> OutOfFuel.
Proof.
  unfold polyUnion.
  destruct (haveIntersection _); cbn [negb].
  - pose proof (furthestFromLowestLeft_no_bound (poly1 ++ poly2)) as Fn.
    destruct (furthestFromLowestLeft ops (poly1 ++ poly2)) as [sorted| |];
      cbn [bind]; [|discriminate|contradiction].
    set (g := mergeGraphs ops _ _). clearbody g.
    assert (Ht : trace ops atan2 (traceFuel g) g [fst sorted] [fst sorted] [] None false
                 <> OutOfFuel).
    { unfold traceFuel. change (2 + ?n)%nat with (S (S n)).
      remember (S (length (flat_map (@neighbours N) g))) as fuel eqn:Hfuel.
      cbn [trace app].
      pose proof (getNeighbours_no_bound g (fst sorted)) as Gn.
      destruct (getNeighbours ops g (fst sorted)) as [neighb| |] eqn:G; cbn [bind];
        [|discriminate|contradiction].
      destruct neighb as [|n0 [|n1 [|n2 rest]]]; cbn [prop_of bind]; try discriminate.
      apply trace_within_bound. unfold ready. split; [lia|]. intros _.
      pose proof (unvisited_bound g ([fst sorted] ++ [if areWindingClockwise ops
                    [val n1; val (fst sorted); val n0] then n0 else n1])).
      unfold entries in *. cbn [app] in *. lia. }
    destruct (trace _ _ _ _ _ _ _ _ _); cbn [bind]; congruence.
  - repeat match goal with |- context [if ?c then _ else _] => destruct c end;
      discriminate.
Qed.

End TraceTerminates.

Lemma SFcompare_refl (f : spec_float) : f <> S754_nan -> SFcompare f f = Some Eq.
Proof.
  destruct f as [s|s| |s m e]; intros H; try reflexivity; try congruence.
  - destruct s; reflexivity.
  - simpl. rewrite Z.compare_refl.
    change (PosDef.Pos.compare_cont Eq m m) with (Pos.compare m m).
    rewrite Pos.compare_refl. destruct s; reflexivity.
Qed.

Lemma F64_eqb_found_refl (a b : float) : eqb F64 a b = true -> eqb F64 b b = true.
Proof.
  cbn [eqb F64]. rewrite !FloatAxioms.eqb_spec. unfold SFeqb. intros H.
  rewrite SFcompare_refl; [reflexivity|].
  intros Hb. rewrite Hb in H. destruct (Prim2SF a); simpl in H; discriminate.
Qed.

(** In binary64 [polyUnion] returns or throws. *)
Corollary polyUnion_F64_within_bound (at2 : float -> float -> float) (next : nat)
          (poly1 poly2 : list (PtObj float)) :
  polyUnion F64 at2 next poly1 poly2 <> OutOfFuel.
Proof. apply polyUnion_within_bound. exact F64_eqb_found_refl. Qed.

(* ================================================================== *)
(** * The inputs are left as they were *)

Section HeapFacts.

Context {N : Type} (ops : NumOps N) (atan2 : N -> N -> N).

Lemma setArr_last (arrs : list (list (PtObj N))) (a0 a : list (PtObj N)) :
  setArr (length arrs) a (arrs ++ [a0]) = arrs ++ [a].
Proof. induction arrs as [|b arrs IH]; simpl; [reflexivity|now rewrite IH]. Qed.

Lemma nth_error_last {A : Type} (l : list A) (a : A) :
  nth_error (l ++ [a]) (length l) = Some a.
Proof. rewrite nth_error_app2, Nat.sub_diag by lia. reflexivity. Qed.

Lemma preserved_app (h : @Store N) (extra : list (list (PtObj N))) (n : nat) :
  preserved h (mkStore (arrays h ++ extra) n).
Proof.
  intros l a H. cbn [arrays]. rewrite nth_error_app1; [exact H|].
  apply nth_error_Some. congruence.
Qed.

Lemma vals_objects (n : nat) (vs : list (Point N)) : vals (objects n vs) = vs.
Proof.
  revert n. induction vs as [|v0 vs IH]; intros n; [reflexivity|].
  unfold vals in *. simpl. f_equal. apply IH.
Qed.

Lemma polyUnionS_pure (h : @Store N) (poly1 poly2 : nat) (a1 a2 : list (PtObj N)) :
  nth_error (arrays h) poly1 = Some a1 ->
  nth_error (arrays h) poly2 = Some a2 ->
  preserved h (snd (polyUnionS ops atan2 poly1 poly2 h))
  /\ bind (fst (polyUnionS ops atan2 poly1 poly2 h))
          (derefAll (snd (polyUnionS ops atan2 poly1 poly2 h)))
     = polyUnion ops atan2 (nextAddr h) a1 a2.
Proof.
  intros H1 H2. unfold polyUnionS, polyUnion, bindS, readArr, getNext, setNext.
  rewrite H1, H2. cbn [prop_of].
  set (sc := scan ops (nextAddr h) a1 a2).
  destruct (haveIntersection sc); cbn [negb].
  - (* the boundary is traced *)
    unfold allocArr, writeArr, liftS, retS. cbn [arrays nextAddr].
    rewrite nth_error_last. cbn [prop_of].
    destruct (furthestFromLowestLeft ops (a1 ++ a2)) as [sorted| |]; cbn [bind fst snd].
    + rewrite setArr_last.
      match goal with |- context [trace ?o ?a ?f ?g ?q ?vi ?r ?pr ?k] =>
        destruct (trace o a f g q vi r pr k) as [result| |] end; cbn [bind fst snd].
      * split.
        { rewrite <- app_assoc. apply preserved_app. }
        cbn [derefAll arrays]. rewrite length_app, Nat.add_comm.
        change (length [snd sorted] + length (arrays h))%nat
          with (S (length (arrays h))).
        replace (S (length (arrays h))) with (length (arrays h ++ [snd sorted]))
          by (rewrite length_app; simpl; lia).
        rewrite nth_error_last. reflexivity.
      * split; [apply preserved_app|reflexivity].
      * split; [apply preserved_app|reflexivity].
    + split; [apply preserved_app|reflexivity].
    + split; [apply preserved_app|reflexivity].
  - (* no intersection *)
    assert (Hp : forall n, preserved h (mkStore (arrays h) n)).
    { intros n l a Hl. exact Hl. }
    unfold retS.
    destruct a2 as [|q2 a2'].
    + cbn [fst snd bind derefAll arrays]. rewrite H1. split; [apply Hp|reflexivity].
    + destruct (inside ops (vals a1) (val q2)).
      * cbn [fst snd bind derefAll arrays]. rewrite H1. split; [apply Hp|reflexivity].
      * destruct a1 as [|q1 a1'].
        { cbn [fst snd bind derefAll arrays]. rewrite H2. split; [apply Hp|reflexivity]. }
        destruct (inside ops _ (val q1)); cbn [fst snd bind derefAll arrays];
          rewrite ?H1, ?H2; cbn [prop_of bind]; rewrite ?H1, ?H2; split; try apply Hp; reflexivity.
Qed.

Lemma preserved_refl (h : @Store N) : preserved h h.
Proof. intros l a H. exact H. Qed.

Lemma preserved_trans (h1 h2 h3 : @Store N) :
  preserved h1 h2 -> preserved h2 h3 -> preserved h1 h3.
Proof. intros H12 H23 l a H. apply H23, H12, H. Qed.

Lemma pickClockwiseOrderS_pure (h : @Store N) (pts : nat) (a : list (PtObj N)) :
  nth_error (arrays h) pts = Some a ->
  exists p1 h1 a',
    pickClockwiseOrderS ops pts h = (Returns p1, h1)
    /\ preserved h h1
    /\ nth_error (arrays h1) p1 = Some a'
    /\ vals a' = pickClockwiseOrder ops (vals a).
Proof.
  intros H. unfold pickClockwiseOrderS, pickClockwiseOrder, bindS, readArr.
  rewrite H. cbn [prop_of]. replace (length (vals a)) with (length a)
    by (unfold vals; now rewrite length_map).
  destruct (Nat.leb (length a) 2).
  - exists pts, h, a. repeat split; auto using preserved_refl.
  - destruct (areWindingClockwise ops (vals a)).
    + exists pts, h, a. repeat split; auto using preserved_refl.
    + unfold allocArr, writeArr, retS. cbn [arrays nextAddr]. rewrite setArr_last.
      eexists _, _, (rev a). split; [reflexivity|]. split; [apply preserved_app|].
      split; [apply nth_error_last|]. unfold vals. apply map_rev.
Qed.

Lemma expandS_pure (h : @Store N) (pts : nat) (a : list (PtObj N)) (amount : N) :
  nth_error (arrays h) pts = Some a ->
  preserved h (snd (expandS ops pts amount h))
  /\ bind (fst (expandS ops pts amount h)) (derefVals (snd (expandS ops pts amount h)))
     = expand ops (vals a) amount.
Proof.
  intros H.
  destruct (pickClockwiseOrderS_pure h pts a H) as (p1 & h1 & a' & E1 & P1 & R1 & V1).
  assert (Eexp : expandS ops pts amount h
                 = match expandLoop ops (vals a') amount with
                   | Returns vs =>
                       (Returns (length (arrays h1)),
                        mkStore (arrays h1 ++ [objects (nextAddr h1) vs])
                                (nextAddr h1 + length vs))
                   | Throws => (Throws, h1)
                   | OutOfFuel => (OutOfFuel, h1)
                   end).
  { unfold expandS, bindS. rewrite E1. unfold readArr. rewrite R1. cbn [prop_of].
    unfold liftS, newPoints, allocArr.
    destruct (expandLoop ops (vals a') amount); reflexivity. }
  rewrite Eexp. unfold expand. rewrite <- V1.
  destruct (expandLoop ops (vals a') amount) as [vs| |]; cbn [fst snd bind]; auto.
  split.
  - eapply preserved_trans; [exact P1|]. apply (preserved_app h1).
  - unfold derefVals. cbn [arrays]. rewrite nth_error_last. cbn [prop_of bind].
    now rewrite vals_objects.
Qed.


(** C6: [polyUnion(polyA, polyB)] and [expand(polygon, distance)] leave
    their input arrays, and every other array of the store, with the point
    objects and the values they had, and what they return is what the
    functions [polyUnion] and [expand] of the contents of the input arrays
    give (for [polyUnion] together with the next free address, which
    names the point objects it creates). *)
Theorem union_expand_leave_inputs (h : @Store N) (poly1 poly2 pts : nat)
        (a1 a2 a : list (PtObj N)) (amount : N) :
  nth_error (arrays h) poly1 = Some a1 ->
  nth_error (arrays h) poly2 = Some a2 ->
  nth_error (arrays h) pts = Some a ->
  unionIsPure ops atan2 h poly1 poly2 a1 a2 /\ expandIsPure ops h pts a amount.
Proof.
  intros H1 H2 H. split.
  - apply polyUnionS_pure; assumption.
  - apply expandS_pure; assumption.
Qed.

End HeapFacts.

(** The witness of C6: the store with the square and the far square. *)
Lemma union_expand_leave_inputs_witness :
  let A := objects 0 Ex.square in
  let B := objects 4 Ex.farSquare in
  nth_error (arrays Ex.store0) 0 = Some A
  /\ nth_error (arrays Ex.store0) 1 = Some B
  /\ forall at2 : float -> float -> float,
      unionIsPure F64 at2 Ex.store0 0 1 A B
      /\ expandIsPure F64 Ex.store0 0 A (lit F64 1).
Proof.
  intros A B. split; [reflexivity|]. split; [reflexivity|].
  intros at2.
  apply (union_expand_leave_inputs F64 at2 Ex.store0 0 1 0 A B A (lit F64 1));
    reflexivity.
Defined.

(* ================================================================== *)
(** * Loops that throw, and [map] with a callback that may throw *)

Section LoopErrors.

Context {S : Type}.

(** A loop throws when one of its turns throws from every state and no turn
    runs out of fuel. *)
Lemma forM_throws (idx : list nat) (body : nat -> S -> outcome S) (i0 : nat) :
  (forall i s, In i idx -> body i s <> OutOfFuel) ->
  In i0 idx ->
  (forall s, body i0 s = Throws) ->
  forall s, forM idx body s = Throws.
Proof.
  intros Hfuel Hin Hthrow. induction idx as [|i idx IH]; intros s; [contradiction|].
  rewrite forM_cons.
  destruct (Nat.eq_dec i i0) as [->|Hne].
  - now rewrite Hthrow.
  - destruct (body i s) as [s'| |] eqn:E; cbn [bind].
    + apply IH.
      * intros j s0 Hj. apply Hfuel. now right.
      * destruct Hin as [Hin|Hin]; [contradiction|exact Hin].
    + reflexivity.
    + exfalso. apply (Hfuel i s); [now left|exact E].
Qed.

End LoopErrors.

Lemma mapFrom_returns {A B : Type} (f : A -> nat -> outcome B) (g : A -> nat -> B)
      (arr : list A) (k : nat) :
  (forall j a, nth_error arr j = Some a -> f a (k + j)%nat = Returns (g a (k + j)%nat)) ->
  mapFrom f k arr
  = Returns (map (fun '(j, a) => g a j) (combine (seq k (length arr)) arr)).
Proof.
  revert k. induction arr as [|a arr IH]; intros k H; [reflexivity|].
  cbn [mapFrom]. rewrite <- (Nat.add_0_r k) at 1. rewrite (H 0%nat a eq_refl).
  cbn [bind]. rewrite IH.
  - cbn [bind length seq combine map]. now rewrite Nat.add_0_r.
  - intros j a' Hj. replace (Datatypes.S k + j)%nat with (k + Datatypes.S j)%nat by lia.
    now apply H.
Qed.

(** [map] throws when the callback throws at one element and runs out of
    fuel at none. *)
Lemma mapFrom_throws {A B : Type} (f : A -> nat -> outcome B) (arr : list A) (k j : nat)
      (a : A) :
  (forall a' i, f a' i <> OutOfFuel) ->
  nth_error arr j = Some a ->
  f a (k + j)%nat = Throws ->
  mapFrom f k arr = Throws.
Proof.
  intros Hfuel. revert k j. induction arr as [|a0 arr IH]; intros k j Hj Hf.
  - now destruct j.
  - cbn [mapFrom]. destruct j as [|j].
    + inversion Hj; subst. rewrite Nat.add_0_r in Hf. now rewrite Hf.
    + destruct (f a0 k) as [b| |] eqn:E; cbn [bind]; [|reflexivity|now elim (Hfuel a0 k)].
      rewrite (IH (Datatypes.S k) j); [reflexivity|exact Hj|].
      now replace (Datatypes.S k + j)%nat with (k + Datatypes.S j)%nat by lia.
Qed.

Lemma mapFrom_no_bound {A B : Type} (f : A -> nat -> outcome B) (arr : list A) (k : nat) :
  (forall a' i, f a' i <> OutOfFuel) -> mapFrom f k arr <> OutOfFuel.
Proof.
  intros Hfuel. revert k. induction arr as [|a arr IH]; intros k; cbn [mapFrom];
    [discriminate|].
  destruct (f a k) as [b| |] eqn:E; cbn [bind]; [|discriminate|now elim (Hfuel a k)].
  specialize (IH (Datatypes.S k)).
  destruct (mapFrom f (Datatypes.S k) arr) as [bs| |]; cbn [bind]; congruence.
Qed.

(* ================================================================== *)
(** * Control points of a pointset *)

Section ControlPoints.

Context {N : Type} (ops : NumOps N).

Lemma getControlPointsFromTangents_handles (points tangents : list (Point N)) :
  (length points <= length tangents)%nat ->
  getControlPointsFromTangents ops points tangents
  = Returns (flat_map (handlesAt ops points tangents) (seq 0 (length points - 1))).
Proof.
  intros Hl. unfold getControlPointsFromTangents.
  match goal with
  | |- context [forM ?idx ?body ?s0] =>
      destruct (forM_invariant
                  (fun j res => res = flat_map (handlesAt ops points tangents) (seq 0 j))
                  idx body s0 0 eq_refl) as [cps [E L]]
  end.
  - intros j i res Hj Hres. apply seq_nth_error in Hj. destruct Hj as [-> Hj].
    simpl in Hres. subst res.
    destruct (@prop_of_nth _ points j) as [p1 E1]; [lia|].
    destruct (@prop_of_nth _ points (j + 1)) as [p2 E2]; [lia|].
    destruct (@prop_of_nth _ tangents j) as [t1 E3]; [lia|].
    destruct (@prop_of_nth _ tangents (j + 1)) as [t2 E4]; [lia|].
    cbn [Nat.add]. rewrite E1, E2, E3, E4. cbn [bind]. eexists. split; [reflexivity|].
    rewrite seq_S, flat_map_app. cbn [Nat.add flat_map]. rewrite app_nil_r. f_equal.
    unfold handlesAt.
    destruct (nth_error points j); [|discriminate].
    destruct (nth_error points (j + 1)); [|discriminate].
    destruct (nth_error tangents j); [|discriminate].
    destruct (nth_error tangents (j + 1)); [|discriminate].
    simpl in *. congruence.
  - rewrite E. rewrite length_seq in L. simpl in L. now rewrite L.
Qed.

Lemma getControlPointsFromTangents_no_bound (points tangents : list (Point N)) :
  forall i res,
    (p1 <- prop_of (nth_error points i) ;;
     p2 <- prop_of (nth_error points (i + 1)) ;;
     t1 <- prop_of (nth_error tangents i) ;;
     t2 <- prop_of (nth_error tangents (i + 1)) ;;
     Returns (res ++ [mkPoint (add ops (x p1) (x t1)) (add ops (y p1) (y t1));
                      mkPoint (sub ops (x p2) (x t2)) (sub ops (y p2) (y t2))]))
    <> OutOfFuel.
Proof.
  intros i res.
  destruct (nth_error points i); cbn; [|discriminate].
  destruct (nth_error points (i + 1)); cbn; [|discriminate].
  destruct (nth_error tangents i); cbn; [|discriminate].
  destruct (nth_error tangents (i + 1)); cbn; discriminate.
Qed.

(** X1: The domain of [getControlPointsFromTangents]: with at most one point, or
    with a tangent for every point, it returns 2*(n-1) control points; with
    two points or more and fewer tangents than points it throws. *)
Theorem getControlPointsFromTangents_domain (points tangents : list (Point N)) :
  if Nat.leb (length points) 1 || Nat.leb (length points) (length tangents)
  then exists cps,
         getControlPointsFromTangents ops points tangents = Returns cps
         /\ length cps = (2 * (length points - 1))%nat
  else getControlPointsFromTangents ops points tangents = Throws.
Proof.
  destruct (Nat.leb (length points) 1) eqn:E1; cbn [orb].
  - apply Nat.leb_le in E1. unfold getControlPointsFromTangents.
    replace (length points - 1)%nat with 0%nat by lia. exists []. split; reflexivity.
  - apply Nat.leb_gt in E1.
    destruct (Nat.leb (length points) (length tangents)) eqn:E2.
    + apply Nat.leb_le in E2. rewrite getControlPointsFromTangents_handles by exact E2.
      eexists. split; [reflexivity|].
      assert (H : forall k, (k <= length points - 1)%nat ->
                length (flat_map (handlesAt ops points tangents) (seq 0 k)) = (2 * k)%nat).
      { induction k as [|k IH]; intros Hk; [reflexivity|].
        rewrite seq_S, flat_map_app, length_app, IH by lia. simpl.
        unfold handlesAt.
        destruct (@prop_of_nth _ points k) as [p1 F1]; [lia|].
        destruct (@prop_of_nth _ points (k + 1)) as [p2 F2]; [lia|].
        destruct (@prop_of_nth _ tangents k) as [t1 F3]; [lia|].
        destruct (@prop_of_nth _ tangents (k + 1)) as [t2 F4]; [lia|].
        destruct (nth_error points k); [|discriminate].
        destruct (nth_error points (k + 1)); [|discriminate].
        destruct (nth_error tangents k); [|discriminate].
        destruct (nth_error tangents (k + 1)); [|discriminate].
        simpl. lia. }
      now apply H.
    + apply Nat.leb_gt in E2. unfold getControlPointsFromTangents.
      apply forM_throws with (i0 := (length tangents - 1)%nat).
      * intros i s _. apply getControlPointsFromTangents_no_bound.
      * apply in_seq. lia.
      * intros s.
        destruct (@prop_of_nth _ points (length tangents - 1)) as [p1 F1]; [lia|].
        destruct (@prop_of_nth _ points (length tangents - 1 + 1)) as [p2 F2]; [lia|].
        rewrite F1, F2. cbn [bind].
        destruct (nth_error tangents (length tangents - 1)) as [t1|]; cbn; [|reflexivity].
        assert (F4 : nth_error tangents (length tangents - 1 + 1) = None).
        { apply nth_error_None. lia. }
        now rewrite F4.
Qed.

Lemma getBaseControlPoints_returns (pointset : Pointset.t N) :
  exists cps,
    getBaseControlPoints ops pointset = Returns cps
    /\ length cps = (2 * (length (Pointset.points pointset) - 1))%nat.
Proof.
  unfold getBaseControlPoints.
  destruct (Nat.leb (length (Pointset.points pointset)) 1) eqn:E.
  - apply Nat.leb_le in E. exists []. split; [reflexivity|]. simpl. lia.
  - apply Nat.leb_gt in E.
    destruct (monotoneTangents_returns ops (Pointset.points pointset)) as [tangents [Et L]];
      [lia|].
    cbv zeta. rewrite Et. cbn [bind].
    now apply getControlPointsFromTangents_length.
Qed.

(** X2: [getBaseControlPoints] returns for every pointset: no control point for
    at most one point, and 2*(n-1) control points for n >= 2 points. *)
Theorem getBaseControlPoints_count (pointset : Pointset.t N) :
  exists cps,
    getBaseControlPoints ops pointset = Returns cps
    /\ length cps = (2 * (length (Pointset.points pointset) - 1))%nat.
Proof. exact (getBaseControlPoints_returns pointset). Qed.

Lemma applyDiffs_domain (pts diffs : list (Point N)) :
  if Nat.leb (length pts) (length diffs)
  then exists r, applyDiffs ops pts diffs = Returns r /\ length r = length pts
  else applyDiffs ops pts diffs = Throws.
Proof.
  unfold applyDiffs, mapM.
  destruct (Nat.leb (length pts) (length diffs)) eqn:E.
  - apply Nat.leb_le in E.
    rewrite (mapFrom_returns _
               (fun p i => let d := nth i diffs p in
                           mkPoint (add ops (x p) (x d)) (add ops (y p) (y d)))).
    + eexists. split; [reflexivity|].
      now rewrite length_map, length_combine, length_seq, Nat.min_id.
    + intros j a Hj. simpl.
      assert (Hlt : (j < length diffs)%nat).
      { apply Nat.lt_le_trans with (length pts); [|exact E].
        apply nth_error_Some. congruence. }
      rewrite (nth_error_nth' diffs a Hlt). reflexivity.
  - apply Nat.leb_gt in E.
    destruct (nth_error pts (length diffs)) as [a|] eqn:Ea.
    + apply mapFrom_throws with (j := length diffs) (a := a).
      * intros a' i. destruct (nth_error diffs i); cbn; discriminate.
      * exact Ea.
      * simpl. assert (F : nth_error diffs (length diffs) = None)
          by (apply nth_error_None; lia).
        now rewrite F.
    + apply nth_error_None in Ea. lia.
Qed.

Lemma getEffectiveControlPoints_returns (pointset : Pointset.t N) :
  (2 * (length (Pointset.points pointset) - 1)
   <= length (Pointset.controlPointDiffs pointset))%nat ->
  exists cps,
    getEffectiveControlPoints ops pointset = Returns cps
    /\ length cps = (2 * (length (Pointset.points pointset) - 1))%nat.
Proof.
  intros H. unfold getEffectiveControlPoints.
  destruct (getBaseControlPoints_returns pointset) as [base [Eb Lb]].
  rewrite Eb. cbn [bind]. rewrite <- Lb in *.
  pose proof (applyDiffs_domain base (Pointset.controlPointDiffs pointset)) as Hd.
  apply Nat.leb_le in H. now rewrite H in Hd.
Qed.

(** X3: [getEffectiveControlPoints] needs a diff for every base control point:
    with at least 2*(n-1) diffs it returns 2*(n-1) control points, and with
    fewer it throws. *)
Theorem getEffectiveControlPoints_domain (pointset : Pointset.t N) :
  let n := length (Pointset.points pointset) in
  if Nat.leb (2 * (n - 1)) (length (Pointset.controlPointDiffs pointset))
  then exists cps,
         getEffectiveControlPoints ops pointset = Returns cps
         /\ length cps = (2 * (n - 1))%nat
  else getEffectiveControlPoints ops pointset = Throws.
Proof.
  intros n. unfold getEffectiveControlPoints.
  destruct (getBaseControlPoints_returns pointset) as [base [Eb Lb]].
  rewrite Eb. cbn [bind]. fold n in Lb. rewrite <- Lb.
  pose proof (applyDiffs_domain base (Pointset.controlPointDiffs pointset)) as H.
  destruct (Nat.leb (length base) (length (Pointset.controlPointDiffs pointset)));
    exact H.
Qed.

End ControlPoints.

(* ================================================================== *)
(** * Arrays: [splice], [indexOf], [remove] *)

Lemma length_splice {A : Type} (arr : list A) (start : Z) (deleteCount : nat)
      (items : list A) :
  (0 <= start)%Z ->
  length (splice arr start deleteCount items)
  = (Nat.min (Z.to_nat start) (length arr) + length items
     + (length arr - (Nat.min (Z.to_nat start) (length arr) + deleteCount)))%nat.
Proof.
  intros H. unfold splice.
  destruct (Z.ltb_spec start 0) as [Hlt|_]; [lia|].
  rewrite !length_app, length_firstn, length_skipn.
  replace (Z.to_nat (Z.min start (Z.of_nat (length arr))))
    with (Nat.min (Z.to_nat start) (length arr)) by lia.
  lia.
Qed.

(** Inserting one element at an index of the array, or at its end. *)
Lemma splice_insert {A : Type} (arr : list A) (i : nat) (a : A) :
  splice arr (Z.of_nat i) 0 [a] = firstn i arr ++ a :: skipn i arr.
Proof.
  unfold splice. destruct (Z.ltb_spec (Z.of_nat i) 0) as [Hlt|_]; [lia|].
  rewrite Nat.add_0_r.
  destruct (Nat.le_gt_cases i (length arr)) as [Hle|Hgt].
  - now replace (Z.to_nat (Z.min (Z.of_nat i) (Z.of_nat (length arr)))) with i by lia.
  - replace (Z.to_nat (Z.min (Z.of_nat i) (Z.of_nat (length arr)))) with (length arr) by lia.
    rewrite !firstn_all2, !skipn_all2 by lia. reflexivity.
Qed.

(** Deleting the element at an index; nothing is deleted past the end. *)
Lemma splice_delete {A : Type} (arr : list A) (i : nat) :
  splice arr (Z.of_nat i) 1 [] = firstn i arr ++ skipn (i + 1) arr.
Proof.
  unfold splice. destruct (Z.ltb_spec (Z.of_nat i) 0) as [Hlt|_]; [lia|].
  destruct (Nat.le_gt_cases i (length arr)) as [Hle|Hgt].
  - now replace (Z.to_nat (Z.min (Z.of_nat i) (Z.of_nat (length arr)))) with i by lia.
  - replace (Z.to_nat (Z.min (Z.of_nat i) (Z.of_nat (length arr)))) with (length arr) by lia.
    rewrite !firstn_all2, !skipn_all2 by lia. reflexivity.
Qed.

Lemma at_in_range {A : Type} (arr : list A) (i : Z) :
  (0 <= i < Z.of_nat (length arr))%Z -> exists a, at_ arr i = Some a.
Proof.
  intros H. unfold at_. destruct (Z.ltb_spec i 0) as [Hlt|_]; [lia|].
  destruct (nth_error arr (Z.to_nat i)) as [a|] eqn:E; [now exists a|].
  apply nth_error_None in E. lia.
Qed.

Lemma at_of_nat {A : Type} (arr : list A) (i : nat) :
  at_ arr (Z.of_nat i) = nth_error arr i.
Proof.
  unfold at_. destruct (Z.ltb_spec (Z.of_nat i) 0) as [Hlt|_]; [lia|].
  now rewrite Nat2Z.id.
Qed.

Lemma firstn_removelast_length {A : Type} (arr : list A) :
  firstn (length arr - 1) arr = removelast arr.
Proof.
  destruct arr as [|a arr]; [reflexivity|].
  cbn [length]. rewrite Nat.sub_succ, Nat.sub_0_r.
  revert a. induction arr as [|b arr IH]; intros a; [reflexivity|].
  change (firstn (length (b :: arr)) (a :: b :: arr))
    with (a :: firstn (length arr) (b :: arr)).
  rewrite IH. reflexivity.
Qed.

Section Remove.

Context {A : Type} (same : A -> A -> bool).

Lemma indexOf_absent (arr : list A) (element : A) :
  existsb (fun a => same a element) arr = false -> indexOf same arr element = (-1)%Z.
Proof.
  induction arr as [|a arr IH]; simpl; [reflexivity|].
  destruct (same a element); [discriminate|]. simpl. intros H.
  now rewrite (IH H).
Qed.

Lemma indexOf_present (arr : list A) (element : A) :
  existsb (fun a => same a element) arr = true ->
  exists before a after,
    arr = before ++ a :: after
    /\ existsb (fun a => same a element) before = false
    /\ same a element = true
    /\ indexOf same arr element = Z.of_nat (length before).
Proof.
  induction arr as [|a arr IH]; simpl; [discriminate|].
  destruct (same a element) eqn:E.
  - intros _. exists [], a, arr. auto.
  - simpl. intros H. destruct (IH H) as [before [b [after [-> [Hb [Hs Hi]]]]]].
    exists (a :: before), b, after. simpl. rewrite E, Hb, Hi. repeat split; auto.
    destruct (Z.ltb_spec (Z.of_nat (length before)) 0); lia.
Qed.

(** X4: [remove(arr, element)] deletes the first element that is [===] to
    [element] and no other; when no element is, [indexOf] gives -1 and
    [splice(-1, 1)] deletes the last element of the array. *)
Theorem remove_first_or_last (arr : list A) (element : A) :
  if existsb (fun a => same a element) arr
  then exists before a after,
         arr = before ++ a :: after
         /\ existsb (fun a => same a element) before = false
         /\ same a element = true
         /\ remove same arr element = before ++ after
  else remove same arr element = removelast arr.
Proof.
  destruct (existsb (fun a => same a element) arr) eqn:E.
  - destruct (indexOf_present arr element E) as [before [a [after [-> [Hb [Hs Hi]]]]]].
    exists before, a, after. repeat split; auto.
    unfold remove. rewrite Hi, splice_delete.
    rewrite firstn_app, firstn_all, Nat.sub_diag, app_nil_r.
    rewrite skipn_app, skipn_all2 by lia.
    replace (length before + 1 - length before)%nat with 1%nat by lia. reflexivity.
  - unfold remove. rewrite (indexOf_absent arr element E). unfold splice.
    cbn [Z.ltb Z.compare]. simpl app.
    replace (Z.to_nat (Z.max (Z.of_nat (length arr) + -1) 0)) with (length arr - 1)%nat
      by lia.
    rewrite firstn_removelast_length.
    destruct arr as [|a arr]; [reflexivity|].
    rewrite skipn_all2 by (simpl; lia). now rewrite app_nil_r.
Qed.

End Remove.

(* ================================================================== *)
(** * Adding and deleting the points of a pointset *)

Section Editing.

Context {N : Type} (ops : NumOps N).

Lemma length_insert_at {A : Type} (arr : list A) (i : nat) (a : A) :
  length (firstn i arr ++ a :: skipn i arr) = Datatypes.S (length arr).
Proof.
  rewrite length_app, length_firstn. simpl. rewrite length_skipn. lia.
Qed.

Lemma addNewAtIndex_spec (pointset : Pointset.t N) (coords : Point N)
        (i : nat) :
  let n := length (Pointset.points pointset) in
  (i <= n)%nat ->
  length (Pointset.controlPointDiffs pointset) = (2 * (n - 1))%nat ->
  exists pointset',
    addNewAtIndex ops pointset coords (Z.of_nat i) = Returns (coords, pointset')
    /\ Pointset.points pointset'
       = firstn i (Pointset.points pointset) ++ coords :: skipn i (Pointset.points pointset)
    /\ length (Pointset.controlPointDiffs pointset')
       = (2 * (length (Pointset.points pointset') - 1))%nat.
Proof.
  intros n Hi Hinv. destruct pointset as [points diffs]. simpl in *.
  unfold addNewAtIndex, pt. cbn [Pointset.points Pointset.controlPointDiffs].
  replace (mkPoint (x coords) (y coords)) with coords by now destruct coords.
  rewrite splice_insert.
  unfold addControlPointDiffsForPoint. cbn [Pointset.points Pointset.controlPointDiffs].
  rewrite length_insert_at. fold n.
  destruct (Z.leb_spec (Z.of_nat (Datatypes.S n)) 1) as [H1|H1].
  { cbn [bind]. eexists. split; [reflexivity|]. cbn [Pointset.points Pointset.controlPointDiffs].
    split; [reflexivity|]. rewrite length_insert_at. fold n. lia. }
  assert (Hn : (1 <= n)%nat) by lia.
  destruct (Z.gtb_spec (Z.of_nat i) 0) as [Hpos|Hzero];
    destruct (Z.ltb_spec (Z.of_nat i) (Z.of_nat (Datatypes.S n) - 1)) as [Hlt|Hge];
    destruct (Z.eqb_spec (Z.of_nat i) 0) as [E0|E0]; try lia;
    destruct (Z.eqb_spec (Z.of_nat i) (Z.of_nat (Datatypes.S n) - 1)) as [El|El]; try lia.
  - (* between two points *)
    cbn [bind]. eexists. split; [reflexivity|].
    cbn [Pointset.points Pointset.controlPointDiffs]. split; [reflexivity|].
    rewrite length_insert_at. fold n.
    rewrite !length_splice by lia. simpl length. lia.
  - (* after the last point *)
    destruct (Z.gtb_spec (Z.of_nat (Datatypes.S n)) 2) as [H2|H2].
    + match goal with
      | |- context [at_ ?d ?k] => destruct (at_in_range d k) as [d0 Ed]
      end.
      { rewrite !length_splice by lia. simpl length. lia. }
      rewrite Ed. cbn [bind prop_of]. eexists. split; [reflexivity|].
      cbn [Pointset.points Pointset.controlPointDiffs]. split; [reflexivity|].
      rewrite length_insert_at. fold n.
      rewrite !length_splice by lia. simpl length. lia.
    + cbn [bind]. eexists. split; [reflexivity|].
      cbn [Pointset.points Pointset.controlPointDiffs]. split; [reflexivity|].
      rewrite length_insert_at. fold n.
      rewrite !length_splice by lia. simpl length. lia.
  - (* before the first point *)
    destruct (Z.gtb_spec (Z.of_nat (Datatypes.S n)) 2) as [H2|H2].
    + match goal with
      | |- context [at_ ?d ?k] => destruct (at_in_range d k) as [d0 Ed]
      end.
      { rewrite !length_splice by lia. simpl length. lia. }
      rewrite Ed. cbn [bind prop_of]. eexists. split; [reflexivity|].
      cbn [Pointset.points Pointset.controlPointDiffs]. split; [reflexivity|].
      rewrite length_insert_at. fold n.
      rewrite !length_splice by lia. simpl length. lia.
    + cbn [bind]. eexists. split; [reflexivity|].
      cbn [Pointset.points Pointset.controlPointDiffs]. split; [reflexivity|].
      rewrite length_insert_at. fold n.
      rewrite !length_splice by lia. simpl length. lia.
Qed.

(** X5: [addNewAtIndex] at an index [0 <= i <= n] of a pointset with
    2*(n-1) diffs: it returns, the new point is at index [i] between the
    points that were there, and the pointset has 2*n diffs, which is
    2*((n+1)-1). *)
Theorem addNewAtIndex_keeps_diff_count (pointset : Pointset.t N) (coords : Point N)
        (i : nat) :
  let n := length (Pointset.points pointset) in
  (i <= n)%nat ->
  length (Pointset.controlPointDiffs pointset) = (2 * (n - 1))%nat ->
  exists pointset',
    addNewAtIndex ops pointset coords (Z.of_nat i) = Returns (coords, pointset')
    /\ Pointset.points pointset'
       = firstn i (Pointset.points pointset) ++ coords :: skipn i (Pointset.points pointset)
    /\ length (Pointset.controlPointDiffs pointset')
       = (2 * (length (Pointset.points pointset') - 1))%nat.
Proof. exact (addNewAtIndex_spec pointset coords i). Qed.

Lemma Returns_snd {A B : Type} (a a' : A) (b b' : B) :
  Returns (a, b) = Returns (a', b') -> b = b'.
Proof. congruence. Qed.

Lemma firstn_app_exact {A : Type} (l1 l2 : list A) (i : nat) :
  length l1 = i -> firstn i (l1 ++ l2) = l1 /\ skipn i (l1 ++ l2) = l2.
Proof.
  intros <-. split.
  - rewrite firstn_app, Nat.sub_diag, firstn_all. simpl. apply app_nil_r.
  - rewrite skipn_app, Nat.sub_diag, skipn_all. reflexivity.
Qed.

Lemma delete_insert {A : Type} (arr : list A) (i : nat) (a : A) :
  (i <= length arr)%nat ->
  splice (splice arr (Z.of_nat i) 0 [a]) (Z.of_nat i) 1 [] = arr.
Proof.
  intros Hi. rewrite splice_insert, splice_delete.
  assert (Hf : length (firstn i arr) = i) by (rewrite length_firstn; lia).
  destruct (firstn_app_exact (firstn i arr) (a :: skipn i arr) i Hf) as [-> _].
  replace (i + 1)%nat with (1 + i)%nat by lia. rewrite <- skipn_skipn.
  destruct (firstn_app_exact (firstn i arr) (a :: skipn i arr) i Hf) as [_ ->].
  simpl. apply firstn_skipn.
Qed.

Lemma insert_delete {A : Type} (arr : list A) (i : nat) (a : A) :
  nth_error arr i = Some a ->
  splice (splice arr (Z.of_nat i) 1 []) (Z.of_nat i) 0 [a] = arr.
Proof.
  intros Ha. assert (Hi : (i < length arr)%nat) by (apply nth_error_Some; congruence).
  rewrite splice_delete, splice_insert.
  assert (Hf : length (firstn i arr) = i) by (rewrite length_firstn; lia).
  destruct (firstn_app_exact (firstn i arr) (skipn (i + 1) arr) i Hf) as [-> ->].
  rewrite <- (firstn_skipn i arr) at 3. f_equal.
  rewrite <- (firstn_skipn i arr) in Ha.
  rewrite nth_error_app2, Hf, Nat.sub_diag in Ha by lia.
  replace (i + 1)%nat with (1 + i)%nat by lia. rewrite <- skipn_skipn.
  destruct (skipn i arr) as [|b rest]; [discriminate|]. simpl in *. congruence.
Qed.

Lemma deleteAtIndex_spec (pointset : Pointset.t N) (i : nat) :
  let n := length (Pointset.points pointset) in
  let pointset' := deleteAtIndex pointset (Z.of_nat i) in
  (i < n)%nat ->
  length (Pointset.controlPointDiffs pointset) = (2 * (n - 1))%nat ->
  Pointset.points pointset'
  = firstn i (Pointset.points pointset) ++ skipn (i + 1) (Pointset.points pointset)
  /\ (length (Pointset.controlPointDiffs pointset')
      + (if Nat.ltb (i + 2) n then 1 else 0) + (if Nat.ltb 0 i then 1 else 0)
      = length (Pointset.controlPointDiffs pointset))%nat
  /\ (2 * (length (Pointset.points pointset') - 1)
      <= length (Pointset.controlPointDiffs pointset'))%nat.
Proof.
  intros n pointset' Hi Hinv. destruct pointset as [points diffs].
  cbn [Pointset.points Pointset.controlPointDiffs] in *.
  unfold pointset', deleteAtIndex. cbn [Pointset.points Pointset.controlPointDiffs].
  rewrite splice_delete.
  assert (Hlen : length (firstn i points ++ skipn (i + 1) points) = (n - 1)%nat).
  { rewrite length_app, length_firstn, length_skipn. fold n. lia. }
  rewrite Hlen. split; [reflexivity|].
  destruct (Z.ltb_spec (Z.of_nat i) (Z.of_nat (n - 1) - 1)) as [H1|H1];
    destruct (Z.gtb_spec (Z.of_nat i) 0) as [H2|H2];
    destruct (Nat.ltb_spec (i + 2) n) as [H3|H3]; try lia;
    destruct (Nat.ltb_spec 0 i) as [H4|H4]; try lia;
    rewrite ?length_splice by lia; cbn [length]; lia.
Qed.

(** X7: Adding a point and deleting it again, which is how the editor undoes
    the addition: the points are as before for every index [i <= n]; the
    diffs are as before exactly when the point was added between two points
    and not next to the last one ([0 < i < n - 1]), or to an empty
    pointset. *)
Theorem deleteAtIndex_after_addNewAtIndex (pointset : Pointset.t N) (coords : Point N)
        (i : nat) :
  let n := length (Pointset.points pointset) in
  (i <= n)%nat ->
  length (Pointset.controlPointDiffs pointset) = (2 * (n - 1))%nat ->
  exists pointset',
    addNewAtIndex ops pointset coords (Z.of_nat i) = Returns (coords, pointset')
    /\ Pointset.points (deleteAtIndex pointset' (Z.of_nat i)) = Pointset.points pointset
    /\ (deleteAtIndex pointset' (Z.of_nat i) = pointset
        <-> (0 < i /\ i + 1 < n)%nat \/ n = 0%nat).
Proof.
  intros n Hi Hinv.
  destruct (addNewAtIndex_spec pointset coords i Hi Hinv)
    as [pointset' [Eadd [Epts Ecount]]].
  exists pointset'. split; [exact Eadd|].
  assert (Hpts : Pointset.points (deleteAtIndex pointset' (Z.of_nat i))
                 = Pointset.points pointset).
  { unfold deleteAtIndex. cbn [Pointset.points]. rewrite Epts.
    rewrite <- splice_insert. now apply delete_insert. }
  split; [exact Hpts|].
  destruct pointset as [points diffs].
  cbn [Pointset.points Pointset.controlPointDiffs] in *. fold n in Hi.
  unfold addNewAtIndex, pt in Eadd. cbn [Pointset.points Pointset.controlPointDiffs] in Eadd.
  replace (mkPoint (x coords) (y coords)) with coords in Eadd by now destruct coords.
  rewrite splice_insert in Eadd.
  unfold addControlPointDiffsForPoint in Eadd.
  cbn [Pointset.points Pointset.controlPointDiffs] in Eadd.
  rewrite length_insert_at in Eadd. fold n in Eadd.
  assert (Hdel : forall d',
             Pointset.controlPointDiffs pointset' = d' ->
             deleteAtIndex pointset' (Z.of_nat i)
             = Pointset.mk points
                 (let d := if (Z.of_nat i <? Z.of_nat n - 1)%Z
                           then splice d' (2 * Z.of_nat i) 1 [] else d' in
                  if (Z.of_nat i >? 0)%Z then splice d (2 * Z.of_nat i - 1) 1 [] else d)).
  { intros d' Hd'. unfold deleteAtIndex in *. cbn [Pointset.points] in Hpts.
    rewrite Hpts, Hd'. cbn [Pointset.points Pointset.controlPointDiffs].
    unfold n. reflexivity. }
  destruct (Z.leb_spec (Z.of_nat (Datatypes.S n)) 1) as [H1|H1].
  { (* the first point of an empty pointset *)
    cbn [bind] in Eadd. apply Returns_snd in Eadd. subst pointset'.
    assert (n = 0%nat) by lia. assert (i = 0%nat) by lia. subst i.
    rewrite (Hdel _ eq_refl). cbn [Pointset.controlPointDiffs].
    destruct (Z.ltb_spec (Z.of_nat 0) (Z.of_nat n - 1)) as [F|F]; [lia|].
    cbn. split; auto. }
  destruct (Z.gtb_spec (Z.of_nat i) 0) as [Hpos|Hzero];
    destruct (Z.ltb_spec (Z.of_nat i) (Z.of_nat (Datatypes.S n) - 1)) as [Hlt|Hge];
    destruct (Z.eqb_spec (Z.of_nat i) 0) as [E0|E0]; try lia;
    destruct (Z.eqb_spec (Z.of_nat i) (Z.of_nat (Datatypes.S n) - 1)) as [El|El]; try lia.
  - (* between two points *)
    cbn [bind] in Eadd. apply Returns_snd in Eadd. subst pointset'.
    rewrite (Hdel _ eq_refl). cbn [Pointset.controlPointDiffs]. cbv zeta.
    destruct (Z.gtb_spec (Z.of_nat i) 0) as [_|F]; [|lia].
    replace (2 * Z.of_nat i)%Z with (Z.of_nat (2 * i)) by lia.
    replace (Z.of_nat (2 * i) - 1)%Z with (Z.of_nat (2 * i - 1)) by lia.
    destruct (Z.ltb_spec (Z.of_nat i) (Z.of_nat n - 1)) as [Hin|Hout].
    + rewrite delete_insert by (rewrite length_splice by lia; simpl; lia).
      rewrite delete_insert by lia. split; [left; lia|reflexivity].
    + split; [|lia]. intros Heq. exfalso.
      apply (f_equal (fun q => length (Pointset.controlPointDiffs q))) in Heq.
      cbn [Pointset.controlPointDiffs] in Heq.
      rewrite !length_splice in Heq by lia. simpl length in Heq. lia.
  - (* after the last point *)
    assert (Hne : forall toAdd d',
               d' = splice (splice diffs (2 * Z.of_nat i - 1) 0
                                   [orElse None (mkPoint (lit ops 0) (lit ops 0))])
                           (2 * Z.of_nat i - 2) 0 [toAdd] ->
               Pointset.controlPointDiffs pointset' = d' ->
               deleteAtIndex pointset' (Z.of_nat i) = Pointset.mk points diffs
               <-> (0 < i /\ i + 1 < n)%nat \/ n = 0%nat).
    { intros toAdd d' Ed' Hd'. rewrite (Hdel d' Hd'). cbv zeta.
      split; [|lia]. intros Heq. exfalso.
      apply (f_equal (fun q => length (Pointset.controlPointDiffs q))) in Heq.
      cbn [Pointset.controlPointDiffs] in Heq. subst d'.
      destruct (Z.ltb_spec (Z.of_nat i) (Z.of_nat n - 1)) as [F|_]; [lia|].
      destruct (Z.gtb_spec (Z.of_nat i) 0) as [_|F]; [|lia].
      rewrite !length_splice in Heq by lia. simpl length in Heq. lia. }
    destruct (Z.gtb_spec (Z.of_nat (Datatypes.S n)) 2) as [H2|H2].
    + destruct (prop_of (at_ _ _)) as [d0| |] in Eadd; cbn [bind] in Eadd;
        try discriminate.
      apply Returns_snd in Eadd. subst pointset'. eapply Hne; reflexivity.
    + cbn [bind] in Eadd. apply Returns_snd in Eadd. subst pointset'.
      eapply Hne; reflexivity.
  - (* before the first point *)
    assert (Hne : forall toAdd d',
               d' = splice (splice diffs (2 * Z.of_nat i) 0
                                   [orElse None (mkPoint (lit ops 0) (lit ops 0))])
                           (2 * Z.of_nat i + 1) 0 [toAdd] ->
               Pointset.controlPointDiffs pointset' = d' ->
               deleteAtIndex pointset' (Z.of_nat i) = Pointset.mk points diffs
               <-> (0 < i /\ i + 1 < n)%nat \/ n = 0%nat).
    { intros toAdd d' Ed' Hd'. rewrite (Hdel d' Hd'). cbv zeta.
      split; [|lia]. intros Heq. exfalso.
      apply (f_equal (fun q => length (Pointset.controlPointDiffs q))) in Heq.
      cbn [Pointset.controlPointDiffs] in Heq. subst d'.
      destruct (Z.gtb_spec (Z.of_nat i) 0) as [F|_]; [lia|].
      destruct (Z.ltb_spec (Z.of_nat i) (Z.of_nat n - 1)) as [F|F];
        rewrite !length_splice in Heq by lia; simpl length in Heq; lia. }
    destruct (Z.gtb_spec (Z.of_nat (Datatypes.S n)) 2) as [H2|H2].
    + destruct (prop_of (at_ _ _)) as [d0| |] in Eadd; cbn [bind] in Eadd;
        try discriminate.
      apply Returns_snd in Eadd. subst pointset'. eapply Hne; reflexivity.
    + cbn [bind] in Eadd. apply Returns_snd in Eadd. subst pointset'.
      eapply Hne; reflexivity.
Qed.

(** X8: Deleting a point and adding it again at its index, which is how the
    editor undoes a deletion: [addNewAtIndex] returns, and the points are as
    they were before the deletion. *)
Theorem addNewAtIndex_after_deleteAtIndex (pointset : Pointset.t N) (coords : Point N)
        (i : nat) :
  let n := length (Pointset.points pointset) in
  nth_error (Pointset.points pointset) i = Some coords ->
  length (Pointset.controlPointDiffs pointset) = (2 * (n - 1))%nat ->
  exists pointset',
    addNewAtIndex ops (deleteAtIndex pointset (Z.of_nat i)) coords (Z.of_nat i)
    = Returns (coords, pointset')
    /\ Pointset.points pointset' = Pointset.points pointset.
Proof.
  intros n Hnth Hinv.
  assert (Hi : (i < n)%nat) by (apply nth_error_Some; congruence).
  destruct (deleteAtIndex_spec pointset i Hi Hinv) as [Epts [Ecount Hge]].
  fold n in Ecount.
  remember (deleteAtIndex pointset (Z.of_nat i)) as del eqn:Edel.
  assert (Hins : splice (Pointset.points del) (Z.of_nat i) 0 [coords]
                 = Pointset.points pointset).
  { rewrite Edel. unfold deleteAtIndex. cbn [Pointset.points].
    now apply insert_delete. }
  assert (Hlen : length (Pointset.points del) = (n - 1)%nat).
  { rewrite Epts, length_app, length_firstn, length_skipn. fold n. lia. }
  rewrite Hlen in Hge.
  unfold addNewAtIndex, pt.
  replace (mkPoint (x coords) (y coords)) with coords by now destruct coords.
  rewrite Hins.
  unfold addControlPointDiffsForPoint. cbn [Pointset.points Pointset.controlPointDiffs].
  fold n.
  set (diffs := Pointset.controlPointDiffs del) in *.
  destruct (Z.leb_spec (Z.of_nat n) 1) as [H1|H1].
  { cbn [bind]. eexists. split; reflexivity. }
  destruct (Z.gtb_spec (Z.of_nat i) 0) as [Hpos|Hzero];
    destruct (Z.ltb_spec (Z.of_nat i) (Z.of_nat n - 1)) as [Hlt|Hge'];
    destruct (Z.eqb_spec (Z.of_nat i) 0) as [E0|E0]; try lia;
    destruct (Z.eqb_spec (Z.of_nat i) (Z.of_nat n - 1)) as [El|El]; try lia.
  - cbn [bind]. eexists. split; reflexivity.
  - destruct (Z.gtb_spec (Z.of_nat n) 2) as [H2|H2].
    + match goal with
      | |- context [at_ ?d ?k] => destruct (at_in_range d k) as [d0 Ed]
      end.
      { rewrite !length_splice by lia. simpl length. lia. }
      rewrite Ed. cbn [bind prop_of]. eexists. split; reflexivity.
    + cbn [bind]. eexists. split; reflexivity.
  - destruct (Z.gtb_spec (Z.of_nat n) 2) as [H2|H2].
    + match goal with
      | |- context [at_ ?d ?k] => destruct (at_in_range d k) as [d0 Ed]
      end.
      { rewrite !length_splice by lia. simpl length. lia. }
      rewrite Ed. cbn [bind prop_of]. eexists. split; reflexivity.
    + cbn [bind]. eexists. split; reflexivity.
Qed.

End Editing.

(** The witness of X5: a point added between the first two of three points. *)
Lemma addNewAtIndex_keeps_diff_count_witness :
  (1 <= length (Pointset.points ExEditor.curve3))%nat
  /\ length (Pointset.controlPointDiffs ExEditor.curve3)
     = (2 * (length (Pointset.points ExEditor.curve3) - 1))%nat
  /\ exists pointset',
      addNewAtIndex F64 ExEditor.curve3 (Ex.fpt 5 5) (Z.of_nat 1)
      = Returns (Ex.fpt 5 5, pointset')
      /\ Pointset.points pointset'
         = firstn 1 (Pointset.points ExEditor.curve3)
           ++ Ex.fpt 5 5 :: skipn 1 (Pointset.points ExEditor.curve3)
      /\ length (Pointset.controlPointDiffs pointset')
         = (2 * (length (Pointset.points pointset') - 1))%nat.
Proof.
  split; [simpl; lia|]. split; [reflexivity|].
  apply (addNewAtIndex_keeps_diff_count F64 ExEditor.curve3 (Ex.fpt 5 5) 1);
    [simpl; lia|reflexivity].
Defined.

(** The witness of X7: a point added between the first two of three points and
    deleted again. *)
Lemma deleteAtIndex_after_addNewAtIndex_witness :
  (1 <= length (Pointset.points ExEditor.curve3))%nat
  /\ length (Pointset.controlPointDiffs ExEditor.curve3)
     = (2 * (length (Pointset.points ExEditor.curve3) - 1))%nat
  /\ exists pointset',
      addNewAtIndex F64 ExEditor.curve3 (Ex.fpt 5 5) (Z.of_nat 1)
      = Returns (Ex.fpt 5 5, pointset')
      /\ Pointset.points (deleteAtIndex pointset' (Z.of_nat 1))
         = Pointset.points ExEditor.curve3
      /\ (deleteAtIndex pointset' (Z.of_nat 1) = ExEditor.curve3
          <-> (0 < 1 /\ 1 + 1 < length (Pointset.points ExEditor.curve3))%nat
              \/ length (Pointset.points ExEditor.curve3) = 0%nat).
Proof.
  split; [simpl; lia|]. split; [reflexivity|].
  apply (deleteAtIndex_after_addNewAtIndex F64 ExEditor.curve3 (Ex.fpt 5 5) 1);
    [simpl; lia|reflexivity].
Defined.

(** The witness of X8: the middle one of three points deleted and added again. *)
Lemma addNewAtIndex_after_deleteAtIndex_witness :
  nth_error (Pointset.points ExEditor.curve3) 1 = Some (Ex.fpt 2 3)
  /\ length (Pointset.controlPointDiffs ExEditor.curve3)
     = (2 * (length (Pointset.points ExEditor.curve3) - 1))%nat
  /\ exists pointset',
      addNewAtIndex F64 (deleteAtIndex ExEditor.curve3 (Z.of_nat 1)) (Ex.fpt 2 3) (Z.of_nat 1)
      = Returns (Ex.fpt 2 3, pointset')
      /\ Pointset.points pointset' = Pointset.points ExEditor.curve3.
Proof.
  split; [reflexivity|]. split; [reflexivity|].
  apply (addNewAtIndex_after_deleteAtIndex F64 ExEditor.curve3 (Ex.fpt 2 3) 1); reflexivity.
Defined.

(* ================================================================== *)
(** * Deleting several points *)

Lemma insertZ_In (cmp : Z -> Z -> Z) (a : Z) (l : list Z) (b : Z) :
  In b (insertZ cmp a l) <-> b = a \/ In b l.
Proof.
  induction l as [|c l IH]; simpl.
  - intuition.
  - destruct (cmp a c <? 0)%Z; simpl; [intuition|]. rewrite IH. intuition.
Qed.

Lemma insertZ_descending (a : Z) (l : list Z) :
  descending l -> ~ In a l ->
  descending (insertZ (fun i1 i2 => (i2 - i1)%Z) a l).
Proof.
  induction l as [|c l IH]; intros Hd Hn; simpl.
  - split; [contradiction|exact I].
  - destruct Hd as [Hc Hd]. destruct (Z.ltb_spec (c - a) 0) as [Hlt|Hge].
    + split; [|split; assumption].
      intros b [<-|Hb]; [lia|]. specialize (Hc b Hb). lia.
    + simpl. split.
      * intros b Hb. apply insertZ_In in Hb. destruct Hb as [->|Hb]; [|now apply Hc].
        assert (a <> c) by (intros ->; apply Hn; now left). lia.
      * apply IH; [exact Hd|]. intros Hin. apply Hn. now right.
Qed.

Lemma sortZ_descending (l : list Z) :
  NoDup l ->
  descending (sortZ (fun i1 i2 => (i2 - i1)%Z) l)
  /\ forall b, In b (sortZ (fun i1 i2 => (i2 - i1)%Z) l) <-> In b l.
Proof.
  unfold sortZ. intros Hnd.
  assert (H : forall acc,
             descending acc -> (forall b, In b acc -> ~ In b l) ->
             descending (fold_left (fun sorted a => insertZ (fun i1 i2 => (i2 - i1)%Z) a sorted)
                                   l acc)
             /\ forall b, In b (fold_left
                                  (fun sorted a => insertZ (fun i1 i2 => (i2 - i1)%Z) a sorted)
                                  l acc)
                          <-> In b acc \/ In b l).
  { induction Hnd as [|a l Ha Hnd IH]; intros acc Hd Hdisj; simpl.
    - split; [exact Hd|]. intuition.
    - destruct (IH (insertZ (fun i1 i2 => (i2 - i1)%Z) a acc)) as [H1 H2].
      + apply insertZ_descending; [exact Hd|]. intros Hin. apply (Hdisj a Hin). now left.
      + intros b Hb. apply insertZ_In in Hb. destruct Hb as [->|Hb]; [exact Ha|].
        intros Hin. apply (Hdisj b Hb). now right.
      + split; [exact H1|]. intros b. rewrite H2, insertZ_In. intuition. }
  destruct (H [] I (fun b Hb => False_ind _ Hb)) as [H1 H2].
  split; [exact H1|]. intros b. rewrite H2. simpl. intuition.
Qed.

Lemma withoutFrom_app {A : Type} (k : nat) (l1 l2 : list A) (indices : list Z) :
  withoutFrom k (l1 ++ l2) indices
  = withoutFrom k l1 indices ++ withoutFrom (k + length l1) l2 indices.
Proof.
  revert k. induction l1 as [|a l1 IH]; intros k; simpl.
  - now rewrite Nat.add_0_r.
  - rewrite IH. replace (Datatypes.S k + length l1)%nat
      with (k + Datatypes.S (length l1))%nat by lia.
    now destruct (existsb (Z.eqb (Z.of_nat k)) indices).
Qed.

Lemma withoutFrom_ext {A : Type} (k : nat) (l : list A) (idx1 idx2 : list Z) :
  (forall j, (k <= j < k + length l)%nat ->
             existsb (Z.eqb (Z.of_nat j)) idx1 = existsb (Z.eqb (Z.of_nat j)) idx2) ->
  withoutFrom k l idx1 = withoutFrom k l idx2.
Proof.
  revert k. induction l as [|a l IH]; intros k H; simpl; [reflexivity|].
  rewrite (H k) by (simpl; lia). rewrite IH; [reflexivity|].
  intros j Hj. apply H. simpl. lia.
Qed.

Lemma withoutFrom_none {A : Type} (k : nat) (l : list A) (indices : list Z) :
  (forall j, (k <= j < k + length l)%nat -> existsb (Z.eqb (Z.of_nat j)) indices = false) ->
  withoutFrom k l indices = l.
Proof.
  revert k. induction l as [|a l IH]; intros k H; simpl; [reflexivity|].
  rewrite (H k) by (simpl; lia). f_equal. apply IH.
  intros j Hj. apply H. simpl. lia.
Qed.

Lemma existsb_eqb_In (j : Z) (indices : list Z) :
  existsb (Z.eqb j) indices = true <-> In j indices.
Proof.
  rewrite existsb_exists. split.
  - intros [b [Hb E]]. apply Z.eqb_eq in E. now subst.
  - intros H. exists j. split; [exact H|apply Z.eqb_refl].
Qed.

Lemma existsb_eqb_false (j : Z) (indices : list Z) :
  ~ In j indices -> existsb (Z.eqb j) indices = false.
Proof.
  intros H. destruct (existsb (Z.eqb j) indices) eqn:E; [|reflexivity].
  apply existsb_eqb_In in E. contradiction.
Qed.

(** Deleting at the indices of a descending list, from the largest on,
    leaves the elements at the other indices. *)
Lemma fold_delete_descending {A : Type} (l : list Z) (arr : list A) :
  descending l ->
  (forall i, In i l -> (0 <= i < Z.of_nat (length arr))%Z) ->
  fold_left (fun a i => splice a i 1 []) l arr = withoutFrom 0 arr l.
Proof.
  revert arr. induction l as [|d l IH]; intros arr Hd Hr; simpl.
  - symmetry. apply withoutFrom_none. reflexivity.
  - destruct Hd as [Hlt Hd].
    assert (Hdr : (0 <= d < Z.of_nat (length arr))%Z) by (apply Hr; now left).
    replace d with (Z.of_nat (Z.to_nat d)) at 1 by lia.
    rewrite splice_delete. set (k := Z.to_nat d).
    assert (Hf : length (firstn k arr) = k) by (rewrite length_firstn; lia).
    rewrite IH; [|exact Hd|].
    + rewrite withoutFrom_app, Hf. cbn [Nat.add].
      rewrite <- (firstn_skipn k arr) at 3.
      rewrite withoutFrom_app, Hf. cbn [Nat.add]. f_equal.
      * apply withoutFrom_ext. intros j Hj. simpl.
        destruct (Z.eqb_spec (Z.of_nat j) d) as [E|_]; [lia|reflexivity].
      * destruct (skipn k arr) as [|e rest] eqn:Es.
        { apply (f_equal (@length A)) in Es. rewrite length_skipn in Es. simpl in Es. lia. }
        replace (k + 1)%nat with (1 + k)%nat by lia. rewrite <- skipn_skipn, Es.
        cbn [skipn withoutFrom existsb].
        replace (Z.of_nat k =? d)%Z with true by (symmetry; apply Z.eqb_eq; lia).
        cbn [orb].
        rewrite !withoutFrom_none; [reflexivity| |].
        -- intros j Hj. simpl. destruct (Z.eqb_spec (Z.of_nat j) d) as [E|_]; [lia|].
           apply existsb_eqb_false. intros Hin. specialize (Hlt _ Hin). lia.
        -- intros j Hj. apply existsb_eqb_false. intros Hin. specialize (Hlt _ Hin). lia.
    + intros i Hin. specialize (Hlt _ Hin).
      assert (0 <= i)%Z by (apply Hr; now right).
      rewrite length_app, length_firstn, length_skipn. lia.
Qed.

Section DeleteAtIndices.

Context {N : Type}.

Lemma deleteAtIndex_points (l : list Z) (pointset : Pointset.t N) :
  Pointset.points (fold_left (@deleteAtIndex N) l pointset)
  = fold_left (fun a i => splice a i 1 []) l (Pointset.points pointset).
Proof.
  revert pointset. induction l as [|i l IH]; intros pointset; [reflexivity|].
  simpl. now rewrite IH.
Qed.

(** X9: [deleteAtIndices] with distinct indices of the pointset, in any order,
    leaves the points at the other indices, in their order. *)
Theorem deleteAtIndices_points (pointset : Pointset.t N) (indices : list Z) :
  NoDup indices ->
  (forall i, In i indices -> (0 <= i < Z.of_nat (length (Pointset.points pointset)))%Z) ->
  Pointset.points (deleteAtIndices pointset indices)
  = withoutIndices (Pointset.points pointset) indices.
Proof.
  intros Hnd Hr. unfold deleteAtIndices, withoutIndices. cbv zeta.
  destruct (sortZ_descending indices Hnd) as [Hd Hin].
  rewrite deleteAtIndex_points, fold_delete_descending.
  - apply withoutFrom_ext. intros j _.
    destruct (existsb (Z.eqb (Z.of_nat j)) indices) eqn:E.
    + apply existsb_eqb_In. apply Hin. now apply existsb_eqb_In.
    + apply existsb_eqb_false. intros H. apply Hin in H.
      apply existsb_eqb_In in H. congruence.
  - exact Hd.
  - intros i Hi. apply Hr. now apply Hin.
Qed.

End DeleteAtIndices.

(** The witness of X9: the last and the first of three points deleted. *)
Lemma deleteAtIndices_points_witness :
  NoDup [2%Z; 0%Z]
  /\ (forall i, In i [2%Z; 0%Z] ->
                (0 <= i < Z.of_nat (length (Pointset.points ExEditor.curve3)))%Z)
  /\ Pointset.points (deleteAtIndices ExEditor.curve3 [2%Z; 0%Z])
     = withoutIndices (Pointset.points ExEditor.curve3) [2%Z; 0%Z].
Proof.
  assert (H1 : NoDup [2%Z; 0%Z]).
  { constructor; [simpl; intros [H|[]]; discriminate H|].
    constructor; [simpl; tauto|constructor]. }
  assert (H2 : forall i, In i [2%Z; 0%Z] ->
                         (0 <= i < Z.of_nat (length (Pointset.points ExEditor.curve3)))%Z).
  { simpl. intros i [<-|[<-|[]]]; lia. }
  split; [exact H1|]. split; [exact H2|].
  apply (deleteAtIndices_points ExEditor.curve3 [2%Z; 0%Z] H1 H2).
Defined.

(* ================================================================== *)
(** * Deleting a point: the diffs that go *)

Section DeletedDiffs.

Context {N : Type}.

(** X6: [deleteAtIndex] at an index [i < n] of a pointset with 2*(n-1) diffs
    removes the point at [i].  Of the diffs it removes the one at [2*i] when
    [i < n - 2] and the one at [2*i - 1] when [i > 0], and no other: both
    diffs of the point only for [0 < i < n - 2].  A diff is left for every
    base control point of the points that remain. *)
Theorem deleteAtIndex_diffs (pointset : Pointset.t N) (i : nat) :
  let n := length (Pointset.points pointset) in
  let pointset' := deleteAtIndex pointset (Z.of_nat i) in
  (i < n)%nat ->
  length (Pointset.controlPointDiffs pointset) = (2 * (n - 1))%nat ->
  Pointset.points pointset' = withoutIndices (Pointset.points pointset) [Z.of_nat i]
  /\ Pointset.controlPointDiffs pointset'
     = withoutIndices (Pointset.controlPointDiffs pointset)
         ((if Nat.ltb (i + 2) n then [2 * Z.of_nat i] else [])
          ++ (if Nat.ltb 0 i then [2 * Z.of_nat i - 1] else []))%Z
  /\ (2 * (length (Pointset.points pointset') - 1)
      <= length (Pointset.controlPointDiffs pointset'))%nat.
Proof.
  intros n pointset' Hi Hinv.
  destruct (deleteAtIndex_spec pointset i Hi Hinv) as [Hp [_ Hc]].
  fold n in Hp. fold pointset' in Hp, Hc.
  split; [|split; [|exact Hc]].
  - unfold pointset', deleteAtIndex. cbn [Pointset.points].
    change (splice (Pointset.points pointset) (Z.of_nat i) 1 [])
      with (fold_left (fun a j => splice a j 1 []) [Z.of_nat i] (Pointset.points pointset)).
    rewrite fold_delete_descending; [reflexivity|simpl; tauto|].
    intros j [<-|[]]. fold n. lia.
  - assert (Hlen : length (Pointset.points pointset') = (n - 1)%nat).
    { rewrite Hp, length_app, length_firstn, length_skipn. fold n. lia. }
    unfold pointset', deleteAtIndex in *.
    cbn [Pointset.points Pointset.controlPointDiffs] in *. rewrite Hlen.
    set (diffs := Pointset.controlPointDiffs pointset) in *.
    set (l := ((if Nat.ltb (i + 2) n then [2 * Z.of_nat i] else [])
               ++ (if Nat.ltb 0 i then [2 * Z.of_nat i - 1] else []))%Z).
    assert (E : (if (Z.of_nat i >? 0)%Z
                 then splice (if (Z.of_nat i <? Z.of_nat (n - 1) - 1)%Z
                              then splice diffs (2 * Z.of_nat i) 1 [] else diffs)
                             (2 * Z.of_nat i - 1) 1 []
                 else if (Z.of_nat i <? Z.of_nat (n - 1) - 1)%Z
                      then splice diffs (2 * Z.of_nat i) 1 [] else diffs)
                = fold_left (fun a j => splice a j 1 []) l diffs).
    { unfold l.
      destruct (Z.ltb_spec (Z.of_nat i) (Z.of_nat (n - 1) - 1)) as [H1|H1];
        destruct (Z.gtb_spec (Z.of_nat i) 0) as [H2|H2];
        destruct (Nat.ltb_spec (i + 2) n) as [H3|H3]; try lia;
        destruct (Nat.ltb_spec 0 i) as [H4|H4]; try lia; reflexivity. }
    rewrite E. apply fold_delete_descending.
    + unfold l. destruct (Nat.ltb (i + 2) n), (Nat.ltb 0 i); cbn [app descending In];
        repeat split; try tauto.
      intros b [<-|[]]. lia.
    + intros j Hj. unfold l in Hj.
      destruct (Nat.ltb_spec (i + 2) n) as [H3|H3];
        destruct (Nat.ltb_spec 0 i) as [H4|H4]; cbn [app In] in Hj;
        repeat (destruct Hj as [<-|Hj]); try contradiction; lia.
Qed.

End DeletedDiffs.

(** The witness of X6: the middle one of three points deleted. *)
Lemma deleteAtIndex_diffs_witness :
  (1 < length (Pointset.points ExEditor.curve3))%nat
  /\ length (Pointset.controlPointDiffs ExEditor.curve3)
     = (2 * (length (Pointset.points ExEditor.curve3) - 1))%nat
  /\ Pointset.points (deleteAtIndex ExEditor.curve3 (Z.of_nat 1))
     = withoutIndices (Pointset.points ExEditor.curve3) [Z.of_nat 1]
  /\ Pointset.controlPointDiffs (deleteAtIndex ExEditor.curve3 (Z.of_nat 1))
     = withoutIndices (Pointset.controlPointDiffs ExEditor.curve3)
         ((if Nat.ltb (1 + 2) (length (Pointset.points ExEditor.curve3))
           then [2 * Z.of_nat 1] else [])
          ++ (if Nat.ltb 0 1 then [2 * Z.of_nat 1 - 1] else []))%Z
  /\ (2 * (length (Pointset.points (deleteAtIndex ExEditor.curve3 (Z.of_nat 1))) - 1)
      <= length (Pointset.controlPointDiffs (deleteAtIndex ExEditor.curve3 (Z.of_nat 1))))%nat.
Proof.
  split; [simpl; lia|]. split; [reflexivity|].
  apply (deleteAtIndex_diffs ExEditor.curve3 1); [simpl; lia|reflexivity].
Defined.

(* ================================================================== *)
(** * Bounds of points with integer coordinates *)

Section Bounds.

Open Scope Z_scope.

Lemma holds_nonzero (f : float) (z : Z) : holds f z -> z <> 0 -> Prim2SF f = encZ z.
Proof. intros [_ [H|[H _]]] Hz; [exact H|contradiction]. Qed.

Lemma min_ofZ (a b : Z) :
  Z.abs a < 2 ^ 53 -> Z.abs b < 2 ^ 53 ->
  B64.min (B64.ofZ a) (B64.ofZ b) = B64.ofZ (Z.min a b).
Proof.
  intros Ha Hb. unfold B64.min.
  rewrite (ltb_holds _ _ a b), (ltb_holds _ _ b a), (eqb_holds _ _ a b)
    by (apply ofZ_holds; assumption).
  destruct (Z.ltb_spec a b); [f_equal; lia|].
  destruct (Z.ltb_spec b a); [f_equal; lia|].
  assert (a = b) by lia. subst b. rewrite Z.eqb_refl, Z.min_id.
  destruct (B64.is_neg_zero _); reflexivity.
Qed.

Lemma max_ofZ (a b : Z) :
  Z.abs a < 2 ^ 53 -> Z.abs b < 2 ^ 53 ->
  B64.max (B64.ofZ a) (B64.ofZ b) = B64.ofZ (Z.max a b).
Proof.
  intros Ha Hb. unfold B64.max.
  rewrite (ltb_holds _ _ a b), (ltb_holds _ _ b a), (eqb_holds _ _ a b)
    by (apply ofZ_holds; assumption).
  destruct (Z.ltb_spec a b); [f_equal; lia|].
  destruct (Z.ltb_spec b a); [f_equal; lia|].
  assert (a = b) by lia. subst b. rewrite Z.eqb_refl, Z.max_id.
  destruct (B64.is_neg_zero _); reflexivity.
Qed.

(** [Math.min(Infinity, a)] and [Math.max(-Infinity, a)] are [a]. *)
Lemma min_infinity (a : Z) :
  Z.abs a < 2 ^ 53 -> B64.min (infinity F64) (B64.ofZ a) = B64.ofZ a.
Proof.
  intros Ha. unfold B64.min. rewrite !FloatAxioms.ltb_spec. unfold SFltb.
  assert (I : Prim2SF (infinity F64) = S754_infinity false) by reflexivity.
  rewrite I, (ofZ_enc a Ha). destruct a as [|p|p]; reflexivity.
Qed.

Lemma max_neg_infinity (a : Z) :
  Z.abs a < 2 ^ 53 -> B64.max (neg F64 (infinity F64)) (B64.ofZ a) = B64.ofZ a.
Proof.
  intros Ha. unfold B64.max. rewrite !FloatAxioms.ltb_spec. unfold SFltb.
  assert (I : Prim2SF (neg F64 (infinity F64)) = S754_infinity true) by reflexivity.
  rewrite I, (ofZ_enc a Ha). destruct a as [|p|p]; reflexivity.
Qed.

Lemma fold_min_ofZ (B : Z) (zs : list Z) (z : Z) :
  B < 2 ^ 53 -> Z.abs z <= B -> (forall c, In c zs -> Z.abs c <= B) ->
  fold_left B64.min (map B64.ofZ zs) (B64.ofZ z) = B64.ofZ (fold_left Z.min zs z)
  /\ Z.abs (fold_left Z.min zs z) <= B.
Proof.
  intros HB. revert z. induction zs as [|c zs IH]; intros z Hz Hzs; [split; [reflexivity|exact Hz]|].
  cbn [map fold_left]. rewrite min_ofZ by (try specialize (Hzs c (or_introl eq_refl)); lia).
  apply IH.
  - specialize (Hzs c (or_introl eq_refl)). lia.
  - intros c' Hc'. apply Hzs. now right.
Qed.

Lemma fold_max_ofZ (B : Z) (zs : list Z) (z : Z) :
  B < 2 ^ 53 -> Z.abs z <= B -> (forall c, In c zs -> Z.abs c <= B) ->
  fold_left B64.max (map B64.ofZ zs) (B64.ofZ z) = B64.ofZ (fold_left Z.max zs z)
  /\ Z.abs (fold_left Z.max zs z) <= B.
Proof.
  intros HB. revert z. induction zs as [|c zs IH]; intros z Hz Hzs; [split; [reflexivity|exact Hz]|].
  cbn [map fold_left]. rewrite max_ofZ by (try specialize (Hzs c (or_introl eq_refl)); lia).
  apply IH.
  - specialize (Hzs c (or_introl eq_refl)). lia.
  - intros c' Hc'. apply Hzs. now right.
Qed.

Lemma fold_min_le (zs : list Z) (z : Z) :
  fold_left Z.min zs z <= z /\ forall c, In c zs -> fold_left Z.min zs z <= c.
Proof.
  revert z. induction zs as [|c zs IH]; intros z; [split; [simpl; lia|contradiction]|].
  cbn [fold_left]. destruct (IH (Z.min z c)) as [H1 H2]. split; [lia|].
  intros c' [<-|Hc']; [lia|now apply H2].
Qed.

Lemma fold_max_ge (zs : list Z) (z : Z) :
  z <= fold_left Z.max zs z /\ forall c, In c zs -> c <= fold_left Z.max zs z.
Proof.
  revert z. induction zs as [|c zs IH]; intros z; [split; [simpl; lia|contradiction]|].
  cbn [fold_left]. destruct (IH (Z.max z c)) as [H1 H2]. split; [lia|].
  intros c' [<-|Hc']; [lia|now apply H2].
Qed.

(** The least and the greatest of integer coordinates, as [Math.min] and
    [Math.max] find them. *)
Lemma minOf_int (B : Z) (z : Z) (zs : list Z) :
  B < 2 ^ 53 -> (forall c, In c (z :: zs) -> Z.abs c <= B) ->
  exists m, minOf F64 (map B64.ofZ (z :: zs)) = B64.ofZ m
            /\ Z.abs m <= B /\ forall c, In c (z :: zs) -> m <= c.
Proof.
  intros HB H. assert (Hz : Z.abs z <= B) by (apply H; now left).
  exists (fold_left Z.min zs z). unfold minOf. cbn [map fold_left nmin F64].
  rewrite min_infinity by lia.
  destruct (fold_min_ofZ B zs z HB Hz) as [E Hb]; [intros c Hc; apply H; now right|].
  split; [exact E|]. split; [exact Hb|].
  destruct (fold_min_le zs z) as [H1 H2]. intros c [<-|Hc]; auto.
Qed.

Lemma maxOf_int (B : Z) (z : Z) (zs : list Z) :
  B < 2 ^ 53 -> (forall c, In c (z :: zs) -> Z.abs c <= B) ->
  exists m, maxOf F64 (map B64.ofZ (z :: zs)) = B64.ofZ m
            /\ Z.abs m <= B /\ forall c, In c (z :: zs) -> c <= m.
Proof.
  intros HB H. assert (Hz : Z.abs z <= B) by (apply H; now left).
  exists (fold_left Z.max zs z). unfold maxOf. cbn [map fold_left nmax F64].
  rewrite max_neg_infinity by lia.
  destruct (fold_max_ofZ B zs z HB Hz) as [E Hb]; [intros c Hc; apply H; now right|].
  split; [exact E|]. split; [exact Hb|].
  destruct (fold_max_ge zs z) as [H1 H2]. intros c [<-|Hc]; auto.
Qed.

(** The extent [max - min], or 1 when the two are equal. *)
Lemma extent_int (B lo hi : Z) :
  2 * B < 2 ^ 53 -> Z.abs lo <= B -> Z.abs hi <= B -> lo <= hi ->
  exists w,
    (if negb (eqb F64 (B64.ofZ hi) (B64.ofZ lo))
     then sub F64 (B64.ofZ hi) (B64.ofZ lo) else lit F64 1) = B64.ofZ w
    /\ 0 < w < 2 ^ 53 /\ hi <= lo + w.
Proof.
  intros HB Hlo Hhi Hle. cbn [eqb sub F64].
  rewrite (eqb_holds _ _ hi lo) by (apply ofZ_holds; lia).
  destruct (Z.eqb_spec hi lo) as [->|Hne]; cbn [negb].
  - exists 1. split; [reflexivity|lia].
  - exists (hi - lo). split; [|lia].
    apply enc_ofZ; [lia|]. apply holds_nonzero; [|lia].
    apply sub_holds; try (apply ofZ_holds; lia); lia.
Qed.

(** The bounds of points with integer coordinates are integers. *)
Lemma getBounds_int (B : Z) (pts : list (Point Z)) :
  pts <> [] -> within B pts -> 2 * B < 2 ^ 53 ->
  exists left top w h : Z,
    getBounds F64 (map intPoint pts)
    = Rectangle.mk (B64.ofZ left) (B64.ofZ top) (B64.ofZ w) (B64.ofZ h)
    /\ Z.abs left <= B /\ Z.abs top <= B /\ 0 < w < 2 ^ 53 /\ 0 < h < 2 ^ 53
    /\ forall q, In q pts ->
                 left <= x q /\ x q <= left + w /\ top <= y q /\ y q <= top + h.
Proof.
  intros Hne HP HB. destruct pts as [|q0 pts]; [congruence|]. clear Hne.
  assert (B0 : 0 <= B) by (destruct (HP q0 (or_introl eq_refl)); lia).
  assert (B1 : B < 2 ^ 53) by lia.
  unfold getBounds. rewrite !map_map. cbn [intPoint x y].
  rewrite <- !(map_map (@x Z) B64.ofZ), <- !(map_map (@y Z) B64.ofZ).
  assert (Hx : forall c, In c (map (@x Z) (q0 :: pts)) -> Z.abs c <= B).
  { intros c Hc. apply in_map_iff in Hc. destruct Hc as [q [<- Hq]]. now apply HP. }
  assert (Hy : forall c, In c (map (@y Z) (q0 :: pts)) -> Z.abs c <= B).
  { intros c Hc. apply in_map_iff in Hc. destruct Hc as [q [<- Hq]]. now apply HP. }
  cbn [map] in Hx, Hy |- *.
  change (B64.ofZ (x q0) :: map B64.ofZ (map (@x Z) pts))
    with (map B64.ofZ (x q0 :: map (@x Z) pts)).
  change (B64.ofZ (y q0) :: map B64.ofZ (map (@y Z) pts))
    with (map B64.ofZ (y q0 :: map (@y Z) pts)).
  destruct (minOf_int B _ _ B1 Hx) as [lx [-> [Blx Hlx]]].
  destruct (maxOf_int B _ _ B1 Hx) as [hx [-> [Bhx Hhx]]].
  destruct (minOf_int B _ _ B1 Hy) as [ly [-> [Bly Hly]]].
  destruct (maxOf_int B _ _ B1 Hy) as [hy [-> [Bhy Hhy]]].
  assert (Lx : lx <= hx) by (specialize (Hlx _ (or_introl eq_refl));
                             specialize (Hhx _ (or_introl eq_refl)); lia).
  assert (Ly : ly <= hy) by (specialize (Hly _ (or_introl eq_refl));
                             specialize (Hhy _ (or_introl eq_refl)); lia).
  destruct (extent_int B lx hx HB Blx Bhx Lx) as [w [-> [Hw Hwx]]].
  destruct (extent_int B ly hy HB Bly Bhy Ly) as [h [-> [Hh Hhy']]].
  exists lx, ly, w, h. split; [reflexivity|]. split; [exact Blx|]. split; [exact Bly|].
  split; [exact Hw|]. split; [exact Hh|].
  intros q Hq.
  assert (Ix : In (x q) (x q0 :: map (@x Z) pts)).
  { change (In (x q) (map (@x Z) (q0 :: pts))). now apply in_map. }
  assert (Iy : In (y q) (y q0 :: map (@y Z) pts)).
  { change (In (y q) (map (@y Z) (q0 :: pts))). now apply in_map. }
  specialize (Hlx _ Ix). specialize (Hhx _ Ix). specialize (Hly _ Iy). specialize (Hhy _ Iy).
  lia.
Qed.


End Bounds.

(* ================================================================== *)
(** * Normalized points *)

Section NormalizedPoints.

Open Scope Z_scope.

(** Rounding a mantissa of at least 53 bits that is below a power of two
    gives a double that is not above that power. *)
Lemma round_aux_below (s : bool) (m e t : Z) (l : location) :
  0 < m -> 53 <= Zdigits2 m ->
  -1074 <= Zdigits2 m + e - 53 -> Zdigits2 m + e - 53 < 971 ->
  m < 2 ^ t ->
  exists m' e',
    binary_round_aux prec emax s m e l = S754_finite s m' e'
    /\ digits m' = 53 /\ e <= e' /\ Zpos m' * 2 ^ (e' - e) <= 2 ^ t.
Proof.
  intros Hm Hd Hlo Hhi Ht. pose proof (Zdigits2_bounds m Hm) as [Bl Bu].
  set (d := Zdigits2 m) in *.
  assert (Hdt : d <= t).
  { destruct (Z_le_gt_dec d t); [assumption|exfalso].
    assert (2 ^ t <= 2 ^ (d - 1)) by (apply Z.pow_le_mono_r; lia). lia. }
  unfold binary_round_aux, shr_fexp. fold d.
  assert (F1 : fexp prec emax (d + e) = d + e - 53)
    by (unfold fexp, SpecFloat.emin, prec, emax; lia).
  rewrite F1.
  pose proof (shr_m_value (shr_record_of_loc m l) e (d + e - 53 - e)) as S1.
  rewrite shr_record_m in S1. destruct S1 as [S1 S2]; [lia|lia|].
  destruct (shr (shr_record_of_loc m l) e (d + e - 53 - e)) as [mrs1 e1].
  cbn [fst snd] in S1, S2. subst e1.
  replace (d + e - 53 - e) with (d - 53) in S1 by lia.
  assert (P : 0 < 2 ^ (d - 53)) by (apply Z.pow_pos_nonneg; lia).
  assert (M1 : 2 ^ 52 <= shr_m mrs1 < 2 ^ 53).
  { rewrite S1. split.
    - apply Z.div_le_lower_bound; [assumption|].
      rewrite <- Z.pow_add_r by lia. replace (d - 53 + 52) with (d - 1) by lia. assumption.
    - apply Z.div_lt_upper_bound; [assumption|].
      rewrite <- Z.pow_add_r by lia. replace (d - 53 + 53) with d by lia. assumption. }
  assert (M2 : shr_m mrs1 + 1 <= 2 ^ (t - (d - 53))).
  { assert (shr_m mrs1 < 2 ^ (t - (d - 53))); [|lia].
    rewrite S1. apply Z.div_lt_upper_bound; [assumption|].
    rewrite <- Z.pow_add_r by lia. replace (d - 53 + (t - (d - 53))) with t by lia.
    assumption. }
  pose proof (round_nearest_even_bounds (shr_m mrs1) (loc_of_shr_record mrs1)) as R.
  set (mr := round_nearest_even (shr_m mrs1) (loc_of_shr_record mrs1)) in *.
  replace (e + (d + e - 53 - e)) with (d + e - 53) by lia.
  cbn [shr_record_of_loc].
  destruct (Z.eq_dec mr (2 ^ 53)) as [E|NE].
  - rewrite E. change (Zdigits2 (2 ^ 53)) with 54.
    assert (F2 : fexp prec emax (54 + (d + e - 53)) - (d + e - 53) = 1)
      by (unfold fexp, SpecFloat.emin, prec, emax; lia).
    rewrite F2. cbn [shr iter_pos]. change (shr_1 _) with (Build_shr_record (2 ^ 52) false false).
    cbn [shr_m]. change (2 ^ 52) with (Zpos (Z.to_pos (2 ^ 52))).
    destruct (Z.leb_spec (d + e - 53 + 1) (emax - prec)) as [_|C];
      [|unfold emax, prec in C; lia].
    eexists _, _. split; [reflexivity|]. split; [reflexivity|]. split; [lia|].
    change (Zpos (Z.to_pos (2 ^ 52))) with (2 ^ 52).
    rewrite <- Z.pow_add_r by lia. apply Z.pow_le_mono_r; lia.
  - assert (Dr : Zdigits2 mr = 53) by (apply Zdigits2_unique; simpl; lia).
    rewrite Dr.
    assert (F2 : fexp prec emax (53 + (d + e - 53)) - (d + e - 53) = 0)
      by (unfold fexp, SpecFloat.emin, prec, emax; lia).
    rewrite F2. cbn [shr shr_m].
    destruct mr as [|q|q] eqn:Emr; [lia| |lia].
    destruct (Z.leb_spec (d + e - 53) (emax - prec)) as [_|C];
      [|unfold emax, prec in C; lia].
    eexists _, _. split; [reflexivity|]. split; [exact Dr|]. split; [lia|].
    replace (d + e - 53 - e) with (d - 53) by lia.
    replace (2 ^ t) with (2 ^ (t - (d - 53)) * 2 ^ (d - 53))
      by (rewrite <- Z.pow_add_r by lia; f_equal; lia).
    apply Z.mul_le_mono_nonneg_r; lia.
Qed.

(** The quotient of two normal doubles, the first smaller than the second,
    is at most 1. *)
Lemma SFdiv_below_one (mx my : positive) (ex ey : Z) :
  digits mx = 53 -> digits my = 53 -> -52 <= ex <= ey -> ey <= 0 ->
  Zpos mx < Zpos my * 2 ^ (ey - ex) ->
  exists m' e',
    SFdiv prec emax (S754_finite false mx ex) (S754_finite false my ey)
    = S754_finite false m' e'
    /\ (e' < -52 \/ (e' = -52 /\ Zpos m' = 2 ^ 52)).
Proof.
  intros Dx Dy Hex Hey Hlt. cbn [SFdiv xorb].
  pose proof (mantissa_bounds mx Dx) as Bx.
  pose proof (mantissa_bounds my Dy) as By.
  unfold SFdiv_core_binary. cbn [Zdigits2]. fold (digits mx). fold (digits my).
  rewrite Dx, Dy.
  assert (E1 : Z.min (fexp prec emax (53 + ex - (53 + ey))) (ex - ey) = ex - ey - 53)
    by (unfold fexp, SpecFloat.emin, prec, emax; lia).
  rewrite E1. replace (ex - ey - (ex - ey - 53)) with 53 by lia.
  rewrite Z.shiftl_mul_pow2 by lia.
  pose proof (Z_div_mod (Zpos mx * 2 ^ 53) (Zpos my) ltac:(lia)) as DM.
  destruct (Z.div_eucl (Zpos mx * 2 ^ 53) (Zpos my)) as [q r].
  destruct DM as [DM Rr].
  assert (Q1 : 2 ^ 52 <= q).
  { destruct (Z_le_gt_dec (2 ^ 52) q); [assumption|exfalso].
    assert (Zpos my * q + r < Zpos my * (q + 1)) by lia.
    assert (Zpos my * (q + 1) <= Zpos my * 2 ^ 52) by (apply Z.mul_le_mono_nonneg_l; lia).
    assert (Zpos my * 2 ^ 52 < 2 ^ 53 * 2 ^ 52) by (apply Z.mul_lt_mono_pos_r; lia).
    assert (2 ^ 52 * 2 ^ 53 <= Zpos mx * 2 ^ 53) by (apply Z.mul_le_mono_nonneg_r; lia).
    lia. }
  assert (Q2 : q < 2 ^ 54).
  { destruct (Z_lt_le_dec q (2 ^ 54)); [assumption|exfalso].
    assert (Zpos my * 2 ^ 54 <= Zpos my * q) by (apply Z.mul_le_mono_nonneg_l; lia).
    assert (2 ^ 52 * 2 ^ 54 <= Zpos my * 2 ^ 54) by (apply Z.mul_le_mono_nonneg_r; lia).
    assert (Zpos mx * 2 ^ 53 < 2 ^ 53 * 2 ^ 53) by (apply Z.mul_lt_mono_pos_r; lia).
    change (2 ^ 52 * 2 ^ 54) with (2 ^ 53 * 2 ^ 53) in *. lia. }
  assert (DQ : Zdigits2 q = 53 \/ Zdigits2 q = 54).
  { destruct (Z_lt_le_dec q (2 ^ 53)).
    - left. apply Zdigits2_unique; simpl Z.sub; lia.
    - right. apply Zdigits2_unique; simpl Z.sub; lia. }
  assert (P : 0 < 2 ^ (ey - ex)) by (apply Z.pow_pos_nonneg; lia).
  assert (Q3 : q < 2 ^ (53 + (ey - ex))).
  { rewrite Z.pow_add_r by lia.
    destruct (Z_lt_le_dec q (2 ^ 53 * 2 ^ (ey - ex))); [assumption|exfalso].
    assert (Zpos my * (2 ^ 53 * 2 ^ (ey - ex)) <= Zpos my * q)
      by (apply Z.mul_le_mono_nonneg_l; lia).
    assert (Zpos mx * 2 ^ 53 < Zpos my * 2 ^ (ey - ex) * 2 ^ 53)
      by (apply Z.mul_lt_mono_pos_r; lia).
    lia. }
  destruct (round_aux_below false q (ex - ey - 53) (53 + (ey - ex))
                            (new_location (Zpos my) r))
    as [m' [e' [E [D' [He' Hv]]]]]; try lia.
  exists m', e'. split; [exact E|].
  pose proof (mantissa_bounds m' D') as Bm.
  assert (P2 : 0 < 2 ^ (e' - (ex - ey - 53))) by (apply Z.pow_pos_nonneg; lia).
  assert (Hle : e' <= -52).
  { destruct (Z_le_gt_dec e' (-52)); [assumption|exfalso].
    assert (2 ^ (53 + (ey - ex) + 1) <= 2 ^ (52 + (e' - (ex - ey - 53))))
      by (apply Z.pow_le_mono_r; lia).
    rewrite (Z.pow_add_r 2 52) in H by lia.
    assert (2 ^ 52 * 2 ^ (e' - (ex - ey - 53)) <= Zpos m' * 2 ^ (e' - (ex - ey - 53)))
      by (apply Z.mul_le_mono_nonneg_r; lia).
    assert (2 ^ (53 + (ey - ex)) < 2 ^ (53 + (ey - ex) + 1))
      by (apply Z.pow_lt_mono_r; lia).
    lia. }
  destruct (Z.eq_dec e' (-52)) as [->|NE]; [right; split; [reflexivity|]|left; lia].
  replace (-52 - (ex - ey - 53)) with (1 + (ey - ex)) in * by lia.
  replace (53 + (ey - ex)) with (52 + (1 + (ey - ex))) in Hv by lia.
  rewrite (Z.pow_add_r 2 52) in Hv by lia.
  assert (Zpos m' <= 2 ^ 52); [|lia].
  apply (Z.mul_le_mono_pos_r _ _ (2 ^ (1 + (ey - ex)))); assumption.
Qed.

(** The quotient of two doubles that hold integers 0 <= a <= w, with
    0 < w, is between 0 and 1. *)
Lemma div_unit (f g : float) (a w : Z) :
  holds f a -> holds g w -> 0 <= a <= w -> 0 < w ->
  leb F64 (lit F64 0) (div F64 f g) = true /\ leb F64 (div F64 f g) (lit F64 1) = true.
Proof.
  intros Hf Hg Ha Hw.
  destruct (Z.eq_dec a w) as [Eaw|Naw].
  { subst a. pose proof (div_same f g w Hf Hg ltac:(lia)) as H1.
    split.
    - change (lit F64 0) with (B64.ofZ 0). cbn [leb F64].
      now rewrite (leb_holds _ _ 0 1 (ofZ_holds 0 ltac:(simpl; lia)) H1).
    - change (lit F64 1) with (B64.ofZ 1). cbn [leb F64].
      now rewrite (leb_holds _ _ 1 1 H1 (ofZ_holds 1 ltac:(simpl; lia))). }
  cbn [leb div F64].
  rewrite !FloatAxioms.leb_spec, FloatAxioms.div_spec.
  change (Prim2SF (lit F64 0)) with (S754_zero false).
  change (Prim2SF (lit F64 1)) with (S754_finite false 4503599627370496 (-52)).
  destruct (holds_inv g w Hg) as [[C _]|[sw [pw [Ew [Dw Eg]]]]]; [lia|].
  destruct sw; cbn [cond_Zopp] in Ew; [lia|]. rewrite Eg.
  destruct (holds_inv f a Hf) as [[_ [s Ef]]|[sa [pa [Ea [Da Ef]]]]]; rewrite Ef.
  - unfold encP. destruct s; split; reflexivity.
  - destruct sa; cbn [cond_Zopp] in Ea; [lia|].
    pose proof (digits_pos pa) as Pa. pose proof (digits_pos pw) as Pw.
    assert (Dle : digits pa <= digits pw).
    { apply digits_le; [lia|]. pose proof (digits_bounds pw). lia. }
    unfold encP, SF64div.
    destruct (SFdiv_below_one (Z.to_pos (Zpos pa * 2 ^ (53 - digits pa)))
                              (Z.to_pos (Zpos pw * 2 ^ (53 - digits pw)))
                              (digits pa - 53) (digits pw - 53))
      as [m' [e' [E He']]].
    + rewrite digits_shift by lia. lia.
    + rewrite digits_shift by lia. lia.
    + lia.
    + lia.
    + rewrite !encP_mantissa by assumption.
      replace (digits pw - 53 - (digits pa - 53)) with (digits pw - digits pa) by lia.
      rewrite <- Z.mul_assoc, <- Z.pow_add_r by lia.
      replace (53 - digits pw + (digits pw - digits pa)) with (53 - digits pa) by lia.
      apply Z.mul_lt_mono_pos_r; [apply Z.pow_pos_nonneg|]; lia.
    + rewrite E. split; [reflexivity|].
      unfold SFleb, SFcompare.
      destruct He' as [Hlt|[-> Em]].
      * destruct (Z.compare_spec e' (-52)); first [lia|reflexivity].
      * cbn [Z.compare]. rewrite Pos.compare_cont_spec.
        replace m' with 4503599627370496%positive by (apply Pos2Z.inj; rewrite Em; reflexivity).
        reflexivity.
Qed.

(** X11: for a non-empty array of points with integer coordinates of at most
    B in absolute value, where 2 B < 2^53, the points that
    [getNormalizedPoints] makes of the array and its own bounds lie in the
    unit square: the two divisions round, and what they give is between 0
    and 1. *)
Theorem getNormalizedPoints_in_unit_square (B : Z) (pts : list (Point Z)) :
  pts <> [] -> within B pts -> 2 * B < 2 ^ 53 ->
  Forall (fun p => leb F64 (lit F64 0) (x p) = true /\ leb F64 (x p) (lit F64 1) = true
                   /\ leb F64 (lit F64 0) (y p) = true /\ leb F64 (y p) (lit F64 1) = true)
         (getNormalizedPoints F64 (map intPoint pts) (getBounds F64 (map intPoint pts))).
Proof.
  intros Hne HP HB.
  destruct (getBounds_int B pts Hne HP HB)
    as [left [top [w [h [-> [Bl [Bt [Hw [Hh Hin]]]]]]]]].
  unfold getNormalizedPoints. rewrite map_map. apply Forall_map, Forall_forall.
  intros q Hq. cbn [x y intPoint Rectangle.x Rectangle.y Rectangle.width Rectangle.height].
  destruct (HP q Hq) as [Bx By]. destruct (Hin q Hq) as [X1 [X2 [Y1 Y2]]].
  assert (Sx : holds (sub F64 (B64.ofZ (x q)) (B64.ofZ left)) (x q - left))
    by (apply sub_holds; try (apply ofZ_holds; lia); lia).
  assert (Sy : holds (sub F64 (B64.ofZ (y q)) (B64.ofZ top)) (y q - top))
    by (apply sub_holds; try (apply ofZ_holds; lia); lia).
  destruct (div_unit _ (B64.ofZ w) _ w Sx (ofZ_holds w ltac:(lia)) ltac:(lia) ltac:(lia))
    as [U1 U2].
  destruct (div_unit _ (B64.ofZ h) _ h Sy (ofZ_holds h ltac:(lia)) ltac:(lia) ltac:(lia))
    as [V1 V2].
  repeat split; assumption.
Qed.

End NormalizedPoints.

(** The witness of X11: the square, normalized. *)
Lemma getNormalizedPoints_in_unit_square_witness :
  Ex.squareZ <> []
  /\ within 10 Ex.squareZ
  /\ (2 * 10 < 2 ^ 53)%Z
  /\ Forall (fun p => leb F64 (lit F64 0) (x p) = true /\ leb F64 (x p) (lit F64 1) = true
                      /\ leb F64 (lit F64 0) (y p) = true
                      /\ leb F64 (y p) (lit F64 1) = true)
            (getNormalizedPoints F64 (map intPoint Ex.squareZ)
                                 (getBounds F64 (map intPoint Ex.squareZ))).
Proof.
  assert (H1 : Ex.squareZ <> []) by discriminate.
  assert (H2 : within 10 Ex.squareZ).
  { intros q [<-|[<-|[<-|[<-|[]]]]]; simpl; lia. }
  assert (H3 : (2 * 10 < 2 ^ 53)%Z) by reflexivity.
  split; [exact H1|]. split; [exact H2|]. split; [exact H3|].
  exact (getNormalizedPoints_in_unit_square 10 Ex.squareZ H1 H2 H3).
Defined.

(* ================================================================== *)
(** * The persisted form *)

Lemma mapFrom_Forall2 {A B : Type} (f : A -> nat -> outcome B) (R : A -> B -> Prop)
      (arr : list A) (k : nat) :
  (forall a, In a arr -> forall i, exists b, f a i = Returns b /\ R a b) ->
  exists bs, mapFrom f k arr = Returns bs /\ Forall2 R arr bs.
Proof.
  revert k. induction arr as [|a arr IH]; intros k H.
  - exists []. split; [reflexivity|constructor].
  - destruct (H a (or_introl eq_refl) k) as [b [Eb Rb]].
    destruct (IH (Datatypes.S k)) as [bs [Ebs Rbs]].
    { intros a' Ha'. apply H. now right. }
    exists (b :: bs). cbn [mapFrom]. rewrite Eb. cbn [bind]. rewrite Ebs. cbn [bind].
    split; [reflexivity|now constructor].
Qed.

Lemma mapFrom_inv {A B : Type} (f : A -> nat -> outcome B) (arr : list A) (k : nat)
      (bs : list B) :
  mapFrom f k arr = Returns bs ->
  Forall2 (fun a b => exists i, f a i = Returns b) arr bs.
Proof.
  revert k bs. induction arr as [|a arr IH]; intros k bs H; cbn [mapFrom] in H.
  - inversion H. constructor.
  - destruct (f a k) as [b| |] eqn:Eb; cbn [bind] in H; try discriminate.
    destruct (mapFrom f (Datatypes.S k) arr) as [bs'| |] eqn:Ebs; cbn [bind] in H;
      try discriminate.
    inversion H. subst. constructor; [now exists k|]. eapply IH, Ebs.
Qed.

Section LoopBounds.

Context {S : Type}.

Lemma forM_no_bound (idx : list nat) (body : nat -> S -> outcome S) (s : S) :
  (forall i s0, body i s0 <> OutOfFuel) -> forM idx body s <> OutOfFuel.
Proof.
  intros H. revert s. induction idx as [|i idx IH]; intros s; [discriminate|].
  rewrite forM_cons. specialize (H i s).
  destruct (body i s) as [s'| |]; cbn [bind]; [apply IH|discriminate|congruence].
Qed.

End LoopBounds.

Ltac no_bound :=
  repeat match goal with
         | |- Returns _ <> OutOfFuel => discriminate
         | |- Throws <> OutOfFuel => discriminate
         | |- bind (prop_of ?o) _ <> OutOfFuel =>
             destruct o; cbn [prop_of bind]; [|discriminate]
         | |- bind (forM ?idx ?body ?s) _ <> OutOfFuel =>
             let E := fresh "E" in
             destruct (forM idx body s) eqn:E; cbn [bind];
             [ clear E
             | discriminate
             | exfalso; revert E; apply forM_no_bound; intros ]
         | |- forM _ _ _ <> OutOfFuel => apply forM_no_bound; intros
         | |- (let '(_, _) := ?p in _) <> OutOfFuel => destruct p
         end.

Section Persisted.

Context {N : Type} (ops : NumOps N).

Lemma monotoneTangents_no_bound (points : list (Point N)) :
  monotoneTangents ops points <> OutOfFuel.
Proof.
  unfold monotoneTangents. cbv zeta. no_bound.
Qed.

Lemma getControlPointsFromTangents_within_bound (points tangents : list (Point N)) :
  getControlPointsFromTangents ops points tangents <> OutOfFuel.
Proof.
  unfold getControlPointsFromTangents. no_bound.
Qed.

Lemma loadPointset_no_bound (bounds : Rectangle.t N) (s : PointsetSerialized.t N) :
  loadPointset ops bounds s <> OutOfFuel.
Proof.
  unfold loadPointset. cbv zeta. no_bound.
  match goal with
  | |- bind (monotoneTangents ops ?p) _ <> _ =>
      generalize (monotoneTangents_no_bound p);
      destruct (monotoneTangents ops p) as [tangents| |]; cbn [bind];
      [intros _|discriminate|congruence]
  end.
  match goal with
  | |- bind (getControlPointsFromTangents ops ?p ?t) _ <> _ =>
      generalize (getControlPointsFromTangents_within_bound p t);
      destruct (getControlPointsFromTangents ops p t) as [cps| |]; cbn [bind];
      [intros _|discriminate|congruence]
  end.
  no_bound. unfold mapM.
  match goal with
  | |- bind (mapFrom ?f ?k ?arr) _ <> _ =>
      assert (Hm : mapFrom f k arr <> OutOfFuel);
      [ apply mapFrom_no_bound; intros; no_bound
      | destruct (mapFrom f k arr); cbn [bind]; [discriminate|discriminate|congruence] ]
  end.
Qed.

(** X12: A pointset with exactly one point is saved as the object [{}], and
    [convertPersistedRepresentation] throws on what was saved: it reads
    [ps.points.map] of that object. *)
Theorem one_point_pointset_is_not_loadable (pointsets : list (Pointset.t N))
        (pointset : Pointset.t N) (data : Persisted.t N) :
  In pointset pointsets ->
  length (Pointset.points pointset) = 1%nat ->
  convertToPersistedRepresentation ops pointsets = Returns data ->
  convertPersistedRepresentation ops data = Throws.
Proof.
  intros Hin Hone Hsave. unfold convertToPersistedRepresentation, mapM in Hsave.
  cbv zeta in Hsave.
  match type of Hsave with
  | bind (mapFrom ?f 0 ?arr) _ = _ =>
      destruct (mapFrom f 0 arr) as [sets| |] eqn:Esets; cbn [bind] in Hsave;
      try discriminate
  end.
  inversion Hsave as [Edata]. clear Hsave.
  apply mapFrom_inv in Esets.
  assert (Hf : In pointset
                  (filter (fun ps : Pointset.t N => Nat.ltb 0 (length (Pointset.points ps)))
                          pointsets)).
  { apply filter_In. split; [exact Hin|]. now rewrite Hone. }
  assert (Hs : In (PointsetSerialized.mk None None) sets).
  { clear - Esets Hf Hone. induction Esets as [|a b l l' Hab Hl IH]; [contradiction|].
    destruct Hf as [->|Hf]; [|right; now apply IH].
    left. destruct Hab as [_ Hab]. unfold pointsetToSerializedForm in Hab.
    rewrite Hone in Hab. cbn in Hab. congruence. }
  apply In_nth_error in Hs. destruct Hs as [j Hj].
  unfold convertPersistedRepresentation, mapM. cbn [Persisted.pointsets].
  eapply mapFrom_throws with (j := j); [|exact Hj|reflexivity].
  intros s i. apply loadPointset_no_bound.
Qed.

End Persisted.
Section RoundTrip.

Context {N : Type} (ops : NumOps N).

(** [pointsetToSerializedForm] on a pointset of two points or more that has
    a diff for every base control point. *)
Lemma pointsetToSerializedForm_saved (range : Rectangle.t N) (ps : Pointset.t N) :
  (2 <= length (Pointset.points ps))%nat ->
  (2 * (length (Pointset.points ps) - 1) <= length (Pointset.controlPointDiffs ps))%nat ->
  exists s, pointsetToSerializedForm ops ps range = Returns s /\ savedAs ops range ps s.
Proof.
  intros Hn Hd. unfold pointsetToSerializedForm.
  replace (Nat.ltb 1 (length (Pointset.points ps))) with true
    by (symmetry; apply Nat.ltb_lt; lia).
  destruct (getEffectiveControlPoints_returns ops ps Hd) as [cps [Ec Lc]].
  rewrite Ec. cbn [bind]. eexists. split; [reflexivity|].
  unfold savedAs. cbn [PointsetSerialized.points PointsetSerialized.controlPoints].
  split; [reflexivity|]. split; [exact Hn|]. eexists. split; [reflexivity|].
  unfold getNormalizedPoints. now rewrite !length_map.
Qed.

(** Loading what was saved of a pointset returns a pointset with as many
    points, and with a diff for every base control point. *)
Lemma loadPointset_saved (bounds range : Rectangle.t N) (ps : Pointset.t N)
      (s : PointsetSerialized.t N) :
  savedAs ops range ps s ->
  exists ps',
    loadPointset ops bounds s = Returns ps'
    /\ length (Pointset.points ps') = length (Pointset.points ps)
    /\ length (Pointset.controlPointDiffs ps')
       = (2 * (length (Pointset.points ps) - 1))%nat.
Proof.
  intros [Ep [Hn [c [Ec Lc]]]].
  unfold loadPointset. rewrite Ep. cbn [prop_of bind]. cbv zeta.
  set (points' := map _ (map (@ptAsArray N) _)).
  assert (Hlen : length points' = length (Pointset.points ps)).
  { unfold points', getNormalizedPoints. now rewrite !length_map. }
  destruct (monotoneTangents_returns ops points') as [tangents [Et Lt]]; [lia|].
  rewrite Et. cbn [bind].
  destruct (getControlPointsFromTangents_length ops points' tangents Lt)
    as [cps [Ecps Lcps]].
  rewrite Ecps. cbn [bind]. rewrite Ec. cbn [prop_of bind]. unfold mapM.
  match goal with
  | |- context [mapFrom ?f 0 ?arr] =>
      rewrite (mapFrom_returns f
                 (fun q i => let c0 := nth i cps q in
                             mkPoint (sub ops (x q) (x c0)) (sub ops (y q) (y c0)))
                 arr 0)
  end.
  - cbn [bind]. eexists. split; [reflexivity|].
    cbn [Pointset.points Pointset.controlPointDiffs]. split; [exact Hlen|].
    rewrite length_map, length_combine, length_seq, Nat.min_id, length_map. exact Lc.
  - intros j a Hj. cbn [Nat.add].
    assert (Hlt : (j < length cps)%nat).
    { rewrite Lcps, Hlen, <- Lc.
      apply nth_error_Some. rewrite nth_error_map in Hj.
      destruct (nth_error c j); [discriminate|discriminate Hj]. }
    rewrite (nth_error_nth' cps a Hlt). reflexivity.
Qed.

Lemma load_all (bounds range : Rectangle.t N) (l : list (Pointset.t N))
      (sets : list (PointsetSerialized.t N)) (k : nat) :
  Forall2 (savedAs ops range) l sets ->
  exists loaded,
    mapFrom (fun ps (_ : nat) => loadPointset ops bounds ps) k sets = Returns loaded
    /\ Forall2 (fun ps ps' =>
                  length (Pointset.points ps') = length (Pointset.points ps)
                  /\ length (Pointset.controlPointDiffs ps')
                     = (2 * (length (Pointset.points ps) - 1))%nat)
               l loaded.
Proof.
  intros Hsets. revert k.
  induction Hsets as [|ps s l l' Hps Hl IH]; intros k.
  - exists []. split; [reflexivity|constructor].
  - destruct (IH (Datatypes.S k)) as [loaded [El Fl]].
    destruct (loadPointset_saved bounds range ps s Hps) as [ps' [Eps' Ppts]].
    exists (ps' :: loaded). cbn [mapFrom]. rewrite Eps'. cbn [bind].
    rewrite El. cbn [bind]. split; [reflexivity|].
    constructor; [exact Ppts|exact Fl].
Qed.

(** X13: Saving and loading: [convertPersistedRepresentation] on what
    [convertToPersistedRepresentation] returns.  For pointsets none of which
    has exactly one point, and each of which has a diff for every base
    control point, both calls return, whatever the coordinates are; the
    pointsets loaded are as many as those that had points and correspond to
    them in their order, each with as many points as the pointset saved and
    with exactly one diff for each of its base control points. *)
Theorem persisted_round_trip_shape (pointsets : list (Pointset.t N)) :
  (forall ps, In ps pointsets -> length (Pointset.points ps) <> 1%nat) ->
  (forall ps, In ps pointsets ->
              (2 * (length (Pointset.points ps) - 1)
               <= length (Pointset.controlPointDiffs ps))%nat) ->
  exists data loaded,
    convertToPersistedRepresentation ops pointsets = Returns data
    /\ convertPersistedRepresentation ops data = Returns loaded
    /\ Forall2 (fun ps ps' =>
                  length (Pointset.points ps') = length (Pointset.points ps)
                  /\ length (Pointset.controlPointDiffs ps')
                     = (2 * (length (Pointset.points ps) - 1))%nat)
               (filter (@nonEmpty N) pointsets) loaded.
Proof.
  intros Hone Hdiffs.
  set (range := getBounds ops (allPoints pointsets)).
  destruct (mapFrom_Forall2 (fun ps (_ : nat) => pointsetToSerializedForm ops ps range)
                            (savedAs ops range) (filter (@nonEmpty N) pointsets) 0)
    as [sets [Esets Hsets]].
  { intros ps Hps _. apply filter_In in Hps. destruct Hps as [Hin Hne].
    unfold nonEmpty in Hne. apply Nat.ltb_lt in Hne.
    apply pointsetToSerializedForm_saved; [|now apply Hdiffs].
    specialize (Hone ps Hin). lia. }
  exists (Persisted.mk sets (Rectangle.width range) (Rectangle.height range)).
  destruct (load_all (Rectangle.mk (lit ops 50) (lit ops 100) (Rectangle.width range)
                                   (Rectangle.height range))
                     range _ _ 0%nat Hsets) as [loaded [El Fl]].
  exists loaded. split; [|split; [exact El|exact Fl]].
  unfold convertToPersistedRepresentation, mapM. cbv zeta. fold range.
  change (fun ps : Pointset.t N => Nat.ltb 0 (length (Pointset.points ps)))
    with (@nonEmpty N).
  now rewrite Esets.
Qed.

End RoundTrip.

(** The witness of X13: an empty pointset and a curve of three points are
    saved and loaded in binary64; the curve comes back. *)
Lemma persisted_round_trip_shape_witness :
  exists data loaded,
    convertToPersistedRepresentation F64 [Pointset.mk [] []; ExEditor.curve3] = Returns data
    /\ convertPersistedRepresentation F64 data = Returns loaded
    /\ Forall2 (fun ps ps' =>
                  length (Pointset.points ps') = length (Pointset.points ps)
                  /\ length (Pointset.controlPointDiffs ps')
                     = (2 * (length (Pointset.points ps) - 1))%nat)
               (filter (@nonEmpty float) [Pointset.mk [] []; ExEditor.curve3]) loaded.
Proof.
  apply (persisted_round_trip_shape F64 [Pointset.mk [] []; ExEditor.curve3]).
  - intros ps [<-|[<-|[]]]; discriminate.
  - intros ps [<-|[<-|[]]]; vm_compute; lia.
Defined.

(* ================================================================== *)
(** * The left margin *)

Section Shift.

Context {N : Type} (ops : NumOps N).


End Shift.

Section LeftMargin.

Open Scope Z_scope.





End LeftMargin.


(** The witness of X12: a pointset of one point is saved and cannot be loaded. *)
Lemma one_point_pointset_is_not_loadable_witness :
  In ExEditor.single [ExEditor.single]
  /\ length (Pointset.points ExEditor.single) = 1%nat
  /\ convertToPersistedRepresentation F64 [ExEditor.single] = Returns ExEditor.savedSingle
  /\ convertPersistedRepresentation F64 ExEditor.savedSingle = Throws.
Proof.
  assert (H1 : In ExEditor.single [ExEditor.single]) by (left; reflexivity).
  assert (H3 : convertToPersistedRepresentation F64 [ExEditor.single]
               = Returns ExEditor.savedSingle) by reflexivity.
  split; [exact H1|]. split; [reflexivity|]. split; [exact H3|].
  apply (one_point_pointset_is_not_loadable F64 [ExEditor.single] ExEditor.single
           ExEditor.savedSingle H1 eq_refl H3).
Defined.


(* ================================================================== *)
(** * Segments of a polygon *)

Lemma chain_nth {A : Type} (p0 : A) (rest : list A) (k : nat) (b : A) :
  nth_error rest k = Some b ->
  exists a, nth_error (p0 :: rest) k = Some a
            /\ nth_error (chain p0 rest) k = Some (mkSegment a b).
Proof.
  revert p0 k. induction rest as [|p rest IH]; intros p0 k Hb; [now destruct k|].
  destruct k as [|k].
  - inversion Hb. subst. exists p0. split; reflexivity.
  - destruct (IH p k Hb) as [a [Ha Hs]]. exists a. split; assumption.
Qed.

Lemma map_end_chain {A : Type} (p0 : A) (rest : list A) :
  map (@end_ A) (chain p0 rest) = rest.
Proof.
  revert p0. induction rest as [|p rest IH]; intros p0; simpl; [reflexivity|].
  now rewrite IH.
Qed.

(** X15: [segments(pts)] of n >= 2 points is the closed chain of n segments:
    segment [k] goes from point [k] to point [(k + 1) mod n], so the last one
    returns to the first point.  Fewer than 2 points have no segment. *)
Theorem segments_closed_chain {A : Type} (pts : list A) :
  if Nat.ltb (length pts) 2 then segments pts = []
  else length (segments pts) = length pts
       /\ forall k a b,
            nth_error pts k = Some a ->
            nth_error pts (Nat.modulo (k + 1) (length pts)) = Some b ->
            nth_error (segments pts) k = Some (mkSegment a b).
Proof.
  destruct pts as [|p0 [|p1 rest]]; [reflexivity|reflexivity|].
  change (Nat.ltb (length (p0 :: p1 :: rest)) 2) with false. cbv iota.
  split; [now rewrite length_segments|].
  intros k a b Ha Hb. unfold segments.
  set (l := p1 :: rest) in *.
  assert (Hk : (k < Datatypes.S (length l))%nat).
  { change (Datatypes.S (length l)) with (length (p0 :: l)).
    apply nth_error_Some. congruence. }
  change (length (p0 :: l)) with (Datatypes.S (length l)) in Hb.
  destruct (Nat.eq_dec k (length l)) as [->|Hne].
  - (* the closing segment *)
    replace ((length l + 1) mod Datatypes.S (length l))%nat with 0%nat in Hb
      by (replace (length l + 1)%nat with (Datatypes.S (length l)) by lia;
          symmetry; apply Nat.Div0.mod_same).
    inversion Hb. subst b.
    rewrite nth_error_app2, length_chain, Nat.sub_diag by (rewrite length_chain; lia).
    cbn [nth_error]. do 2 f_equal.
    unfold l in *. clear - Ha. cbn [length nth_error] in Ha.
    revert p1 Ha. induction rest as [|q rest IH]; intros p1 Ha.
    + simpl in Ha. now inversion Ha.
    + change (last (p1 :: q :: rest) p0) with (last (q :: rest) p0). apply IH. exact Ha.
  - rewrite Nat.mod_small in Hb by lia.
    replace (k + 1)%nat with (Datatypes.S k) in Hb by lia. cbn [nth_error] in Hb.
    rewrite nth_error_app1 by (rewrite length_chain; lia).
    destruct (chain_nth p0 l k b Hb) as [a' [Ha' Hs]]. congruence.
Qed.

(* ================================================================== *)
(** * Polygon offset: no vertex is added *)

Section ExpandLength.

Context {N : Type} (ops : NumOps N).

Lemma expandVertex_at_most_one (pts : list (Point N)) (amount : N) (i : nat) :
  (i < length pts)%nat ->
  exists new, expandVertex ops pts amount i = Returns new /\ (length new <= 1)%nat.
Proof.
  intros Hi. unfold expandVertex.
  destruct (corner_returns pts i Hi) as [[[a b] c] Ec]. rewrite Ec. cbn [bind].
  destruct (degenerate ops (a, b, c)); [exists []; split; [reflexivity|simpl; lia]|].
  match goal with |- context [intersectSegments ?o ?s1 ?s2] =>
    destruct (intersectSegments o s1 s2) end;
    eexists; (split; [reflexivity|simpl; lia]).
Qed.

Lemma length_pickClockwiseOrder (pts : list (Point N)) :
  length (pickClockwiseOrder ops pts) = length pts.
Proof.
  unfold pickClockwiseOrder. destruct (Nat.leb (length pts) 2); [reflexivity|].
  destruct (areWindingClockwise ops pts); [reflexivity|apply length_rev].
Qed.

(** X16: [expand] returns for every polygon and every amount, and what it returns
    has at most one vertex for every vertex of the polygon. *)
Theorem expand_adds_no_vertex (pts : list (Point N)) (amount : N) :
  exists result,
    expand ops pts amount = Returns result /\ (length result <= length pts)%nat.
Proof.
  unfold expand, expandLoop. cbv zeta. rewrite <- (length_pickClockwiseOrder pts).
  set (cw := pickClockwiseOrder ops pts).
  match goal with |- context [forM ?idx ?body ?s0] =>
    destruct (forM_invariant (fun j r => (length r <= j)%nat) idx body s0 0 (Nat.le_refl 0))
      as [r [Er Lr]] end.
  - intros j i s0 Hj Hs. apply seq_nth_error in Hj. destruct Hj as [-> Hj].
    destruct (expandVertex_at_most_one cw amount (0 + j)) as [new [En Ln]]; [simpl; lia|].
    rewrite En. cbn [bind]. eexists. split; [reflexivity|].
    rewrite length_app. simpl in *. lia.
  - exists r. split; [exact Er|]. rewrite length_seq in Lr. exact Lr.
Qed.

End ExpandLength.

(* ================================================================== *)
(** * A polygon without self intersections is left as it is *)

Lemma pairs_nth {A : Type} (items : list A) (i j : nat) (a b : A) :
  (i < j)%nat -> nth_error items i = Some a -> nth_error items j = Some b ->
  In (a, b) (pairs items).
Proof.
  revert i j. induction items as [|c items IH]; intros i j Hij Ha Hb; [now destruct i|].
  cbn [pairs]. apply in_or_app. destruct i as [|i].
  - left. inversion Ha. subst. destruct j as [|j]; [lia|].
    apply in_map. eapply nth_error_In. exact Hb.
  - right. destruct j as [|j]; [lia|]. apply (IH i j); [lia|exact Ha|exact Hb].
Qed.

Section Simple.

Context {N : Type} (ops : NumOps N).

Lemma candidates_none (segs : list (Segment (Point N))) (i : nat) :
  (i < length segs)%nat ->
  existsb (fun '(s1, s2) => validIntersection ops (intersectSegments ops s1 s2))
          (pairs segs) = false ->
  candidates ops segs i = Returns [].
Proof.
  intros Hi Hnone. unfold candidates, range.
  match goal with |- context [forM ?idx ?body ?s0] =>
    destruct (forM_invariant (fun _ acc => acc = []) idx body s0 0 eq_refl)
      as [r [Er Ir]] end.
  - intros j k acc Hj ->. apply seq_nth_error in Hj. destruct Hj as [-> Hj].
    destruct (prop_of_nth segs i Hi) as [si Esi].
    destruct (prop_of_nth segs (Datatypes.S i + j)) as [sj Esj]; [lia|].
    rewrite Esi, Esj. cbn [bind].
    assert (Hv : validIntersection ops (intersectSegments ops si sj) = false).
    { destruct (validIntersection ops (intersectSegments ops si sj)) eqn:V; [|reflexivity].
      assert (Hin : In (si, sj) (pairs segs)).
      { apply pairs_nth with (i := i) (j := (Datatypes.S i + j)%nat); [lia| |].
        - destruct (nth_error segs i); [simpl in Esi; congruence|discriminate].
        - destruct (nth_error segs (Datatypes.S i + j)); [simpl in Esj; congruence|discriminate]. }
      assert (Hex : existsb (fun '(s1, s2) =>
                               validIntersection ops (intersectSegments ops s1 s2))
                            (pairs segs) = true).
      { apply existsb_exists. exists (si, sj). split; [exact Hin|exact V]. }
      congruence. }
    destruct (intersectSegments ops si sj) as [inters|]; [|eauto].
    rewrite Hv. eauto.
  - now rewrite Er, Ir.
Qed.

Lemma removeLoop_simple (segs : list (Segment (Point N))) (fuel i : nat)
      (result : list (Point N)) :
  (length segs - i <= fuel)%nat ->
  existsb (fun '(s1, s2) => validIntersection ops (intersectSegments ops s1 s2))
          (pairs segs) = false ->
  removeLoop ops fuel segs i result
  = Returns (result ++ map (@end_ _) (skipn i (firstn (length segs - 1) segs))).
Proof.
  intros Hf Hnone. revert i result Hf.
  induction fuel as [|fuel IH]; intros i result Hf.
  - simpl. destruct (Nat.ltb i (length segs)) eqn:L; [apply Nat.ltb_lt in L; lia|].
    apply Nat.ltb_ge in L. rewrite skipn_all2 by (rewrite length_firstn; lia).
    now rewrite app_nil_r.
  - cbn [removeLoop]. destruct (Nat.ltb i (length segs)) eqn:L.
    + apply Nat.ltb_lt in L.
      rewrite (candidates_none segs i L Hnone). cbn [bind].
      destruct (prop_of_nth segs i L) as [si Esi]. rewrite Esi. cbn [bind fold_left].
      destruct (Nat.ltb i (length segs - 1)) eqn:L1.
      * apply Nat.ltb_lt in L1. rewrite Esi. cbn [bind]. rewrite IH by lia.
        rewrite <- app_assoc. do 2 f_equal.
        assert (Hn : nth_error (firstn (length segs - 1) segs) i = Some si).
        { rewrite nth_error_firstn.
          replace (Nat.ltb i (length segs - 1)) with true
            by (symmetry; apply Nat.ltb_lt; lia).
          destruct (nth_error segs i); [simpl in Esi; congruence|discriminate]. }
        clear - Hn. revert i Hn. generalize (firstn (length segs - 1) segs) as l.
        induction l as [|s l IHl]; intros i Hn; [now destruct i|].
        destruct i as [|i]; [inversion Hn; reflexivity|].
        cbn [skipn]. apply IHl. exact Hn.
      * apply Nat.ltb_ge in L1. rewrite IH by lia.
        rewrite !skipn_all2 by (rewrite length_firstn; lia). reflexivity.
    + apply Nat.ltb_ge in L. rewrite skipn_all2 by (rewrite length_firstn; lia).
      now rewrite app_nil_r.
Qed.

(** X17: A polygon in which [hasSelfIntersectingParts] finds no valid
    intersection (taken in the order [pickClockwiseOrder] gives it) is what
    [removeSelfIntersectingParts] returns: no vertex is cut away, none is
    added. *)
Theorem removeSelfIntersectingParts_keeps_simple (pts : list (Point N)) :
  hasSelfIntersectingParts ops (pickClockwiseOrder ops pts) = false ->
  removeSelfIntersectingParts ops pts = Returns (pickClockwiseOrder ops pts).
Proof.
  unfold hasSelfIntersectingParts, removeSelfIntersectingParts.
  set (cw := pickClockwiseOrder ops pts). intros Hnone.
  destruct (segments cw) as [|s0 segs] eqn:Es; [reflexivity|].
  rewrite <- Es in *. rewrite removeLoop_simple by (exact Hnone || lia).
  f_equal. cbn [skipn].
  destruct cw as [|p0 [|p1 rest]]; [discriminate Es|discriminate Es|].
  unfold segments in *. inversion Es as [Es']. clear Es Es'.
  rewrite length_app, length_chain. cbn [length].
  replace (Datatypes.S (length rest) + 1 - 1)%nat with (length (chain p0 (p1 :: rest)))
    by (rewrite length_chain; simpl; lia).
  rewrite firstn_app, Nat.sub_diag, firstn_all. cbn [firstn]. rewrite app_nil_r.
  rewrite map_end_chain. reflexivity.
Qed.

End Simple.

(** The witness of X17: the square has no self intersection. *)
Lemma removeSelfIntersectingParts_keeps_simple_witness :
  hasSelfIntersectingParts F64 (pickClockwiseOrder F64 Ex.square) = false
  /\ removeSelfIntersectingParts F64 Ex.square = Returns (pickClockwiseOrder F64 Ex.square).
Proof.
  split; [reflexivity|].
  apply (removeSelfIntersectingParts_keeps_simple F64 Ex.square). reflexivity.
Defined.

(* ================================================================== *)
(** * The winding sum under reversal and rotation *)

Section WindingSymmetries.

Open Scope Z_scope.

(** X18: for a polygon with integer coordinates of at most B in absolute value
    and n points, where 4 B^2 n < 2^53, reversing the polygon negates the
    sum that [areWindingClockwise] computes, so [areWindingClockwise] is
    never true of a polygon and of its reverse. *)
Theorem windingSum_rev (B : Z) (P : list (Point Z)) :
  within B P -> 4 * B * B * Z.of_nat (length P) < 2 ^ 53 ->
  holds (windingSum F64 (map intPoint P)) (windingZ P)
  /\ holds (windingSum F64 (rev (map intPoint P))) (- windingZ P)
  /\ areWindingClockwise F64 (map intPoint P)
     && areWindingClockwise F64 (rev (map intPoint P)) = false.
Proof.
  intros HP HB.
  assert (HR : within B (rev P)) by now apply within_rev.
  assert (HBR : 4 * B * B * Z.of_nat (length (rev P)) < 2 ^ 53) by now rewrite length_rev.
  split; [now apply (windingSum_holds B)|].
  rewrite <- map_rev, <- windingZ_rev.
  split; [now apply (windingSum_holds B)|].
  rewrite (areWindingClockwise_int B P HP HB), (areWindingClockwise_int B (rev P) HR HBR).
  rewrite windingZ_rev.
  destruct (Z.ltb_spec (windingZ P) 0), (Z.ltb_spec (- windingZ P) 0); try reflexivity. lia.
Qed.

(** X19: for a polygon with integer coordinates of at most B in absolute value
    and n points, where 4 B^2 n < 2^53, the sum that [areWindingClockwise]
    computes is the integer winding sum of the polygon whichever vertex the
    array starts with, and so is its answer: moving the first vertex to the
    end changes neither. *)
Theorem windingSum_rotate (B : Z) (a : Point Z) (P : list (Point Z)) :
  within B (a :: P) -> 4 * B * B * Z.of_nat (length (a :: P)) < 2 ^ 53 ->
  holds (windingSum F64 (map intPoint (a :: P))) (windingZ (a :: P))
  /\ holds (windingSum F64 (map intPoint (P ++ [a]))) (windingZ (a :: P))
  /\ areWindingClockwise F64 (map intPoint (P ++ [a]))
     = areWindingClockwise F64 (map intPoint (a :: P)).
Proof.
  intros HP HB.
  assert (HR : within B (P ++ [a])).
  { intros q Hq. apply HP. apply in_app_or in Hq. destruct Hq as [Hq|[<-|[]]];
      [now right|now left]. }
  assert (HBR : 4 * B * B * Z.of_nat (length (P ++ [a])) < 2 ^ 53).
  { rewrite length_app. cbn [length] in *. replace (length P + 1)%nat with (S (length P)) by lia.
    exact HB. }
  split; [now apply (windingSum_holds B)|].
  rewrite <- windingZ_rotate.
  split; [now apply (windingSum_holds B)|].
  rewrite (areWindingClockwise_int B _ HR HBR), (areWindingClockwise_int B _ HP HB).
  now rewrite windingZ_rotate.
Qed.

End WindingSymmetries.

(** The witness of X18: the square and its reverse. *)
Lemma windingSum_rev_witness :
  within 10 Ex.squareZ
  /\ (4 * 10 * 10 * Z.of_nat (length Ex.squareZ) < 2 ^ 53)%Z
  /\ holds (windingSum F64 (map intPoint Ex.squareZ)) (windingZ Ex.squareZ)
  /\ holds (windingSum F64 (rev (map intPoint Ex.squareZ))) (- windingZ Ex.squareZ)
  /\ areWindingClockwise F64 (map intPoint Ex.squareZ)
     && areWindingClockwise F64 (rev (map intPoint Ex.squareZ)) = false.
Proof.
  assert (H1 : within 10 Ex.squareZ).
  { intros q [<-|[<-|[<-|[<-|[]]]]]; simpl; lia. }
  assert (H2 : (4 * 10 * 10 * Z.of_nat (length Ex.squareZ) < 2 ^ 53)%Z) by reflexivity.
  split; [exact H1|]. split; [exact H2|].
  exact (windingSum_rev 10 Ex.squareZ H1 H2).
Defined.

(** The witness of X19: the square, started at its second vertex. *)
Lemma windingSum_rotate_witness :
  let a := Ex.zpt 0 0 in
  let P := [Ex.zpt 10 0; Ex.zpt 10 10; Ex.zpt 0 10] in
  within 10 (a :: P)
  /\ (4 * 10 * 10 * Z.of_nat (length (a :: P)) < 2 ^ 53)%Z
  /\ holds (windingSum F64 (map intPoint (a :: P))) (windingZ (a :: P))
  /\ holds (windingSum F64 (map intPoint (P ++ [a]))) (windingZ (a :: P))
  /\ areWindingClockwise F64 (map intPoint (P ++ [a]))
     = areWindingClockwise F64 (map intPoint (a :: P)).
Proof.
  intros a P.
  assert (H1 : within 10 (a :: P)).
  { intros q [<-|[<-|[<-|[<-|[]]]]]; simpl; lia. }
  assert (H2 : (4 * 10 * 10 * Z.of_nat (length (a :: P)) < 2 ^ 53)%Z) by reflexivity.
  split; [exact H1|]. split; [exact H2|].
  exact (windingSum_rotate 10 a P H1 H2).
Defined.

(* ================================================================== *)
(** * The closed curve and the handles of a point *)

Section CurveShape.

Context {N : Type} (ops : NumOps N).

Lemma fold_addPoint_head (l : list (Point N))
      (st : Point N * Point N * list (Point N) * list (Point N)) (d : Point N) :
  snd (fst st) <> [] ->
  snd (fst (fold_left (addPoint ops) l st)) <> []
  /\ hd d (snd (fst (fold_left (addPoint ops) l st))) = hd d (snd (fst st)).
Proof.
  revert st. induction l as [|q l IH]; intros st Hne; [split; auto|].
  cbn [fold_left].
  destruct st as [[[p0 p1] pts] cps]. cbn [fst snd] in Hne.
  destruct (IH (addPoint ops (p0, p1, pts, cps) q)) as [H1 H2].
  - simpl. destruct pts; [contradiction|discriminate].
  - split; [exact H1|]. rewrite H2. simpl. destruct pts; [contradiction|reflexivity].
Qed.

(** X20: The curve that [getClosedBasisCurvePoints] returns for n >= 4 points is
    closed: it is not empty, and its last point is its first point. *)
Theorem getClosedBasisCurvePoints_closed (points : list (Point N)) (d : Point N) :
  (4 <= length points)%nat ->
  let pts := fst (getClosedBasisCurvePoints ops points) in
  pts <> [] /\ last pts d = hd d pts.
Proof.
  intros Hn pts. unfold pts, getClosedBasisCurvePoints.
  replace (Nat.leb (length points) 3) with false by (symmetry; apply Nat.leb_gt; lia).
  destruct points as [|f [|s [|t rest]]]; simpl in Hn; try lia.
  set (first := mkPoint _ _).
  set (st1 := fold_left (addPoint ops) rest (s, t, [first], [])).
  destruct (fold_addPoint_head rest (s, t, [first], []) d) as [Hne Hhd]; [discriminate|].
  fold st1 in Hne, Hhd. cbn [fst snd hd] in Hhd.
  destruct st1 as [[[a b] pts1] cps1]. cbn [fst snd] in *.
  cbn [addPoint fst snd].
  split.
  - destruct pts1; [contradiction|discriminate].
  - rewrite last_last. destruct pts1 as [|h pts1]; [contradiction|].
    cbn [hd app] in *. subst h. reflexivity.
Qed.

Lemma nth_error_flat_map_pairs {A : Type} (g : nat -> list A) (m k r : nat) :
  (forall j, (j < m)%nat -> length (g j) = 2%nat) ->
  (k < m)%nat -> (r < 2)%nat ->
  nth_error (flat_map g (seq 0 m)) (2 * k + r) = nth_error (g k) r.
Proof.
  intros Hlen. induction m as [|m IH]; intros Hk Hr; [lia|].
  assert (Hl : length (flat_map g (seq 0 m)) = (2 * m)%nat).
  { clear - Hlen. induction m as [|m IHm]; [reflexivity|].
    rewrite seq_S, flat_map_app, length_app, IHm by (intros; apply Hlen; lia).
    cbn [Nat.add flat_map]. rewrite app_nil_r, (Hlen m) by lia. lia. }
  rewrite seq_S, flat_map_app. cbn [Nat.add flat_map]. rewrite app_nil_r.
  destruct (Nat.eq_dec k m) as [->|Hne].
  - rewrite nth_error_app2 by lia. f_equal. lia.
  - rewrite nth_error_app1 by lia. apply IH; [intros; apply Hlen; lia|lia|lia].
Qed.

(** X21: The base control points of a point of a pointset with n >= 2 points, as
    [getControlPointsForPoint] picks them from [getBaseControlPoints]: the
    handle before the point is the point minus its tangent, the handle after
    it is the point plus the same tangent; the first point has no handle
    before it, the last point none after it. *)
Theorem base_handles_of_point (pointset : Pointset.t N) (i : nat) (q : Point N) :
  (2 <= length (Pointset.points pointset))%nat ->
  nth_error (Pointset.points pointset) i = Some q ->
  exists cps tangents t,
    getBaseControlPoints ops pointset = Returns cps
    /\ monotoneTangents ops (Pointset.points pointset) = Returns tangents
    /\ nth_error tangents i = Some t
    /\ getControlPointsForPoint pointset (Z.of_nat i) cps
       = (if Nat.ltb 0 i
          then Some (mkPoint (sub ops (x q) (x t)) (sub ops (y q) (y t))) else None,
          if Nat.ltb (i + 1) (length (Pointset.points pointset))
          then Some (mkPoint (add ops (x q) (x t)) (add ops (y q) (y t))) else None).
Proof.
  intros Hn Hq. set (points := Pointset.points pointset) in *.
  assert (Hi : (i < length points)%nat) by (apply nth_error_Some; congruence).
  destruct (monotoneTangents_returns ops points Hn) as [tangents [Et Lt]].
  destruct (nth_error tangents i) as [t|] eqn:Eti;
    [|apply nth_error_None in Eti; lia].
  exists (flat_map (handlesAt ops points tangents) (seq 0 (length points - 1))), tangents, t.
  assert (Hbase : getBaseControlPoints ops pointset
                  = Returns (flat_map (handlesAt ops points tangents)
                                      (seq 0 (length points - 1)))).
  { unfold getBaseControlPoints. fold points.
    replace (Nat.leb (length points) 1) with false by (symmetry; apply Nat.leb_gt; lia).
    cbv zeta. rewrite Et. cbn [bind].
    apply getControlPointsFromTangents_handles. lia. }
  split; [exact Hbase|]. split; [exact Et|]. split; [exact Eti|].
  assert (Hh : forall j, (j < length points - 1)%nat ->
                 exists p1 p2 t1 t2,
                   nth_error points j = Some p1 /\ nth_error points (j + 1) = Some p2
                   /\ nth_error tangents j = Some t1 /\ nth_error tangents (j + 1) = Some t2
                   /\ handlesAt ops points tangents j
                      = [mkPoint (add ops (x p1) (x t1)) (add ops (y p1) (y t1));
                         mkPoint (sub ops (x p2) (x t2)) (sub ops (y p2) (y t2))]).
  { intros j Hj. unfold handlesAt.
    destruct (nth_error points j) as [p1|] eqn:E1; [|apply nth_error_None in E1; lia].
    destruct (nth_error points (j + 1)) as [p2|] eqn:E2; [|apply nth_error_None in E2; lia].
    destruct (nth_error tangents j) as [t1|] eqn:E3; [|apply nth_error_None in E3; lia].
    destruct (nth_error tangents (j + 1)) as [t2|] eqn:E4;
      [|apply nth_error_None in E4; lia].
    exists p1, p2, t1, t2. auto. }
  assert (Hlen2 : forall j, (j < length points - 1)%nat ->
                            length (handlesAt ops points tangents j) = 2%nat).
  { intros j Hj. destruct (Hh j Hj) as (p1 & p2 & t1 & t2 & _ & _ & _ & _ & ->).
    reflexivity. }
  unfold getControlPointsForPoint. fold points. f_equal.
  - destruct (Nat.ltb_spec 0 i) as [Hpos|Hz].
    + destruct (Z.gtb_spec (Z.of_nat i) 0) as [_|F]; [|lia].
      replace (2 * Z.of_nat i - 1)%Z with (Z.of_nat (2 * (i - 1) + 1)) by lia.
      rewrite at_of_nat, nth_error_flat_map_pairs by (auto; lia).
      destruct (Hh (i - 1)%nat) as (p1 & p2 & t1 & t2 & _ & E2 & _ & E4 & ->); [lia|].
      replace (i - 1 + 1)%nat with i in * by lia.
      cbn [nth_error]. congruence.
    + destruct (Z.gtb_spec (Z.of_nat i) 0) as [F|_]; [lia|reflexivity].
  - destruct (Nat.ltb_spec (i + 1) (length points)) as [Hlt|Hge].
    + destruct (Z.ltb_spec (Z.of_nat i) (Z.of_nat (length points) - 1)) as [_|F]; [|lia].
      replace (2 * Z.of_nat i)%Z with (Z.of_nat (2 * i + 0)) by lia.
      rewrite at_of_nat, nth_error_flat_map_pairs by (auto; lia).
      destruct (Hh i) as (p1 & p2 & t1 & t2 & E1 & _ & E3 & _ & ->); [lia|].
      cbn [nth_error]. congruence.
    + destruct (Z.ltb_spec (Z.of_nat i) (Z.of_nat (length points) - 1)) as [F|_];
        [lia|reflexivity].
Qed.

End CurveShape.

(** The witness of X21: the handles of the middle one of three points. *)
Lemma base_handles_of_point_witness :
  (2 <= length (Pointset.points ExEditor.curve3))%nat
  /\ nth_error (Pointset.points ExEditor.curve3) 1 = Some (Ex.fpt 2 3)
  /\ exists cps tangents t,
      getBaseControlPoints F64 ExEditor.curve3 = Returns cps
      /\ monotoneTangents F64 (Pointset.points ExEditor.curve3) = Returns tangents
      /\ nth_error tangents 1 = Some t
      /\ getControlPointsForPoint ExEditor.curve3 (Z.of_nat 1) cps
         = (if Nat.ltb 0 1
            then Some (mkPoint (sub F64 (x (Ex.fpt 2 3)) (x t)) (sub F64 (y (Ex.fpt 2 3)) (y t)))
            else None,
            if Nat.ltb (1 + 1) (length (Pointset.points ExEditor.curve3))
            then Some (mkPoint (add F64 (x (Ex.fpt 2 3)) (x t)) (add F64 (y (Ex.fpt 2 3)) (y t)))
            else None).
Proof.
  split; [simpl; lia|]. split; [reflexivity|].
  apply (base_handles_of_point F64 ExEditor.curve3 1 (Ex.fpt 2 3)); [simpl; lia|reflexivity].
Defined.

(** The witness of X20: the closed curve through the four corners of the square. *)
Lemma getClosedBasisCurvePoints_closed_witness :
  (4 <= length Ex.square)%nat
  /\ fst (getClosedBasisCurvePoints F64 Ex.square) <> []
  /\ last (fst (getClosedBasisCurvePoints F64 Ex.square)) (Ex.fpt 0 0)
     = hd (Ex.fpt 0 0) (fst (getClosedBasisCurvePoints F64 Ex.square)).
Proof.
  split; [simpl; lia|].
  apply (getClosedBasisCurvePoints_closed F64 Ex.square (Ex.fpt 0 0)). simpl; lia.
Defined.

(* ================================================================== *)
(** * The union of all polygons *)

Section PipelineFacts.

Context {N : Type} (ops : NumOps N) (atan2 : N -> N -> N).

Lemma polyUnionS_preserved (h : @Store N) (poly1 poly2 : nat) :
  preserved h (snd (polyUnionS ops atan2 poly1 poly2 h)).
Proof.
  destruct (nth_error (arrays h) poly1) as [a1|] eqn:E1.
  - destruct (nth_error (arrays h) poly2) as [a2|] eqn:E2.
    + now apply (polyUnionS_pure ops atan2 h poly1 poly2 a1 a2).
    + unfold polyUnionS, bindS, readArr. rewrite E1, E2. apply preserved_refl.
  - unfold polyUnionS, bindS, readArr. rewrite E1. apply preserved_refl.
Qed.

Lemma expandS_preserved (h : @Store N) (pts : nat) (amount : N) :
  preserved h (snd (expandS ops pts amount h)).
Proof.
  destruct (nth_error (arrays h) pts) as [a|] eqn:E1.
  - now apply (expandS_pure ops h pts a amount).
  - unfold expandS, pickClockwiseOrderS, bindS, readArr. rewrite E1. apply preserved_refl.
Qed.

Lemma unionLoop_count (acc : list nat) (currUnion : nat) (res : list nat)
      (h h' : @Store N) (r : list nat) :
  unionLoop ops atan2 acc currUnion res h = (Returns r, h') ->
  preserved h h'
  /\ (length r <= length res + length acc + 1)%nat
  /\ (acc <> [] -> length res + 1 <= length r)%nat.
Proof.
  revert currUnion res h. induction acc as [|el rest IH]; intros currUnion res h H.
  - inversion H. subst. split; [apply preserved_refl|]. split; [simpl; lia|congruence].
  - cbn [unionLoop] in H. unfold bindS at 1 in H.
    pose proof (polyUnionS_preserved h el currUnion) as Hp.
    destruct (polyUnionS ops atan2 el currUnion h) as [[u| |] h1]; try discriminate.
    cbn [snd] in Hp.
    assert (Hst : exists res1 curr1,
               (length res1 <= length res + 1)%nat /\ (length res <= length res1)%nat
               /\ match rest with
                  | [] => retS (res1 ++ [curr1])
                  | _ :: _ => unionLoop ops atan2 rest curr1 res1
                  end h1 = (Returns r, h')).
    { unfold bindS in H. destruct (Nat.eqb (length u) 2).
      - unfold retS in H at 1. exists (res ++ [el]), currUnion.
        rewrite length_app. simpl. repeat split; try lia. exact H.
      - unfold liftS in H. destruct (nth_error u 0) as [first|]; cbn [prop_of] in H;
          [|discriminate].
        unfold retS in H at 1. exists res, first. repeat split; try lia. exact H. }
    destruct Hst as [res1 [curr1 [L1 [L2 Hrest]]]].
    destruct rest as [|el2 rest2].
    + unfold retS in Hrest. inversion Hrest. subst.
      split; [exact Hp|]. rewrite length_app. simpl. split; [lia|]. intros _. lia.
    + destruct (IH curr1 res1 h1 Hrest) as [P1 [U1 U2]].
      split; [eapply preserved_trans; eassumption|].
      split; [simpl length in *; lia|]. intros _.
      assert (el2 :: rest2 <> []) by discriminate. specialize (U2 H0). lia.
Qed.

Lemma getUnioned_fold (l : list nat) (c0 : @St N (list nat)) (k : nat) :
  (forall h r h', c0 h = (Returns r, h') ->
                  preserved h h' /\ (length r <= k)%nat /\ ((1 <= k)%nat -> (1 <= length r)%nat)) ->
  forall h r h',
    fold_left
      (fun acc curr =>
         bindS acc (fun acc =>
           if Nat.eqb (length acc) 0 then retS [curr]
           else unionLoop ops atan2 acc curr []))
      l c0 h = (Returns r, h') ->
    preserved h h' /\ (length r <= k + length l)%nat
    /\ ((1 <= k + length l)%nat -> (1 <= length r)%nat).
Proof.
  revert c0 k. induction l as [|curr l IH]; intros c0 k H0 h r h' H.
  - simpl in H. rewrite Nat.add_0_r. now apply H0.
  - cbn [fold_left] in H. apply IH with (k := Datatypes.S k) in H.
    + simpl length. rewrite Nat.add_succ_r. exact H.
    + clear H. intros h0 r0 h0' H. unfold bindS in H.
      destruct (c0 h0) as [[acc| |] h1] eqn:E0; try discriminate.
      destruct (H0 h0 acc h1 E0) as [P0 [L0 _]].
      destruct (Nat.eqb (length acc) 0) eqn:Z.
      * unfold retS in H. inversion H. subst. split; [exact P0|]. simpl. lia.
      * apply Nat.eqb_neq in Z. apply unionLoop_count in H.
        destruct H as [P1 [U1 U2]]. split; [eapply preserved_trans; eassumption|].
        simpl in *. split; [lia|]. intros _.
        assert (Hne : acc <> []) by (destruct acc; [simpl in Z; lia|discriminate]).
        specialize (U2 Hne). lia.
Qed.

Lemma getUnioned_spec (allPolys : list nat) (h h' : @Store N) (result : list nat) :
  getUnioned ops atan2 allPolys h = (Returns result, h') ->
  preserved h h'
  /\ (length result <= length allPolys)%nat
  /\ (allPolys <> [] -> 1 <= length result)%nat.
Proof.
  intros H. unfold getUnioned in H.
  apply (getUnioned_fold allPolys (retS []) 0) in H.
  - destruct H as [P [L1 L2]]. split; [exact P|]. split; [exact L1|].
    intros Hne. apply L2. destruct allPolys; [congruence|simpl; lia].
  - intros h0 r h0' H0. unfold retS in H0. inversion H0. subst.
    split; [apply preserved_refl|]. simpl. split; lia.
Qed.

(** X22: [getUnioned] of n polygons, when it returns: it returns at most n
    polygons, at least one if n >= 1, and every array of points that was in
    the store is as it was. *)
Theorem getUnioned_count (allPolys : list nat) (h h' : @Store N) (result : list nat) :
  getUnioned ops atan2 allPolys h = (Returns result, h') ->
  preserved h h'
  /\ (length result <= length allPolys)%nat
  /\ (allPolys <> [] -> 1 <= length result)%nat.
Proof. apply getUnioned_spec. Qed.

Lemma mapS_expandS (step : N) (united : list nat) (h h' : @Store N) (expanded : list nat) :
  mapS (fun p => expandS ops p step) united h = (Returns expanded, h') ->
  preserved h h' /\ length expanded = length united.
Proof.
  revert h expanded. induction united as [|p united IH]; intros h expanded H.
  - inversion H. subst. split; [apply preserved_refl|reflexivity].
  - cbn [mapS] in H. unfold bindS at 1 in H.
    pose proof (expandS_preserved h p step) as Hp.
    destruct (expandS ops p step h) as [[b| |] h1]; try discriminate. cbn [snd] in Hp.
    unfold bindS in H.
    destruct (mapS (fun p0 => expandS ops p0 step) united h1) as [[bs| |] h2] eqn:E;
      try discriminate.
    unfold retS in H. inversion H. subst.
    destruct (IH h1 bs E) as [P1 L1].
    split; [eapply preserved_trans; eassumption|]. simpl. now rewrite L1.
Qed.

Lemma expandSteps_count (fuel : nat) (j totalToExpand step : N) (united : list nat)
      (h h' : @Store N) (result : list nat) :
  expandSteps ops atan2 fuel j totalToExpand step united h = (Returns result, h') ->
  preserved h h' /\ (length result <= length united)%nat.
Proof.
  revert j united h. induction fuel as [|fuel IH]; intros j united h H.
  - cbn [expandSteps] in H. destruct (leb ops j totalToExpand); [discriminate|].
    inversion H. subst. split; [apply preserved_refl|lia].
  - cbn [expandSteps] in H. destruct (leb ops j totalToExpand).
    + unfold bindS at 1 in H.
      destruct (mapS (fun p => expandS ops p step) united h) as [[expanded| |] h1] eqn:E1;
        try discriminate.
      unfold bindS in H.
      destruct (getUnioned ops atan2 expanded h1) as [[united'| |] h2] eqn:E2;
        try discriminate.
      destruct (mapS_expandS step united h h1 expanded E1) as [P1 L1].
      destruct (getUnioned_spec expanded h1 h2 united' E2) as [P2 [L2 _]].
      destruct (IH _ _ _ H) as [P3 L3].
      split; [eapply preserved_trans; [exact P1|eapply preserved_trans; eassumption]|].
      lia.
    + inversion H. subst. split; [apply preserved_refl|lia].
Qed.

(** X23: [expandStepwise], when it returns: it returns at most as many polygons
    as it was given, and every array of points that was in the store is as
    it was, whatever the number of steps. *)
Theorem expandStepwise_count (fuel : nat) (union : list nat) (totalToExpand step : N)
        (h h' : @Store N) (result : list nat) :
  expandStepwise ops atan2 fuel union totalToExpand step h = (Returns result, h') ->
  preserved h h' /\ (length result <= length union)%nat.
Proof.
  unfold expandStepwise. destruct (ltb ops (lit ops 0) step).
  - apply expandSteps_count.
  - intros H. inversion H. subst. split; [apply preserved_refl|lia].
Qed.

End PipelineFacts.

(** The witness of X22: the union of the square and the far square, which are
    apart. *)
Lemma getUnioned_count_witness :
  length (arrays Ex.store0) = 2%nat
  /\ forall at2 : float -> float -> float,
      getUnioned F64 at2 [0; 1]%nat Ex.store0 = (Returns [0; 1]%nat, Ex.store0)
      /\ preserved Ex.store0 Ex.store0
      /\ (length [0; 1]%nat <= length [0; 1]%nat)%nat
      /\ ([0; 1]%nat <> [] -> 1 <= length [0; 1]%nat)%nat.
Proof.
  split; [reflexivity|]. intros at2.
  assert (H : getUnioned F64 at2 [0; 1]%nat Ex.store0 = (Returns [0; 1]%nat, Ex.store0))
    by reflexivity.
  split; [exact H|].
  apply (getUnioned_count F64 at2 [0; 1]%nat Ex.store0 Ex.store0 [0; 1]%nat H).
Defined.

(** The witness of X23: the square and the far square expanded by 1 in one step. *)
Lemma expandStepwise_count_witness :
  length (arrays Ex.store0) = 2%nat
  /\ forall at2 : float -> float -> float,
      exists result h',
        expandStepwise F64 at2 1 [0; 1]%nat (lit F64 1) (lit F64 1) Ex.store0
        = (Returns result, h')
        /\ preserved Ex.store0 h'
        /\ (length result <= length [0; 1]%nat)%nat.
Proof.
  split; [reflexivity|]. intros at2.
  destruct (expandStepwise F64 at2 1 [0; 1]%nat (lit F64 1) (lit F64 1) Ex.store0)
    as [o h'] eqn:Eh.
  assert (Ho : exists result, o = Returns result).
  { replace o with (fst (expandStepwise F64 at2 1 [0; 1]%nat (lit F64 1) (lit F64 1)
                                        Ex.store0)) by now rewrite Eh.
    vm_compute. eexists. reflexivity. }
  destruct Ho as [result ->].
  exists result, h'. split; [reflexivity|].
  apply (expandStepwise_count F64 at2 1 [0; 1]%nat (lit F64 1) (lit F64 1)
                              Ex.store0 h' result Eh).
Defined.

(* ================================================================== *)
(** * The domain of [monotoneTangents] *)

Section TangentsDomain.

Context {N : Type} (ops : NumOps N).

(** X24: [monotoneTangents] returns one tangent for every point when there are
    two points or more, and throws for no point and for one point: it reads
    [points[1].x]. *)
Theorem monotoneTangents_domain (points : list (Point N)) :
  if Nat.leb 2 (length points)
  then exists tangents,
         monotoneTangents ops points = Returns tangents
         /\ length tangents = length points
  else monotoneTangents ops points = Throws.
Proof.
  destruct (Nat.leb 2 (length points)) eqn:E.
  - apply Nat.leb_le in E. now apply monotoneTangents_returns.
  - apply Nat.leb_gt in E. unfold monotoneTangents.
    replace (length points - 1)%nat with 0%nat by lia.
    cbn [seq forM fold_left bind].
    assert (H1 : nth_error points 1 = None) by (apply nth_error_None; lia).
    now rewrite H1.
Qed.

End TangentsDomain.

(* ================================================================== *)
(** * What [polyUnion] returns *)

Section UnionShape.

Context {N : Type} (ops : NumOps N) (atan2 : N -> N -> N).

(** The walk only appends to [result], and it appends the head of the
    queue first. *)
Lemma trace_appends (fuel : nat) (g : list (Node N)) (q visited result : list (PtObj N))
      (prevPt : option (PtObj N)) (known : bool) (r : list (PtObj N)) :
  trace ops atan2 fuel g q visited result prevPt known = Returns r ->
  exists more, r = result ++ more /\ (forall v0 q', q = v0 :: q' -> hd_error more = Some v0).
Proof.
  revert q visited result prevPt known.
  induction fuel as [|fuel IH]; intros q visited result prevPt known H.
  - destruct q; simpl in H; [|discriminate]. inversion H. exists [].
    split; [now rewrite app_nil_r|discriminate].
  - destruct q as [|v0 q]; cbn [trace] in H.
    { inversion H. exists []. split; [now rewrite app_nil_r|discriminate]. }
    assert (Hstep : forall q1 vis1 prev1 known1,
               trace ops atan2 fuel g q1 vis1 (result ++ [v0]) prev1 known1 = Returns r ->
               exists more, r = result ++ more
                            /\ (forall v1 q', v0 :: q = v1 :: q' -> hd_error more = Some v1)).
    { intros q1 vis1 prev1 known1 H1. destruct (IH _ _ _ _ _ H1) as [more [-> _]].
      exists (v0 :: more). split; [now rewrite <- app_assoc|].
      intros v1 q' Hq. inversion Hq. reflexivity. }
    destruct (getNeighbours ops g v0) as [neighb| |]; cbn [bind] in H; try discriminate.
    destruct neighb as [|n0 [|n1 [|n2 rest]]].
    + destruct prevPt as [prev|]; cbn [prop_of bind] in H; [|discriminate].
      match type of H with
      | context [nth_error ?l 0] => destruct (nth_error l 0) as [first|]
      end; cbn [prop_of bind] in H; [|discriminate].
      destruct (negb (isVisited ops visited first)); eapply Hstep; exact H.
    + destruct prevPt as [prev|]; cbn [prop_of bind] in H; [|discriminate].
      match type of H with
      | context [nth_error ?l 0] => destruct (nth_error l 0) as [first|]
      end; cbn [prop_of bind] in H; [|discriminate].
      destruct (negb (isVisited ops visited first)); eapply Hstep; exact H.
    + destruct known.
      * match type of H with
        | context [find ?f ?l] => destruct (find f l) as [next|]
        end; eapply Hstep; exact H.
      * eapply Hstep; exact H.
    + destruct prevPt as [prev|]; cbn [prop_of bind] in H; [|discriminate].
      match type of H with
      | context [nth_error ?l 0] => destruct (nth_error l 0) as [first|]
      end; cbn [prop_of bind] in H; [|discriminate].
      destruct (negb (isVisited ops visited first)); eapply Hstep; exact H.
Qed.

(** X25: What [polyUnion] returns, when it returns: one of its arguments, or both
    in their order, or one new polygon; the new polygon starts with a vertex
    of one of the arguments.  It never returns no polygon, and returns two
    only as the two arguments. *)
Theorem polyUnion_result_shape (next : nat) (poly1 poly2 : list (PtObj N))
        (result : list (list (PtObj N))) :
  polyUnion ops atan2 next poly1 poly2 = Returns result ->
  result = [poly1] \/ result = [poly2] \/ result = [poly1; poly2]
  \/ exists start0 rest, result = [start0 :: rest] /\ In start0 (poly1 ++ poly2).
Proof.
  unfold polyUnion. cbv zeta.
  destruct (negb (haveIntersection (scan ops next poly1 poly2))).
  - destruct (match poly2 with [] => true | q :: _ => inside ops (vals poly1) (val q) end).
    + intros H. inversion H. auto.
    + destruct (match poly1 with [] => true | q :: _ => inside ops (vals poly2) (val q) end);
        intros H; inversion H; auto.
  - unfold furthestFromLowestLeft.
    destruct (reduce1 _ _) as [minx| |]; cbn [bind]; try discriminate.
    destruct (reduce1 _ _) as [maxy| |]; cbn [bind]; try discriminate.
    match goal with
    | |- context [nth_error ?l 0] => destruct (nth_error l 0) as [first|] eqn:Ef
    end; cbn [prop_of bind fst]; [|discriminate].
    match goal with
    | |- context [trace ?o ?a ?f ?g ?q ?vi ?r ?pr ?k] =>
        destruct (trace o a f g q vi r pr k) as [r0| |] eqn:Et
    end; cbn [bind]; try discriminate.
    intros H. inversion H. subst. do 3 right.
    destruct (trace_appends _ _ _ _ _ _ _ _ Et) as [more [-> Hhd]].
    specialize (Hhd first [] eq_refl). destruct more as [|m more]; [discriminate|].
    inversion Hhd. subst. exists first, more. split; [reflexivity|].
    apply nth_error_In in Ef. now apply sortBy_In in Ef.
Qed.

End UnionShape.

(** The witness of X25: the square and the far square. *)
Lemma polyUnion_result_shape_witness :
  let A := objects 0 Ex.square in
  let B := objects 4 Ex.farSquare in
  length A = 4%nat
  /\ forall at2 : float -> float -> float,
      polyUnion F64 at2 8 A B = Returns [A; B]
      /\ ([A; B] = [A] \/ [A; B] = [B] \/ [A; B] = [A; B]
          \/ exists start0 rest, [A; B] = [start0 :: rest] /\ In start0 (A ++ B)).
Proof.
  intros A B. split; [reflexivity|]. intros at2.
  assert (H : polyUnion F64 at2 8 A B = Returns [A; B]) by reflexivity.
  split; [exact H|].
  apply (polyUnion_result_shape F64 at2 8 A B [A; B] H).
Defined.

(* ================================================================== *)
(** * Removal of self intersections: the size of the result *)

Section RemoveBound.

Context {N : Type} (ops : NumOps N).

(** The loop returns within its fuel; it appends to [result], at most one
    point for every segment from [i] on but the last. *)
Lemma removeLoop_bound (segs : list (Segment (Point N))) (fuel i : nat)
      (result : list (Point N)) :
  (length segs - i <= fuel)%nat ->
  exists more,
    removeLoop ops fuel segs i result = Returns (result ++ more)
    /\ (length more <= length segs - 1 - i)%nat.
Proof.
  revert i result. induction fuel as [|fuel IH]; intros i result Hf.
  - simpl. destruct (Nat.ltb i (length segs)) eqn:L.
    + apply Nat.ltb_lt in L. lia.
    + exists []. rewrite app_nil_r. split; [reflexivity|simpl; lia].
  - cbn [removeLoop]. destruct (Nat.ltb i (length segs)) eqn:L.
    2:{ exists []. rewrite app_nil_r. split; [reflexivity|simpl; lia]. }
    apply Nat.ltb_lt in L.
    destruct (candidates_returns ops segs i L) as [cands [Ec Fc]]. rewrite Ec. cbn [bind].
    destruct (prop_of_nth segs i L) as [si Esi]. rewrite Esi. cbn [bind].
    destruct (fold_left (closer ops si) cands None) as [[index inters]|] eqn:Ecl.
    + assert (Hidx : (i < index < length segs)%nat).
      { apply (closer_fold ops si cands None (fun c => (i < fst c < length segs)%nat) Fc)
          with (d := (index, inters)); [discriminate|exact Ecl]. }
      destruct (Nat.ltb index (length segs - 1)) eqn:L1.
      * apply Nat.ltb_lt in L1.
        destruct (prop_of_nth segs index) as [sj Esj]; [lia|]. rewrite Esj. cbn [bind].
        destruct (IH (Datatypes.S index)
                     ((result ++ [getIntersectionPoint ops inters si]) ++ [end_ sj]))
          as [more [Em Lm]]; [lia|].
        rewrite Em. eexists. rewrite <- !app_assoc. split; [reflexivity|].
        rewrite !length_app. simpl. lia.
      * apply Nat.ltb_ge in L1.
        destruct (IH (Datatypes.S index) (result ++ [getIntersectionPoint ops inters si]))
          as [more [Em Lm]]; [lia|].
        rewrite Em. eexists. rewrite <- !app_assoc. split; [reflexivity|].
        rewrite !length_app. simpl. lia.
    + destruct (Nat.ltb i (length segs - 1)) eqn:L1.
      * apply Nat.ltb_lt in L1. rewrite Esi. cbn [bind].
        destruct (IH (Datatypes.S i) (result ++ [end_ si])) as [more [Em Lm]]; [lia|].
        rewrite Em. eexists. rewrite <- !app_assoc. split; [reflexivity|].
        rewrite !length_app. simpl. lia.
      * apply Nat.ltb_ge in L1.
        destruct (IH (Datatypes.S i) result) as [more [Em Lm]]; [lia|].
        rewrite Em. exists more. split; [reflexivity|]. lia.
Qed.

(** X26: [removeSelfIntersectingParts] returns for every polygon: its loop ends
    and no read is out of range.  What it returns starts with the first
    vertex of the polygon in the order [pickClockwiseOrder] gives it, and has
    at most as many points as the polygon. *)
Theorem removeSelfIntersectingParts_total (pts : list (Point N)) :
  exists result,
    removeSelfIntersectingParts ops pts = Returns result
    /\ hd_error result = hd_error (pickClockwiseOrder ops pts)
    /\ (length result <= length pts)%nat.
Proof.
  unfold removeSelfIntersectingParts. cbv zeta.
  rewrite <- (length_pickClockwiseOrder ops pts).
  set (cw := pickClockwiseOrder ops pts).
  destruct (segments cw) as [|s0 segs] eqn:Es.
  - exists cw. repeat split. lia.
  - rewrite <- Es.
    destruct (removeLoop_bound (segments cw) (length (segments cw)) 0 [start s0])
      as [more [Em Lm]]; [lia|].
    rewrite Em. eexists. split; [reflexivity|].
    rewrite length_segments in Lm.
    destruct cw as [|p0 [|p1 rest]]; [discriminate Es|discriminate Es|].
    unfold segments in Es. inversion Es. subst s0. cbn [start hd_error app].
    split; [reflexivity|]. cbn in Lm. cbn [length]. lia.
Qed.

End RemoveBound.

(* ================================================================== *)
(** * [polyUnion] returns or throws *)

(** X27: In binary64 every call of [polyUnion] returns or throws: the walk along
    the merged graph ends, after at most two turns more than the graph has
    neighbour entries. *)
Theorem polyUnion_returns_or_throws (at2 : float -> float -> float) (next : nat)
        (poly1 poly2 : list (PtObj float)) :
  (exists result, polyUnion F64 at2 next poly1 poly2 = Returns result)
  \/ polyUnion F64 at2 next poly1 poly2 = Throws.
Proof.
  pose proof (polyUnion_within_bound F64 at2 F64_eqb_found_refl next poly1 poly2) as H.
  destruct (polyUnion F64 at2 next poly1 poly2) as [result| |]; [left; eauto|now right|].
  now elim H.
Qed.
